(** * SPIR-V to LLVM reader: a shallow embedding of [SPRVReader.cpp]

    The development follows [lib/SPIRV/SPRVReader.cpp]: the emitted IR is an
    explicit store of functions, global variables, basic blocks and
    instructions addressed by handles (the C++ pointers), the translator
    class [SPRVToLLVM] is a record of its tables, and every member function
    is a computation in a state-and-failure monad.  A failed [assert] or a
    dereferenced null pointer is the failure of the monad. *)

From Stdlib Require Import ZArith NArith String Ascii List Bool.
From stdpp Require Import base option list strings pretty gmap.

Local Open Scope string_scope.
Local Open Scope list_scope.
Local Open Scope N_scope.

(** ** The emitted IR (the subset of LLVM the reader builds) *)

Module IR.

(** LLVM types are uniqued in their context, so that pointer equality of
    [Type *] is structural equality here. *)
#[warnings="-register-all"]
Inductive Ty : Type :=
| VoidTy
| IntegerTy (bits : N)
| HalfTy
| FloatTy
| DoubleTy
| ArrayTy (elem : Ty) (len : N)
| PointerTy (elem : Ty) (addrspace : N)
| VectorTy (elem : Ty) (count : N)
| OpaqueStructTy (name : string)
| StructTy (name : string) (members : list Ty) (packed : bool)
| FunctionTy (ret : Ty) (params : list Ty) (isVarArg : bool).

Fixpoint Ty_eq_dec (a b : Ty) {struct a} : {a = b} + {a <> b}.
Proof.
  decide equality;
    try apply N.eq_dec; try apply string_dec; try apply Bool.bool_dec;
    apply (List.list_eq_dec Ty_eq_dec).
Defined.

#[export] Instance Ty_eq : EqDecision Ty := Ty_eq_dec.

Definition Int1Ty := IntegerTy 1.
Definition Int8Ty := IntegerTy 8.
Definition Int32Ty := IntegerTy 32.
Definition Int64Ty := IntegerTy 64.

Inductive LinkageTypes :=
| ExternalLinkage | AvailableExternallyLinkage | LinkOnceODRLinkage
| InternalLinkage | PrivateLinkage | AppendingLinkage | CommonLinkage.

#[export] Instance LinkageTypes_eq : EqDecision LinkageTypes.
Proof. solve_decision. Defined.

(** [CallingConv::C] is the convention of a freshly created function or
    call. *)
Inductive CallingConv := CC_C | SPIR_FUNC | SPIR_KERNEL.

#[export] Instance CallingConv_eq : EqDecision CallingConv.
Proof. solve_decision. Defined.

Inductive AttrKind :=
| NoUnwind | ReadNone | ReadOnly | AlwaysInline | NoInline
| ZExt | SExt | ByVal | StructRet | NoAlias | NoCapture.

#[export] Instance AttrKind_eq : EqDecision AttrKind.
Proof. solve_decision. Defined.

(** An attribute set: pairs of a slot index and an attribute.  Index
    [FunctionIndex] holds the function attributes, [ReturnIndex] those of the
    return value, [i + 1] those of parameter [i]. *)
Definition AttrIndex := N.
Definition ReturnIndex : AttrIndex := 0.
Definition FunctionIndex : AttrIndex := 4294967295.

Definition AttributeSet := list (AttrIndex * AttrKind).

Definition hasAttr (A : AttributeSet) (i : AttrIndex) (k : AttrKind) : bool :=
  bool_decide ((i, k) ∈ A).

Definition addAttr (A : AttributeSet) (i : AttrIndex) (k : AttrKind)
  : AttributeSet :=
  if hasAttr A i k then A else A ++ [(i, k)].

Definition handle := positive.

(** A [Value *].  Constants are uniqued by the context and compared by
    structure; every other value is a heap object compared by address. *)
Inductive Value :=
| ConstantInt (ty : Ty) (v : Z)
| ConstantFP (ty : Ty) (bitpattern : Z)
| ConstantPointerNull (ty : Ty)
| ConstantAggregateZero (ty : Ty)
| UndefValue (ty : Ty)
| GlobalVariableV (h : handle)
| FunctionV (h : handle)
| ArgumentV (fn : handle) (argNo : N)
| BasicBlockV (h : handle)
| InstructionV (h : handle).

#[export] Instance Value_eq : EqDecision Value.
Proof. solve_decision. Defined.

Inductive CastOps :=
| Trunc | ZExtOp | SExtOp | FPToUI | FPToSI | UIToFP | SIToFP | FPTrunc
| FPExt | PtrToInt | IntToPtr | BitCast | AddrSpaceCast.

#[export] Instance CastOps_eq : EqDecision CastOps.
Proof. solve_decision. Defined.

(** Instructions.  An operand is [None] when the C++ operand is a null
    pointer (after [dropAllReferences], or when a null [Value *] was passed
    to the constructor). *)
Inductive Instruction :=
| LoadInst (ptr : option Value) (name : string) (isVolatile : bool) (align : N)
| CallInst (callee : option Value) (args : list (option Value))
    (name : string) (cc : CallingConv) (attrs : AttributeSet)
| CastInst (op : CastOps) (src : option Value) (dst : Ty) (name : string)
| OtherInst (opcode : string) (operands : list (option Value)) (name : string).

#[export] Instance Instruction_eq : EqDecision Instruction.
Proof. solve_decision. Defined.

Record GlobalVariable := mkGlobalVariable {
  gv_name : string;
  gv_valueType : Ty;
  gv_isConstant : bool;
  gv_linkage : LinkageTypes;
  gv_initializer : option Value;
  gv_addrspace : N
}.

Record Function := mkFunction {
  fn_name : string;
  fn_type : Ty;
  fn_linkage : LinkageTypes;
  fn_callingConv : CallingConv;
  fn_attributes : AttributeSet;
  fn_blocks : list handle
}.

Record BasicBlock := mkBasicBlock {
  bb_name : string;
  bb_parent : option handle;
  bb_insts : list handle
}.

(** The module proper: what is attached to it, in list order, and the two
    target strings.  The objects themselves live in the store below, so that
    an object detached with [removeFromParent] still exists. *)
Record Module := mkModule {
  mod_functions : list handle;
  mod_globals : list handle;
  mod_targetTriple : string;
  mod_dataLayout : string
}.

Definition emptyModule : Module := mkModule [] [] "" "".

End IR.

(** ** The SPIR-V input (consumed, not owned) *)

Module SPRV.

(** Modelled from the spec: the storage classes.  The enumeration is declared
    in a header that is not among the sources; the reader itself names
    [SPRVSC_Function] and [SPRVSC_Private], and the address-space table of
    [SPIRVInternal.h] names the other four. *)
Inductive SPRVStorageClassKind :=
| SPRVSC_UniformConstant | SPRVSC_Workgroup | SPRVSC_CrossWorkgroup
| SPRVSC_Function | SPRVSC_Generic | SPRVSC_Private
| SPRVSC_Other (w : N).

#[export] Instance SPRVStorageClassKind_eq : EqDecision SPRVStorageClassKind.
Proof. solve_decision. Defined.

Inductive SPRVAddressingModelKind :=
| SPRVAM_Logical | SPRVAM_Physical32 | SPRVAM_Physical64
| SPRVAM_Other (w : N).

Inductive SPRVAccessQualifierKind :=
| SPRVAC_ReadOnly | SPRVAC_WriteOnly | SPRVAC_ReadWrite.

(** The linkage kinds and the image descriptors are enumerations of headers
    that are not among the sources: they are kept as the words read from the
    binary. *)
Definition SPRVLinkageTypeKind := N.
Definition SPRVTypeSamplerDescriptor := N.

Inductive SPRVFPRoundingModeKind :=
| SPRVFRM_RTE | SPRVFRM_RTZ | SPRVFRM_RTP | SPRVFRM_RTN.

Inductive SPRVExtInstSetKind :=
| SPRVBIS_OpenCL12 | SPRVBIS_OpenCL20 | SPRVBIS_OpenCL21 | SPRVBIS_Count.

(** The op codes the reader names, and [SPRVOC_Other] for the remaining
    ones. *)
Inductive SPRVOpCode :=
| SPRVOC_OpConstant | SPRVOC_OpConstantTrue | SPRVOC_OpConstantFalse
| SPRVOC_OpConstantNull | SPRVOC_OpConstantComposite
| SPRVOC_OpConstantSampler | SPRVOC_OpUndef | SPRVOC_OpVariable
| SPRVOC_OpVariableArray | SPRVOC_OpFunctionParameter | SPRVOC_OpFunction
| SPRVOC_OpLabel
| SPRVOC_OpBranch | SPRVOC_OpBranchConditional | SPRVOC_OpPhi
| SPRVOC_OpReturn | SPRVOC_OpReturnValue | SPRVOC_OpStore | SPRVOC_OpLoad
| SPRVOC_OpCopyMemorySized | SPRVOC_OpSelect | SPRVOC_OpSwitch
| SPRVOC_OpAccessChain | SPRVOC_OpInBoundsAccessChain
| SPRVOC_OpCompositeExtract | SPRVOC_OpVectorExtractDynamic
| SPRVOC_OpCompositeInsert | SPRVOC_OpVectorInsertDynamic
| SPRVOC_OpVectorShuffle | SPRVOC_OpFunctionCall | SPRVOC_OpExtInst
| SPRVOC_OpControlBarrier | SPRVOC_OpMemoryBarrier
| SPRVOC_OpSNegate | SPRVOC_OpFNegate | SPRVOC_OpNot
| SPRVOC_OpPtrCastToGeneric | SPRVOC_OpGenericCastToPtr
| SPRVOC_OpSConvert | SPRVOC_OpUConvert | SPRVOC_OpFConvert
| SPRVOC_OpConvertFToU | SPRVOC_OpConvertFToS
| SPRVOC_OpConvertSToF | SPRVOC_OpConvertUToF
| SPRVOC_OpBitwiseOr | SPRVOC_OpLogicalOr | SPRVOC_OpBitwiseAnd
| SPRVOC_OpLogicalAnd | SPRVOC_OpBitwiseXor | SPRVOC_OpLogicalXor
| SPRVOC_OpLessOrGreater | SPRVOC_OpUnordered | SPRVOC_OpBuildNDRange
| SPRVOC_Other (w : N).

#[export] Instance SPRVOpCode_eq : EqDecision SPRVOpCode.
Proof. solve_decision. Defined.

(** [SPRVType]: the variants of section 3 of the specification, as
    [transType] switches on them. *)
#[warnings="-register-all"]
Inductive SPRVType :=
| TypeVoid
| TypeBool
| TypeInt (bits : N) (isSigned : bool)
| TypeFloat (bits : N)
| TypeArray (elem : SPRVType) (len : N)
| TypePointer (elem : SPRVType) (sc : SPRVStorageClassKind)
| TypeVector (comp : SPRVType) (count : N)
| TypeOpaque (name : string)
| TypeFunction (ret : SPRVType) (params : list SPRVType)
| TypeStruct (members : list SPRVType) (name : string) (packed : bool)
| TypeSampler (descriptor : SPRVTypeSamplerDescriptor)
    (access : SPRVAccessQualifierKind) (isOCLImage isOCLSampler : bool)
| TypePipe (elem : SPRVType)
| TypeOpaqueGeneric (oc : SPRVOpCode).

Definition isTypeBool (T : SPRVType) : bool :=
  match T with TypeBool => true | _ => false end.
Definition isTypeVector (T : SPRVType) : bool :=
  match T with TypeVector _ _ => true | _ => false end.
Definition isTypeVectorBool (T : SPRVType) : bool :=
  match T with TypeVector TypeBool _ => true | _ => false end.
Definition isTypeVectorOrScalarBool (T : SPRVType) : bool :=
  isTypeBool T || isTypeVectorBool T.

(** [getVectorComponentCount], [getPointerStorageClass] and [getBitWidth]
    assert the kind of the type; [getBitWidth] is the width of a scalar or
    of the components of a vector. *)
Definition getVectorComponentCount (T : SPRVType) : option N :=
  match T with TypeVector _ n => Some n | _ => None end.
Definition getPointerStorageClass (T : SPRVType)
  : option SPRVStorageClassKind :=
  match T with TypePointer _ sc => Some sc | _ => None end.
Definition getPointerElementType (T : SPRVType) : option SPRVType :=
  match T with TypePointer e _ => Some e | _ => None end.
Fixpoint getBitWidth (T : SPRVType) : option N :=
  match T with
  | TypeVector c _ => getBitWidth c
  | TypeBool => Some 1
  | TypeInt b _ => Some b
  | TypeFloat b => Some b
  | _ => None
  end.

(** The decorations, the memory-access operands and the memory-semantics mask
    a value carries. *)
Record SPRVDecorations := mkDecorations {
  dec_isVolatile : bool;
  dec_alignment : N;
  dec_fpRoundingMode : option SPRVFPRoundingModeKind;
  dec_saturatedConversion : bool;
  dec_memSemantic : N
}.

Definition noDecorations : SPRVDecorations :=
  mkDecorations false 0 None false 0.

(** [SPRVValue]: a numeric id, an op code, an optional type, a name, the
    operand values, and the decorations. *)
#[warnings="-register-all"]
Inductive SPRVValue := mkSPRVValue {
  getId : N;
  getOpCode : SPRVOpCode;
  valueType : option SPRVType;
  getName : string;
  getOperands : list SPRVValue;
  getDecorations : SPRVDecorations
}.

Definition hasType (BV : SPRVValue) : bool :=
  match valueType BV with Some _ => true | None => false end.
Definition hasFPRoundingMode (BV : SPRVValue) : bool :=
  match dec_fpRoundingMode (getDecorations BV) with
  | Some _ => true | None => false end.
Definition isSaturatedConversion (BV : SPRVValue) : bool :=
  dec_saturatedConversion (getDecorations BV).
Definition getMemSemantic (BV : SPRVValue) : N :=
  dec_memSemantic (getDecorations BV).

(** [getOperandTypes]: the types of the operands; an operand without a type
    has no [getType]. *)
Definition getOperandTypes (BI : SPRVValue) : option (list SPRVType) :=
  mapM valueType (getOperands BI).

(** The parameter attributes the reader names: [SPRVFPA_Const] is skipped,
    the others go through [SPIRSPRVFuncParamAttrMap]. *)
Inductive SPRVFuncParamAttrKind :=
| SPRVFPA_Zext | SPRVFPA_Sext | SPRVFPA_ByVal | SPRVFPA_Sret
| SPRVFPA_NoAlias | SPRVFPA_NoCapture | SPRVFPA_Const.

(** [SPRVFunction]: the function as a value, its function type, linkage and
    control mask, the parameters with their attributes, the attributes of
    the return value, and the basic blocks (label and instructions). *)
Record SPRVFunction := mkSPRVFunction {
  fun_value : SPRVValue;
  getFunctionType : SPRVType;
  getLinkageType : SPRVLinkageTypeKind;
  getFuncCtlMask : N;
  getArguments : list (SPRVValue * list SPRVFuncParamAttrKind);
  getReturnValueAttrs : list SPRVFuncParamAttrKind;
  getBasicBlocks : list (SPRVValue * list SPRVValue)
}.

(** An extended instruction: its instruction set, its entry point and the
    argument words. *)
Record SPRVExtInst := mkSPRVExtInst {
  ext_value : SPRVValue;
  getBuiltinSet : SPRVExtInstSetKind;
  getEntryPoint : N;
  getArgumentWords : list N
}.

(** The error codes: success, the one the reader raises, and the others. *)
Inductive SPRVErrorCode :=
| SPRVEC_Success | SPRVEC_InvalidAddressingModel | SPRVEC_Other (w : N).

Record SPRVErrorLog := mkErrorLog {
  ErrorCode : SPRVErrorCode;
  ErrorMsg : string
}.

Record SPRVModule := mkSPRVModule {
  getAddressingModel : SPRVAddressingModelKind;
  kernelEntryPoints : list N;
  getCompileFlag : string;
  getFunctions : list SPRVFunction;
  getVariables : list (SPRVValue * SPRVStorageClassKind);
  (** Lookup by numeric id. *)
  getValue : N → option SPRVValue
}.

Definition isEntryPoint (BM : SPRVModule) (id : N) : bool :=
  bool_decide (id ∈ kernelEntryPoints BM).

End SPRV.

(** ** The translator state and its monad *)

Import IR SPRV.

(** An instruction of the store together with [getParent()]. *)
Record InstNode := mkInstNode {
  node_inst : Instruction;
  node_parent : option handle
}.

(** The class [SPRVToLLVM]: the emitted module [M] with the objects of its
    context, the tables of the class, and the error log of the input module
    [BM] (the only part of [BM] that is written). *)
Record SPRVToLLVM := mkSPRVToLLVM {
  M : Module;
  functions : gmap handle Function;
  globals : gmap handle GlobalVariable;
  blocks : gmap handle BasicBlock;
  insts : gmap handle InstNode;
  ValueMap : gmap N Value;
  FuncMap : gmap N handle;
  PlaceholderMap : gmap N handle;
  ErrorLog : SPRVErrorLog
}.

Definition initial (log : SPRVErrorLog) : SPRVToLLVM :=
  mkSPRVToLLVM emptyModule ∅ ∅ ∅ ∅ ∅ ∅ ∅ log.

Definition set_M (f : Module → Module) (st : SPRVToLLVM) : SPRVToLLVM :=
  mkSPRVToLLVM (f (M st)) (functions st) (globals st) (blocks st) (insts st)
    (ValueMap st) (FuncMap st) (PlaceholderMap st) (ErrorLog st).
Definition set_functions (f : gmap handle Function → gmap handle Function)
    (st : SPRVToLLVM) : SPRVToLLVM :=
  mkSPRVToLLVM (M st) (f (functions st)) (globals st) (blocks st) (insts st)
    (ValueMap st) (FuncMap st) (PlaceholderMap st) (ErrorLog st).
Definition set_globals
    (f : gmap handle GlobalVariable → gmap handle GlobalVariable)
    (st : SPRVToLLVM) : SPRVToLLVM :=
  mkSPRVToLLVM (M st) (functions st) (f (globals st)) (blocks st) (insts st)
    (ValueMap st) (FuncMap st) (PlaceholderMap st) (ErrorLog st).
Definition set_blocks (f : gmap handle BasicBlock → gmap handle BasicBlock)
    (st : SPRVToLLVM) : SPRVToLLVM :=
  mkSPRVToLLVM (M st) (functions st) (globals st) (f (blocks st)) (insts st)
    (ValueMap st) (FuncMap st) (PlaceholderMap st) (ErrorLog st).
Definition set_insts (f : gmap handle InstNode → gmap handle InstNode)
    (st : SPRVToLLVM) : SPRVToLLVM :=
  mkSPRVToLLVM (M st) (functions st) (globals st) (blocks st) (f (insts st))
    (ValueMap st) (FuncMap st) (PlaceholderMap st) (ErrorLog st).
Definition set_ValueMap (f : gmap N Value → gmap N Value)
    (st : SPRVToLLVM) : SPRVToLLVM :=
  mkSPRVToLLVM (M st) (functions st) (globals st) (blocks st) (insts st)
    (f (ValueMap st)) (FuncMap st) (PlaceholderMap st) (ErrorLog st).
Definition set_FuncMap (f : gmap N handle → gmap N handle)
    (st : SPRVToLLVM) : SPRVToLLVM :=
  mkSPRVToLLVM (M st) (functions st) (globals st) (blocks st) (insts st)
    (ValueMap st) (f (FuncMap st)) (PlaceholderMap st) (ErrorLog st).
Definition set_PlaceholderMap (f : gmap N handle → gmap N handle)
    (st : SPRVToLLVM) : SPRVToLLVM :=
  mkSPRVToLLVM (M st) (functions st) (globals st) (blocks st) (insts st)
    (ValueMap st) (FuncMap st) (f (PlaceholderMap st)) (ErrorLog st).
Definition set_ErrorLog (f : SPRVErrorLog → SPRVErrorLog)
    (st : SPRVToLLVM) : SPRVToLLVM :=
  mkSPRVToLLVM (M st) (functions st) (globals st) (blocks st) (insts st)
    (ValueMap st) (FuncMap st) (PlaceholderMap st) (f (ErrorLog st)).

(** A member function: it reads and writes the translator, and fails
    ([None]) where the C++ aborts on an assertion or dereferences null. *)
Definition Trans (A : Type) : Type := SPRVToLLVM → option (A * SPRVToLLVM).

#[export] Instance Trans_ret : MRet Trans := λ A a st, Some (a, st).
#[export] Instance Trans_bind : MBind Trans := λ A B f m st,
  match m st with
  | Some (a, st') => f a st'
  | None => None
  end.

Definition abort {A} : Trans A := λ _, None.
Definition get : Trans SPRVToLLVM := λ st, Some (st, st).
Definition modify (f : SPRVToLLVM → SPRVToLLVM) : Trans unit :=
  λ st, Some (tt, f st).
(** An [assert], or the use of a pointer that must not be null. *)
Definition required {A} (o : option A) : Trans A :=
  match o with Some a => mret a | None => abort end.
Definition assert (b : bool) : Trans unit :=
  if b then mret tt else abort.

Fixpoint mapT {A B} (f : A → Trans B) (l : list A) : Trans (list B) :=
  match l with
  | [] => mret []
  | x :: l' => y ← f x; ys ← mapT f l'; mret (y :: ys)
  end.

(** *** The IR builder calls the reader uses *)

(** The address of the next object allocated by [new]: distinct from every
    object of the context. *)
Definition allHandles (st : SPRVToLLVM) : gset handle :=
  dom (functions st) ∪ dom (globals st) ∪ dom (blocks st) ∪ dom (insts st).
Definition newHandle (st : SPRVToLLVM) : handle := fresh (allHandles st).

(** What the builder takes from LLVM as it is: the attributes LLVM gives an
    intrinsic, and the way a symbol table makes a name unique.  Neither is
    among the sources. *)
Class LLVM := {
  (** [Intrinsic::getAttributes] of the intrinsic a name stands for; no
      attribute when LLVM knows no intrinsic of that name. *)
  Intrinsic_getAttributes : string → AttributeSet;
  (** What the symbol table appends to a name that a value of the table
      has, given the names of the table: the name so made is the name of no
      value of the table. *)
  uniqueSuffix : list string → string → string;
  uniqueSuffix_fresh :
    ∀ taken Name, Name +:+ uniqueSuffix taken Name ∉ taken
}.

(** [F->isIntrinsic()]: the name starts with [llvm.]. *)
Definition isIntrinsicName (Name : string) : bool :=
  String.prefix "llvm." Name.
Definition Function_isIntrinsic (F : Function) : bool :=
  isIntrinsicName (fn_name F).
Arguments isIntrinsicName : simpl never.

(** The symbol table of the module: the names of the functions and of the
    global variables attached to it.  A value without a name is not in the
    table. *)
Definition moduleNames (st : SPRVToLLVM) : list string :=
  List.filter (λ Name, negb (bool_decide (Name = "")))
    (omap (λ h, fn_name <$> functions st !! h) (mod_functions (M st)) ++
     omap (λ h, gv_name <$> globals st !! h) (mod_globals (M st))).

(** The name a value gets when it is attached to the module: the name it
    was created with, unless a value of the module has that name; then the
    name is made unique. *)
Definition nameInModule `{LLVM} (st : SPRVToLLVM) (Name : string) : string :=
  if bool_decide (Name ∈ moduleNames st)
  then Name +:+ uniqueSuffix (moduleNames st) Name
  else Name.

(** The attributes of a function as its constructor leaves them: those of
    the intrinsic, when the name is that of one. *)
Definition creationAttributes `{LLVM} (Name : string) : AttributeSet :=
  if isIntrinsicName Name then Intrinsic_getAttributes Name else [].

(** [Function::Create(FT, Linkage, Name, M)]: a declaration with the default
    calling convention, appended to the module, which gives it its name; an
    intrinsic gets its attributes. *)
Definition Function_Create `{LLVM} (FT : Ty) (L : LinkageTypes)
    (Name : string) : Trans handle := λ st,
  let h := newHandle st in
  let Name := nameInModule st Name in
  Some (h, set_M (λ m, mkModule (mod_functions m ++ [h]) (mod_globals m)
                    (mod_targetTriple m) (mod_dataLayout m))
         (set_functions
            <[h := mkFunction Name FT L CC_C (creationAttributes Name) []]>
            st)).

(** [M->getFunction(Name)]: the function of that name attached to the
    module, or null; the empty name is the name of no value. *)
Definition getFunction (Name : string) : Trans (option handle) := λ st,
  Some (if bool_decide (Name = "") then None
        else List.find (λ h, match functions st !! h with
                             | Some f => bool_decide (fn_name f = Name)
                             | None => false
                             end) (mod_functions (M st)), st).

Definition theFunction (h : handle) : Trans Function :=
  st ← get; required (functions st !! h).

Definition updFunction (h : handle) (f : Function → Function) : Trans unit :=
  F ← theFunction h; modify (set_functions <[h := f F]>).

Definition Function_setCallingConv (h : handle) (cc : CallingConv)
  : Trans unit :=
  updFunction h (λ F, mkFunction (fn_name F) (fn_type F) (fn_linkage F) cc
                        (fn_attributes F) (fn_blocks F)).

Definition Function_addAttribute (h : handle) (i : AttrIndex) (k : AttrKind)
  : Trans unit :=
  updFunction h (λ F, mkFunction (fn_name F) (fn_type F) (fn_linkage F)
                        (fn_callingConv F) (addAttr (fn_attributes F) i k)
                        (fn_blocks F)).

Definition Function_addFnAttr (h : handle) (k : AttrKind) : Trans unit :=
  Function_addAttribute h FunctionIndex k.

(** [new GlobalVariable] with the module as first argument, then the type,
    constness, linkage, initializer, name and address space: the variable is
    appended to the module, which gives it its name. *)
Definition new_GlobalVariable `{LLVM} (T : Ty) (isConstant : bool)
    (L : LinkageTypes) (Init : option Value) (Name : string) (AddrSpace : N)
  : Trans handle :=
  λ st,
  let h := newHandle st in
  Some (h, set_M (λ m, mkModule (mod_functions m) (mod_globals m ++ [h])
                    (mod_targetTriple m) (mod_dataLayout m))
         (set_globals <[h := mkGlobalVariable (nameInModule st Name) T
                               isConstant L Init AddrSpace]> st)).

(** An instruction constructor with an [InsertAtEnd] block: the block must
    not be null, and the instruction is appended to it. *)
Definition insertAtEnd (I : Instruction) (BB : option handle)
  : Trans handle := λ st,
  match BB with
  | None => None
  | Some bb =>
      match blocks st !! bb with
      | None => None
      | Some B =>
          let h := newHandle st in
          Some (h, set_blocks <[bb := mkBasicBlock (bb_name B) (bb_parent B)
                                        (bb_insts B ++ [h])]>
                 (set_insts <[h := mkInstNode I (Some bb)]> st))
      end
  end.

Definition theInst (h : handle) : Trans InstNode :=
  st ← get; required (insts st !! h).

(** The operands of an instruction, the callee of a call included. *)
Definition operands (I : Instruction) : list (option Value) :=
  match I with
  | LoadInst p _ _ _ => [p]
  | CallInst c args _ _ _ => args ++ [c]
  | CastInst _ s _ _ => [s]
  | OtherInst _ ops _ => ops
  end.

Definition mapOperands (f : option Value → option Value) (I : Instruction)
  : Instruction :=
  match I with
  | LoadInst p n v a => LoadInst (f p) n v a
  | CallInst c args n cc at_ => CallInst (f c) (List.map f args) n cc at_
  | CastInst op s d n => CastInst op (f s) d n
  | OtherInst oc ops n => OtherInst oc (List.map f ops) n
  end.

Definition replaceOperand (Old New : Value) (o : option Value)
  : option Value :=
  match o with
  | Some v => if decide (v = Old) then Some New else Some v
  | None => None
  end.

Definition replaceUsesIn (Old New : Value) (nd : InstNode) : InstNode :=
  mkInstNode (mapOperands (replaceOperand Old New) (node_inst nd))
    (node_parent nd).

(** [I->replaceAllUsesWith(V)]: the users of an instruction are
    instructions. *)
Definition replaceAllUsesWith (h : handle) (V : Value) : Trans unit :=
  modify (set_insts (fmap (replaceUsesIn (InstructionV h) V))).

(** [I->dropAllReferences()]: every operand becomes null. *)
Definition Instruction_dropAllReferences (h : handle) : Trans unit :=
  nd ← theInst h;
  modify (set_insts <[h := mkInstNode (mapOperands (λ _, None) (node_inst nd))
                             (node_parent nd)]>).

(** [I->removeFromParent()]: unlinks the instruction from its block, which
    [getParent()] must give. *)
Definition Instruction_removeFromParent (h : handle) : Trans unit :=
  nd ← theInst h;
  bb ← required (node_parent nd);
  st ← get;
  B ← required (blocks st !! bb);
  modify (set_blocks <[bb := mkBasicBlock (bb_name B) (bb_parent B)
                               (List.filter (λ i, negb (bool_decide (i = h)))
                                  (bb_insts B))]>);;
  modify (set_insts <[h := mkInstNode (node_inst nd) None]>).

Definition theGlobal (h : handle) : Trans GlobalVariable :=
  st ← get; required (globals st !! h).

Definition GlobalVariable_dropAllReferences (h : handle) : Trans unit :=
  G ← theGlobal h;
  modify (set_globals <[h := mkGlobalVariable (gv_name G) (gv_valueType G)
                               (gv_isConstant G) (gv_linkage G) None
                               (gv_addrspace G)]>).

(** [GV->removeFromParent()]: unlinks the variable from the global list of
    its module. *)
Definition GlobalVariable_removeFromParent (h : handle) : Trans unit :=
  st ← get;
  assert (bool_decide (h ∈ mod_globals (M st)));;
  modify (set_M (λ m, mkModule (mod_functions m)
                        (List.filter (λ g, negb (bool_decide (g = h)))
                           (mod_globals m))
                        (mod_targetTriple m) (mod_dataLayout m))).

(** [dyn_cast<LoadInst>] and [dyn_cast<GlobalVariable>]. *)
Definition dyn_cast_LoadInst (st : SPRVToLLVM) (V : Value) : option handle :=
  match V with
  | InstructionV h =>
      match insts st !! h with
      | Some (mkInstNode (LoadInst _ _ _ _) _) => Some h
      | _ => None
      end
  | _ => None
  end.

Definition dyn_cast_GlobalVariable (V : option Value) : option handle :=
  match V with
  | Some (GlobalVariableV h) => Some h
  | _ => None
  end.

Definition getPointerOperand (I : Instruction) : option Value :=
  match I with
  | LoadInst p _ _ _ => p
  | _ => None
  end.

(** ** The identity maps and the placeholder protocol *)

(** Prefix for placeholder global variable name. *)
Definition kPlaceholderPrefix : string := "placeholder.".

(** [SPRVToLLVM::mapValue].  If a value is mapped twice, the existing mapped
    value is a placeholder, which must be a load instruction of a global
    variable whose name starts with [kPlaceholderPrefix]. *)
Definition mapValue (BV : SPRVValue) (V : Value) : Trans Value :=
  st ← get;
  same ← match ValueMap st !! getId BV with
         | Some Old =>
             if decide (Old = V) then mret true
             else
               LD ← required (dyn_cast_LoadInst st Old);
               ld ← theInst LD;
               Placeholder ← required (dyn_cast_GlobalVariable
                                         (getPointerOperand (node_inst ld)));
               G ← theGlobal Placeholder;
               assert (String.prefix kPlaceholderPrefix (gv_name G));;
               (* Replaces placeholders for PHI nodes *)
               replaceAllUsesWith LD V;;
               Instruction_dropAllReferences LD;;
               Instruction_removeFromParent LD;;
               GlobalVariable_dropAllReferences Placeholder;;
               GlobalVariable_removeFromParent Placeholder;;
               mret false
         | None => mret false
         end;
  if (same : bool) then mret V
  else modify (set_ValueMap <[getId BV := V]>);; mret V.

(** [SPRVToLLVM::mapFunction]. *)
Definition mapFunction (BF : SPRVFunction) (F : handle) : Trans handle :=
  modify (set_FuncMap <[getId (fun_value BF) := F]>);; mret F.

(** ** Tables and helpers declared outside the reader *)

(** The OpenCL SPIR address spaces and the table [SPIRSPRVAddrSpaceMap] of
    [SPIRVInternal.h]. *)
Inductive SPIRAddressSpace :=
| SPIRAS_Private | SPIRAS_Global | SPIRAS_Constant | SPIRAS_Local
| SPIRAS_Generic.

Definition addrSpaceNumber (a : SPIRAddressSpace) : N :=
  match a with
  | SPIRAS_Private => 0 | SPIRAS_Global => 1 | SPIRAS_Constant => 2
  | SPIRAS_Local => 3 | SPIRAS_Generic => 4
  end.

(** [rmap] asserts that the key is in the table. *)
Definition SPIRSPRVAddrSpaceMap_rmap (sc : SPRVStorageClassKind)
  : option SPIRAddressSpace :=
  match sc with
  | SPRVSC_Function => Some SPIRAS_Private
  | SPRVSC_CrossWorkgroup => Some SPIRAS_Global
  | SPRVSC_UniformConstant => Some SPIRAS_Constant
  | SPRVSC_Workgroup => Some SPIRAS_Local
  | SPRVSC_Generic => Some SPIRAS_Generic
  | _ => None
  end.

Definition SPIRSPRVAccessQualifierMap_rmap (a : SPRVAccessQualifierKind)
  : string :=
  match a with
  | SPRVAC_ReadOnly => "read_only"
  | SPRVAC_WriteOnly => "write_only"
  | SPRVAC_ReadWrite => "read_write"
  end.

(** The rounding-mode names ([kSPIRVPostfix] of [SPIRVInternal.h]). *)
Definition SPIRSPRVFPRoundingModeMap_rmap (r : SPRVFPRoundingModeKind)
  : string :=
  match r with
  | SPRVFRM_RTE => "rte" | SPRVFRM_RTZ => "rtz"
  | SPRVFRM_RTP => "rtp" | SPRVFRM_RTN => "rtn"
  end.

Definition SPIR_TARGETTRIPLE32 : string := "spir-unknown-unknown".
Definition SPIR_TARGETTRIPLE64 : string := "spir64-unknown-unknown".
Definition SPIR_DATALAYOUT32 : string :=
  "e-p:32:32:32-i1:8:8-i8:8:8-i16:16:16-i32:32:32" +:+
  "-i64:64:64-f32:32:32-f64:64:64-v16:16:16-v24:32:32" +:+
  "-v32:32:32-v48:64:64-v64:64:64-v96:128:128" +:+
  "-v128:128:128-v192:256:256-v256:256:256" +:+
  "-v512:512:512-v1024:1024:1024".
Definition SPIR_DATALAYOUT64 : string :=
  "e-p:64:64:64-i1:8:8-i8:8:8-i16:16:16-i32:32:32" +:+
  "-i64:64:64-f32:32:32-f64:64:64-v16:16:16-v24:32:32" +:+
  "-v32:32:32-v48:64:64-v64:64:64-v96:128:128" +:+
  "-v128:128:128-v192:256:256-v256:256:256" +:+
  "-v512:512:512-v1024:1024:1024".

(** What the reader takes from the rest of the library and from the name
    mangler: op-code predicates, name tables and the mangling function.
    Their definitions are not among the sources, so that the reader is
    verified for every choice of them. *)
Class Externals := {
  (** The part of LLVM the builder calls rest on. *)
  Externals_LLVM :: LLVM;
  (** [mangle(Set, UnmangledName, ArgTypes, MangledName)] of the mangler. *)
  mangle : SPRVExtInstSetKind → string → list Ty → string;
  (** [decorateSPRVFunction]: the name as [__spirv_{Name}_]. *)
  decorateSPRVFunction : string → string;
  isCmpOpCode : SPRVOpCode → bool;
  isCvtOpCode : SPRVOpCode → bool;
  isCvtFromUnsignedOpCode : SPRVOpCode → bool;
  isCvtToUnsignedOpCode : SPRVOpCode → bool;
  isBinaryShiftLogicalBitwiseOpCode : SPRVOpCode → bool;
  isAtomicOpCode : SPRVOpCode → bool;
  isOpaqueGenericTypeOpCode : SPRVOpCode → bool;
  (** [SPIRSPRVBuiltinInstMap::rfind]: the builtin name of an op code. *)
  SPIRSPRVBuiltinInstMap_rfind : SPRVOpCode → option string;
  BuiltinOpaqueGenericTypeOpCodeMap_rmap : SPRVOpCode → option string;
  SPIRSPRVImageSamplerTypeMap_rmap : SPRVTypeSamplerDescriptor → option string;
  SPIRSPRVLinkageTypeMap_rmap : SPRVLinkageTypeKind → option LinkageTypes;
  (** [SPIRSPRVFuncCtlMaskMap]: the attribute of each function-control
      mask bit. *)
  SPIRSPRVFuncCtlMaskMap : list (AttrKind * N);
  (** [OC >= SPRVOC_OpLessOrGreater && OC <= SPRVOC_OpUnordered]. *)
  isLessOrGreaterToUnordered : SPRVOpCode → bool;
  (** [mapSPRVTypeToOpenCLType(Ty, Signed)]. *)
  mapSPRVTypeToOpenCLType : SPRVType → bool → string;
  (** The rounding mode a literal word stands for
      ([static_cast<SPRVFPRoundingModeKind>]). *)
  roundingOfWord : N → option SPRVFPRoundingModeKind;
  (** [rmapBitMask<SPIRSPRVMemFenceFlagMap>]. *)
  rmapMemFenceFlags : N → N;
  (** The extended-instruction tables [OCL12Map], [OCL20Map], [OCL21Map] and
      the entry points of [printf]. *)
  OCLExtMap : SPRVExtInstSetKind → N → option string;
  OCL_Printf : SPRVExtInstSetKind → N;
  (** The IR printer ([FS << *M]). *)
  printModule : SPRVToLLVM → string
}.

(** ** The type lowerer *)

Section Types.
Context `{Externals}.

Definition transFPType (bits : N) : option Ty :=
  match bits with
  | 16 => Some HalfTy
  | 32 => Some FloatTy
  | 64 => Some DoubleTy
  | _ => None
  end.

(** Modelled from the spec: the delimiter [SPIR_TYPE_NAME_DELIMITER], whose
    definition is not among the sources; the specification gives the image
    type name as [<image-type-name>__<access-qualifier>]. *)
Definition SPIR_TYPE_NAME_DELIMITER : string := "__".

Definition transOCLImageTypeName (d : SPRVTypeSamplerDescriptor)
    (a : SPRVAccessQualifierKind) : option string :=
  Name ← SPIRSPRVImageSamplerTypeMap_rmap d;
  Some (Name +:+ SPIR_TYPE_NAME_DELIMITER +:+ SPIRSPRVAccessQualifierMap_rmap a).

(** [getOrCreateOpaquePtrType(M, Name, AddrSpace = SPIRAS_Global)]. *)
Definition getOrCreateOpaquePtrType (Name : string) : Ty :=
  PointerTy (OpaqueStructTy Name) (addrSpaceNumber SPIRAS_Global).

(** [SPRVToLLVM::transType].  The table [TypeMap] memoizes the result per
    input type; the lowering is a function of the input type, which is what
    the memoization preserves, so that the table is not kept. *)
Fixpoint transType (T : SPRVType) : option Ty :=
  match T with
  | TypeVoid => Some VoidTy
  | TypeBool => Some Int1Ty
  | TypeInt bits _ => Some (IntegerTy bits)
  | TypeFloat bits => transFPType bits
  | TypeArray E n => ET ← transType E; Some (ArrayTy ET n)
  | TypePointer E sc =>
      ET ← transType E;
      AS ← SPIRSPRVAddrSpaceMap_rmap sc;
      Some (PointerTy ET (addrSpaceNumber AS))
  | TypeVector C n => CT ← transType C; Some (VectorTy CT n)
  | TypeOpaque Name => Some (OpaqueStructTy Name)
  | TypeFunction R Ps =>
      RT ← transType R;
      PT ← mapM transType Ps;
      Some (FunctionTy RT PT false)
  | TypeSampler d a isImage isSampler =>
      if isImage then getOrCreateOpaquePtrType <$> transOCLImageTypeName d a
      else if isSampler then Some Int32Ty
      else None
  | TypeStruct Ms Name packed =>
      MT ← mapM transType Ms;
      Some (StructTy Name MT packed)
  | TypePipe E =>
      ET ← transType E;
      Some (PointerTy (StructTy "opencl.pipe_t" [ET] false)
              (addrSpaceNumber SPIRAS_Global))
  | TypeOpaqueGeneric oc =>
      if isOpaqueGenericTypeOpCode oc then
        Name ← BuiltinOpaqueGenericTypeOpCodeMap_rmap oc;
        Some (PointerTy (OpaqueStructTy Name) (addrSpaceNumber SPIRAS_Private))
      else None
  end.

Definition transTypeVector (BT : list SPRVType) : option (list Ty) :=
  mapM transType BT.

End Types.

(** ** Calls and casts *)

Definition dyn_cast_Function (V : option Value) : option handle :=
  match V with Some (FunctionV h) => Some h | _ => None end.
Definition dyn_cast_BasicBlock (V : Value) : option handle :=
  match V with BasicBlockV h => Some h | _ => None end.
Definition dyn_cast_ConstantInt (V : Value) : option Value :=
  match V with ConstantInt _ _ => Some V | _ => None end.

Definition isFunctionTy (T : Ty) : bool :=
  match T with FunctionTy _ _ _ => true | _ => false end.

(** [CallInst::Create(Func, Args, Name, InsertAtEnd)]: the call has the
    default calling convention and no attribute. *)
Definition CallInst_Create (Func : handle) (Args : list (option Value))
    (Name : string) (BB : option handle) : Trans handle :=
  insertAtEnd (CallInst (Some (FunctionV Func)) Args Name CC_C []) BB.

(** [CastInst::Create(Op, S, Ty, Name, InsertAtEnd)]. *)
Definition CastInst_Create (Op : CastOps) (S : Value) (T : Ty) (Name : string)
    (BB : option handle) : Trans handle :=
  insertAtEnd (CastInst Op (Some S) T Name) BB.

Definition getCalledFunction (I : Instruction) : option handle :=
  match I with
  | CallInst c _ _ _ _ => dyn_cast_Function c
  | _ => None
  end.

Definition updCall (h : handle)
    (f : CallingConv → AttributeSet → string →
         CallingConv * AttributeSet * string) : Trans unit :=
  nd ← theInst h;
  match node_inst nd with
  | CallInst c args n cc at_ =>
      let '(cc', at', n') := f cc at_ n in
      modify (set_insts <[h := mkInstNode (CallInst c args n' cc' at')
                                 (node_parent nd)]>)
  | _ => abort
  end.

Definition CallInst_setCallingConv (h : handle) (cc : CallingConv) :=
  updCall h (λ _ at_ n, (cc, at_, n)).
Definition CallInst_setAttributes (h : handle) (A : AttributeSet) :=
  updCall h (λ cc _ n, (cc, A, n)).
Definition CallInst_setName (h : handle) (Name : string) :=
  updCall h (λ cc at_ _, (cc, at_, Name)).

(** [addFnAttr(Context, Call, Attr)] of the utilities: adds a function
    attribute to a call. *)
Definition addFnAttr (h : handle) (k : AttrKind) :=
  updCall h (λ cc at_ n, (cc, addAttr at_ FunctionIndex k, n)).

(** [SPRVToLLVM::setCallingConv]. *)
Definition setCallingConv (Call : handle) : Trans unit :=
  nd ← theInst Call;
  F ← required (getCalledFunction (node_inst nd));
  Fo ← theFunction F;
  CallInst_setCallingConv Call (fn_callingConv Fo).

(** [SPRVToLLVM::setAttrByCalledFunc]. *)
Definition setAttrByCalledFunc (Call : handle) : Trans unit :=
  nd ← theInst Call;
  F ← required (getCalledFunction (node_inst nd));
  Fo ← theFunction F;
  if Function_isIntrinsic Fo then mret tt
  else
    CallInst_setCallingConv Call (fn_callingConv Fo);;
    CallInst_setAttributes Call (fn_attributes Fo).

(** OpenCL function always has NoUnwound attribute. *)
Definition isFuncNoUnwind : bool := true.

(** [std::string::find], [replace] and [erase] as the reader uses them. *)
Definition str_find (pat s : string) : option nat := String.index 0 pat s.
Definition str_replace (pos len : nat) (new s : string) : string :=
  String.substring 0 pos s +:+ new +:+
  String.substring (pos + len) (String.length s - (pos + len)) s.
Definition str_erase (pos len : nat) (s : string) : string :=
  str_replace pos len "" s.

(** ** The reader *)

Section Reader.
Context `{Externals}.

(** The input module [BM]. *)
Variable BM : SPRVModule.

(** The dispatcher is recursive through [transValue]: the member functions
    below are written against the function they call, which is not fixed. *)
Variable transValue :
  SPRVValue → option handle → option handle → bool → Trans Value.

(** The cases of the dispatcher that no property below is about: the
    non-instruction values (constants, variables, parameters, functions,
    labels), the instructions with a direct IR equivalent, and the three
    helpers for compares, shifts and casts. *)
Variable transNonInstructionValue :
  SPRVValue → option handle → option handle → Trans Value.
Variable transDirectInstruction :
  SPRVValue → option handle → option handle → Trans Value.
Variable transCmpInst :
  SPRVValue → option handle → option handle → Trans Value.
Variable transShiftLogicalBitwiseInst :
  SPRVValue → option handle → option handle → Trans Value.
Variable transConvertInst :
  SPRVValue → option handle → option handle → Trans Value.

(** [transValue(const std::vector<SPRVValue *>&, F, BB)]. *)
Definition transValueVec (BV : list SPRVValue) (F BB : option handle)
  : Trans (list Value) :=
  mapT (λ I, transValue I F BB true) BV.

Definition isAtomic (BV : SPRVValue) : bool := isAtomicOpCode (getOpCode BV).

(** *** Functions *)

Definition SPIRSPRVFuncParamAttrMap_rmap (k : SPRVFuncParamAttrKind)
  : option AttrKind :=
  match k with
  | SPRVFPA_Zext => Some ZExt
  | SPRVFPA_Sext => Some SExt
  | SPRVFPA_ByVal => Some ByVal
  | SPRVFPA_Sret => Some StructRet
  | SPRVFPA_NoAlias => Some NoAlias
  | SPRVFPA_NoCapture => Some NoCapture
  | SPRVFPA_Const => None
  end.

(** [SPRVToLLVM::foreachFuncCtlMask], applied to [F->addFnAttr]. *)
Definition foreachFuncCtlMask (FCM : N) (Func : AttrKind → Trans unit)
  : Trans unit :=
  mapT (λ '(Attr, Mask), if negb (N.land FCM Mask =? 0) then Func Attr
                         else mret tt) SPIRSPRVFuncCtlMaskMap;;
  mret tt.

Definition addParamAttrs (F : handle) (Index : AttrIndex)
    (Kinds : list SPRVFuncParamAttrKind) : Trans unit :=
  mapT (λ Kind, match Kind with
                | SPRVFPA_Const => mret tt
                | _ => A ← required (SPIRSPRVFuncParamAttrMap_rmap Kind);
                       Function_addAttribute F Index A
                end) Kinds;;
  mret tt.

Definition numParams (FT : Ty) : nat :=
  match FT with FunctionTy _ Ps _ => length Ps | _ => 0%nat end.

(** The declaration part of [SPRVToLLVM::transFunction]: the function is
    created, mapped, and given its calling convention and attributes. *)
Definition transFunctionDecl (BF : SPRVFunction) : Trans handle :=
  let IsKernel := isEntryPoint BM (getId (fun_value BF)) in
  Linkage ← (if IsKernel then mret ExternalLinkage
             else required (SPIRSPRVLinkageTypeMap_rmap (getLinkageType BF)));
  FT ← required (transType (getFunctionType BF));
  assert (isFunctionTy FT);;
  Fn ← Function_Create FT Linkage (getName (fun_value BF));
  V ← mapValue (fun_value BF) (FunctionV Fn);
  F ← required (dyn_cast_Function (Some V));
  mapFunction BF F;;
  Fo ← theFunction F;
  (if negb (Function_isIntrinsic Fo) then
     Function_setCallingConv F (if IsKernel then SPIR_KERNEL else SPIR_FUNC);;
     (if isFuncNoUnwind then Function_addFnAttr F NoUnwind else mret tt);;
     foreachFuncCtlMask (getFuncCtlMask BF) (Function_addFnAttr F)
   else mret tt);;
  mret F.

(** [SPRVToLLVM::transFunction].  The names given to the arguments are not
    kept in the store. *)
Definition transFunction (BF : SPRVFunction) : Trans handle :=
  st ← get;
  match FuncMap st !! getId (fun_value BF) with
  | Some F => mret F
  | None =>
      F ← transFunctionDecl BF;
      Fo ← theFunction F;
      mapT (λ ArgNo,
              '(BA, Attrs) ← required (getArguments BF !! ArgNo);
              mapValue BA (ArgumentV F (N.of_nat ArgNo));;
              if bool_decide (getName BA = "") then mret tt
              else addParamAttrs F (N.of_nat ArgNo + 1) Attrs)
        (seq 0 (numParams (fn_type Fo)));;
      addParamAttrs F ReturnIndex (getReturnValueAttrs BF);;
      (* Creating all basic blocks before creating instructions. *)
      mapT (λ '(BBB, _), transValue BBB (Some F) None true)
        (getBasicBlocks BF);;
      mapT (λ '(BBB, Insts),
              V ← transValue BBB (Some F) None true;
              mapT (λ BInst,
                      transValue BInst (Some F) (dyn_cast_BasicBlock V) false)
                Insts)
        (getBasicBlocks BF);;
      mret F
  end.

(** *** Builtin calls *)

(** [SPRVToLLVM::transOCLBuiltinFromInstPreproc]: the return type of the
    builtin of a compare is widened. *)
Definition transOCLBuiltinFromInstPreproc (BI : SPRVValue) (RetTy : Ty)
  : Trans Ty :=
  match valueType BI with
  | None => mret RetTy
  | Some BT =>
      if isCmpOpCode (getOpCode BI) then
        if isTypeBool BT then mret Int32Ty
        else if isTypeVectorBool BT then
          n ← required (getVectorComponentCount BT);
          mret (VectorTy Int32Ty n)
        else abort
      else mret RetTy
  end.

(** [SPRVToLLVM::transOCLBuiltinFromInstPostproc]. *)
Definition transOCLBuiltinFromInstPostproc (BI : SPRVValue) (Inst : handle)
    (BB : option handle) : Trans handle :=
  if isCmpOpCode (getOpCode BI) then
    BT ← required (valueType BI);
    if isTypeVectorOrScalarBool BT then
      T ← required (transType BT);
      CastInst_Create Trunc (InstructionV Inst) T "cvt" BB
    else mret Inst
  else mret Inst.

(** The declaration of an external builtin: created in the module with the
    device calling convention and no-unwind. *)
Definition declareBuiltin (FT : Ty) (MangledName : string) : Trans handle :=
  Func ← Function_Create FT ExternalLinkage MangledName;
  Function_setCallingConv Func SPIR_FUNC;;
  (if isFuncNoUnwind then Function_addFnAttr Func NoUnwind else mret tt);;
  mret Func.

(** [BB->getParent()]. *)
Definition getParent (BB : option handle) : Trans (option handle) :=
  bb ← required BB;
  st ← get;
  B ← required (blocks st !! bb);
  mret (bb_parent B).

(** The first half of [transOCLBuiltinFromInst(FuncName, BI, BB)], up to
    the callee: the argument types, the return type, the mangled name, and
    the declaration, created when no function of that name is in the module
    or when the function there has another type. *)
Definition transOCLBuiltinFromInstCallee (FuncName : string)
    (BI : SPRVValue) : Trans handle :=
  OpTys ← required (getOperandTypes BI);
  ArgTys0 ← required (transTypeVector OpTys);
  let HasFuncPtrArg := existsb isFunctionTy ArgTys0 in
  let ArgTys := List.map (λ I, if isFunctionTy I
                               then PointerTy I (addrSpaceNumber SPIRAS_Private)
                               else I) ArgTys0 in
  RetTy0 ← match valueType BI with
           | Some BT => required (transType BT)
           | None => mret VoidTy
           end;
  RetTy ← transOCLBuiltinFromInstPreproc BI RetTy0;
  let MangledName := if negb HasFuncPtrArg
                     then mangle SPRVBIS_OpenCL20 FuncName ArgTys
                     else decorateSPRVFunction FuncName in
  Func ← getFunction MangledName;
  let FT := FunctionTy RetTy ArgTys false in
  match Func with
  | Some F =>
      Fo ← theFunction F;
      if bool_decide (fn_type Fo ≠ FT) then declareBuiltin FT MangledName
      else mret F
  | None => declareBuiltin FT MangledName
  end.

(** [SPRVToLLVM::transOCLBuiltinFromInst(FuncName, BI, BB)]. *)
Definition transOCLBuiltinFromInstNamed (FuncName : string) (BI : SPRVValue)
    (BB : option handle) : Trans handle :=
  Func ← transOCLBuiltinFromInstCallee FuncName BI;
  P ← getParent BB;
  Args ← transValueVec (getOperands BI) P BB;
  Call ← CallInst_Create Func (Some <$> Args) "" BB;
  CallInst_setName Call (getName BI);;
  setAttrByCalledFunc Call;;
  transOCLBuiltinFromInstPostproc BI Call BB.

(** [SPRVToLLVM::getOCLConvertBuiltinName].  If the argument is unsigned
    return uconvert*, otherwise return convert*. *)
Definition getOCLConvertBuiltinName (BI : SPRVValue) : Trans string :=
  let OC := getOpCode BI in
  assert (isCvtOpCode OC);;
  T ← required (valueType BI);
  let Name0 := if isCvtFromUnsignedOpCode OC then "u" else "" in
  let Name1 := Name0 +:+ "convert_" in
  let Name2 :=
    Name1 +:+ mapSPRVTypeToOpenCLType T (negb (isCvtToUnsignedOpCode OC)) in
  let Name3 := if isSaturatedConversion BI then Name2 +:+ "_sat" else Name2 in
  mret match dec_fpRoundingMode (getDecorations BI) with
       | Some Rounding =>
           Name3 +:+ "_" +:+ SPIRSPRVFPRoundingModeMap_rmap Rounding
       | None => Name3
       end.

(** Modelled from the spec: the prefix [OCL_BUILTIN_NDRANGE_PREFIX], whose
    definition is not among the sources; the specification names the
    builtin [ndrange_1D]. *)
Definition OCL_BUILTIN_NDRANGE_PREFIX : string := "ndrange_".

(** [SPRVToLLVM::getOCLBuiltinName]. *)
Definition getOCLBuiltinName (BI : SPRVValue) : Trans string :=
  let OC := getOpCode BI in
  if isCvtOpCode OC then getOCLConvertBuiltinName BI
  else if bool_decide (OC = SPRVOC_OpBuildNDRange) then
    Op0 ← required (getOperands BI !! 0%nat);
    EleTy ← required (valueType Op0);
    let Dim := match EleTy with TypeVector _ n => n | _ => 1 end in
    mret (OCL_BUILTIN_NDRANGE_PREFIX +:+ pretty Dim +:+ "D")
  else required (SPIRSPRVBuiltinInstMap_rfind OC).

(** [SPRVToLLVM::transOCLBuiltinFromInst(BI, BB)]. *)
Definition transOCLBuiltinFromInst (BI : SPRVValue) (BB : option handle)
  : Trans handle :=
  assert (bool_decide (is_Some BB));;
  FuncName ← getOCLBuiltinName BI;
  transOCLBuiltinFromInstNamed FuncName BI BB.

(** [Ty->getPointerElementType()]. *)
Definition Ty_getPointerElementType (T : Ty) : option Ty :=
  match T with PointerTy E _ => Some E | _ => None end.

(** The callee of [SPRVToLLVM::transOCLAtomic]: declared when no function
    of the mangled name is in the module. *)
Definition transOCLAtomicCallee (BA : SPRVValue) : Trans handle :=
  FuncName ← required (SPIRSPRVBuiltinInstMap_rfind (getOpCode BA));
  OpTys ← required (getOperandTypes BA);
  ArgTys ← required (transTypeVector OpTys);
  RetTy ← required (ArgTys !! 0%nat ≫= Ty_getPointerElementType);
  let MangledName := mangle SPRVBIS_OpenCL20 FuncName ArgTys in
  Func ← getFunction MangledName;
  match Func with
  | Some F => mret F
  | None => declareBuiltin (FunctionTy RetTy ArgTys false) MangledName
  end.

(** [SPRVToLLVM::transOCLAtomic]. *)
Definition transOCLAtomic (BA : SPRVValue) (BB : option handle)
  : Trans handle :=
  assert (bool_decide (is_Some BB));;
  Func ← transOCLAtomicCallee BA;
  P ← getParent BB;
  Args ← transValueVec (getOperands BA) P BB;
  Call ← CallInst_Create Func (Some <$> Args) "" BB;
  CallInst_setName Call (getName BA);;
  setAttrByCalledFunc Call;;
  mret Call.

(** The callee of [SPRVToLLVM::transOCLBarrierFence]. *)
Definition transOCLBarrierFenceCallee (MB : SPRVValue) : Trans handle :=
  FuncName ← (if bool_decide (getOpCode MB = SPRVOC_OpMemoryBarrier)
              then mret "mem_fence"
              else if bool_decide (getOpCode MB = SPRVOC_OpControlBarrier)
              then mret "barrier"
              else abort);
  let ArgTy := [Int32Ty] in
  let MangledName := mangle SPRVBIS_OpenCL20 FuncName ArgTy in
  Func ← getFunction MangledName;
  match Func with
  | Some F => mret F
  | None => declareBuiltin (FunctionTy VoidTy ArgTy false) MangledName
  end.

(** [SPRVToLLVM::transOCLBarrierFence]. *)
Definition transOCLBarrierFence (MB : SPRVValue) (BB : option handle)
  : Trans handle :=
  assert (bool_decide (is_Some BB));;
  let MemSema := getMemSemantic MB in
  Func ← transOCLBarrierFenceCallee MB;
  let Arg := [Some (ConstantInt Int32Ty (Z.of_N (rmapMemFenceFlags MemSema)))]
  in
  Call ← CallInst_Create Func Arg "" BB;
  CallInst_setName Call (getName MB);;
  setAttrByCalledFunc Call;;
  mret Call.

(** [SPRVToLLVM::transOCLVectorLoadStore]: the [n] of [vloadn] and
    [vstoren] becomes the vector width, the [_r] the rounding mode; both
    are taken from the end of the argument words. *)
Definition pop_back {A} (l : list A) : list A := removelast l.

Definition transOCLVectorLoadStore (UnmangledName : string) (BArgs : list N)
  : Trans (string * list N) :=
  if bool_decide (str_find "vload" UnmangledName = Some 0%nat) &&
     bool_decide (is_Some (str_find "n" UnmangledName)) then
    pos ← required (str_find "n" UnmangledName);
    back ← required (last BArgs);
    mret (if negb (back =? 1)
          then str_replace pos 1 (pretty back) UnmangledName
          else str_erase pos 1 UnmangledName, pop_back BArgs)
  else if bool_decide (str_find "vstore" UnmangledName = Some 0%nat) then
    Name1 ← match str_find "n" UnmangledName with
            | Some pos =>
                id0 ← required (BArgs !! 0%nat);
                T ← required (getValue BM id0 ≫= valueType);
                mret match T with
                     | TypeVector _ W => str_replace pos 1 (pretty W)
                                           UnmangledName
                     | _ => str_erase pos 1 UnmangledName
                     end
            | None => mret UnmangledName
            end;
    match str_find "_r" Name1 with
    | Some pos =>
        back ← required (last BArgs);
        R ← required (roundingOfWord back);
        mret (str_replace pos 2 ("_" +:+ SPIRSPRVFPRoundingModeMap_rmap R)
                Name1, pop_back BArgs)
    | None => mret (Name1, BArgs)
    end
  else mret (UnmangledName, BArgs).

(** The callee of [SPRVToLLVM::transOCLBuiltinFromExtInst], with the
    argument words left after the rewriting of the name.  printf is not
    mangled, and its function type has just one argument; for read_image*
    the second argument is mangled as sampler. *)
Definition transOCLBuiltinFromExtInstCallee (BC : SPRVExtInst)
  : Trans (handle * list N) :=
  let EntryPoint := getEntryPoint BC in
  let Set_ := getBuiltinSet BC in
  let known := match Set_ with SPRVBIS_Count => false | _ => true end in
  let IsPrintf := known && (EntryPoint =? OCL_Printf Set_) in
  Unmangled0 ← (if known && negb IsPrintf
                then required (OCLExtMap Set_ EntryPoint)
                else mret "");
  '(UnmangledName, BArgs) ←
    transOCLVectorLoadStore Unmangled0 (getArgumentWords BC);
  ArgVals ← required (mapM (getValue BM) BArgs);
  ArgBTys ← required (mapM valueType ArgVals);
  ArgTypes0 ← required (transTypeVector ArgBTys);
  '(MangledName, IsVarArg, ArgTypes) ←
    (if IsPrintf then
       assert (bool_decide (ArgTypes0 ≠ []));;
       mret ("printf", true, take 1 ArgTypes0)
     else if bool_decide (str_find "read_image" UnmangledName = Some 0%nat)
     then
       assert (bool_decide (2 ≤ length ArgTypes0)%nat);;
       let ModifiedArgTypes :=
         <[1%nat := getOrCreateOpaquePtrType "opencl.sampler_t"]> ArgTypes0 in
       mret (mangle Set_ UnmangledName ModifiedArgTypes, false, ArgTypes0)
     else mret (mangle Set_ UnmangledName ArgTypes0, false, ArgTypes0));
  BT ← required (valueType (ext_value BC));
  RetTy ← required (transType BT);
  let FT := FunctionTy RetTy ArgTypes IsVarArg in
  F ← getFunction MangledName;
  F' ← match F with
       | Some F => mret F
       | None => declareBuiltin FT MangledName
       end;
  mret (F', BArgs).

(** [SPRVToLLVM::transOCLBuiltinFromExtInst]. *)
Definition transOCLBuiltinFromExtInst (BC : SPRVExtInst) (BB : option handle)
  : Trans handle :=
  assert (bool_decide (is_Some BB));;
  '(F, BArgs) ← transOCLBuiltinFromExtInstCallee BC;
  ArgVals ← required (mapM (getValue BM) BArgs);
  Args ← transValueVec ArgVals (Some F) BB;
  Call ← CallInst_Create F (Some <$> Args) (getName (ext_value BC)) BB;
  setCallingConv Call;;
  addFnAttr Call NoUnwind;;
  mret Call.

(** *** The dispatcher *)

(** The [OpCopyMemorySized] case of [transValueWithoutDecoration]. *)
Definition transCopyMemorySized (BV : SPRVValue) (BB : option handle)
  : Trans Value :=
  assert (bool_decide (is_Some BB));;
  let FuncName := "llvm.memcpy" in
  Target ← required (getOperands BV !! 0%nat);
  Source ← required (getOperands BV !! 1%nat);
  Size ← required (getOperands BV !! 2%nat);
  BS ← required (valueType Source);
  BT ← required (valueType Target);
  SrcTy ← required (transType BS);
  TrgTy ← required (transType BT);
  SizeBT ← required (valueType Size);
  SizeTy ← required (transType SizeBT);
  let ArgTy := [TrgTy; SrcTy; SizeTy; Int32Ty; Int1Ty] in
  TrgSC ← required (getPointerStorageClass BT);
  let FuncName := if bool_decide (TrgSC = SPRVSC_Private)
                  then FuncName +:+ ".p0i8" else FuncName +:+ ".p1i8" in
  SrcSC ← required (getPointerStorageClass BS);
  let FuncName := if bool_decide (SrcSC = SPRVSC_Private)
                  then FuncName +:+ ".p0i8" else FuncName +:+ ".p1i8" in
  Width ← required (getBitWidth SizeBT);
  let FuncName := if Width =? 32
                  then FuncName +:+ ".i32" else FuncName +:+ ".i64" in
  let FT := FunctionTy VoidTy ArgTy false in
  Func ← Function_Create FT ExternalLinkage FuncName;
  (if isFuncNoUnwind then Function_addFnAttr Func NoUnwind else mret tt);;
  A0 ← transValue Target (Some Func) BB true;
  A1 ← transValue Source (Some Func) BB true;
  A2 ← transValue Size (Some Func) BB true;
  let Arg := [ Some A0; Some A1; dyn_cast_ConstantInt A2;
               Some (ConstantInt Int32Ty
                       (Z.of_N (dec_alignment (getDecorations BV))));
               Some (ConstantInt Int1Ty
                       (if dec_isVolatile (getDecorations BV) then 1 else 0)%Z)
             ] in
  Call ← CallInst_Create Func Arg "" BB;
  mapValue BV (InstructionV Call).

(** Creation of place holder. *)
Definition createPlaceholder (BV : SPRVValue) (BB : option handle)
  : Trans Value :=
  BT ← required (valueType BV);
  LT ← required (transType BT);
  GV ← new_GlobalVariable LT false PrivateLinkage None
          (kPlaceholderPrefix +:+ getName BV) 0;
  LD ← insertAtEnd (LoadInst (Some (GlobalVariableV GV)) (getName BV)
                      false 0) BB;
  modify (set_PlaceholderMap <[getId BV := LD]>);;
  mapValue BV (InstructionV LD).

(** [SPRVToLLVM::isSPRVCmpInstTransToLLVMInst]. *)
Definition isSPRVCmpInstTransToLLVMInst (BI : SPRVValue) : bool :=
  let OC := getOpCode BI in
  isCmpOpCode OC && negb (isLessOrGreaterToUnordered OC).

(** The [default] case of the switch on instructions. *)
Definition transOtherInstruction (BV : SPRVValue) (F BB : option handle)
  : Trans Value :=
  if isAtomic BV then
    I ← transOCLAtomic BV BB; mapValue BV (InstructionV I)
  else if isSPRVCmpInstTransToLLVMInst BV then
    V ← transCmpInst BV BB F; mapValue BV V
  else if bool_decide (is_Some (SPIRSPRVBuiltinInstMap_rfind (getOpCode BV)))
  then
    I ← transOCLBuiltinFromInst BV BB; mapValue BV (InstructionV I)
  else if isBinaryShiftLogicalBitwiseOpCode (getOpCode BV) then
    V ← transShiftLogicalBitwiseInst BV BB F; mapValue BV V
  else if isCvtOpCode (getOpCode BV) then
    Inst ← (if hasFPRoundingMode BV || isSaturatedConversion BV
            then I ← transOCLBuiltinFromInst BV BB; mret (InstructionV I)
            else transConvertInst BV F BB);
    mapValue BV Inst
  else abort.

(** The extended instruction a value of op code [OpExtInst] is. *)
Variable asExtInst : SPRVValue → option SPRVExtInst.

(** [SPRVToLLVM::transValueWithoutDecoration]: the non-instruction values
    first, then the placeholder when one is asked for, then the
    instructions. *)
Definition transValueWithoutDecoration (BV : SPRVValue) (F BB : option handle)
    (CreatePlaceHolder : bool) : Trans Value :=
  match getOpCode BV with
  | SPRVOC_OpConstant | SPRVOC_OpConstantTrue | SPRVOC_OpConstantFalse
  | SPRVOC_OpConstantNull | SPRVOC_OpConstantComposite
  | SPRVOC_OpConstantSampler | SPRVOC_OpUndef | SPRVOC_OpVariable
  | SPRVOC_OpVariableArray | SPRVOC_OpFunctionParameter | SPRVOC_OpFunction
  | SPRVOC_OpLabel => transNonInstructionValue BV F BB
  | OC =>
      if CreatePlaceHolder then createPlaceholder BV BB
      else
        match OC with
        | SPRVOC_OpCopyMemorySized => transCopyMemorySized BV BB
        | SPRVOC_OpExtInst =>
            BC ← required (asExtInst BV);
            I ← transOCLBuiltinFromExtInst BC BB;
            mapValue BV (InstructionV I)
        | SPRVOC_OpControlBarrier | SPRVOC_OpMemoryBarrier =>
            I ← transOCLBarrierFence BV BB;
            mapValue BV (InstructionV I)
        | SPRVOC_OpBranch | SPRVOC_OpBranchConditional | SPRVOC_OpPhi
        | SPRVOC_OpReturn | SPRVOC_OpReturnValue | SPRVOC_OpStore
        | SPRVOC_OpLoad | SPRVOC_OpSelect | SPRVOC_OpSwitch
        | SPRVOC_OpAccessChain | SPRVOC_OpInBoundsAccessChain
        | SPRVOC_OpCompositeExtract | SPRVOC_OpVectorExtractDynamic
        | SPRVOC_OpCompositeInsert | SPRVOC_OpVectorInsertDynamic
        | SPRVOC_OpVectorShuffle | SPRVOC_OpFunctionCall
        | SPRVOC_OpSNegate | SPRVOC_OpFNegate | SPRVOC_OpNot =>
            transDirectInstruction BV F BB
        | _ => transOtherInstruction BV F BB
        end
  end.

(** *** The whole translation *)

(** Modelled from the spec: the macro [SPRVCKRT(Condition, ErrCode, ErrMsg)]
    and the error log behind it, which are not among the sources.  A failed
    check is fatal to the run and surfaces a single error string via the
    error log of the module: the code and the message are recorded, and the
    enclosing function returns false. *)
Definition checkError (Cond : bool) (Code : SPRVErrorCode) (Msg : string)
  : Trans bool :=
  if Cond then mret true
  else modify (set_ErrorLog (λ _, mkErrorLog Code Msg));; mret false.

Definition Module_setTargetTriple (T : string) : Trans unit :=
  modify (set_M (λ m, mkModule (mod_functions m) (mod_globals m) T
                        (mod_dataLayout m))).
Definition Module_setDataLayout (L : string) : Trans unit :=
  modify (set_M (λ m, mkModule (mod_functions m) (mod_globals m)
                        (mod_targetTriple m) L)).

(** The message of the invalid addressing model: the sum of the string
    literal and the number is pointer arithmetic, the literal from that
    offset on. *)
Definition invalidAddressingModelMsg (w : N) : string :=
  let lit := "Actual addressing mode is " in
  String.substring (N.to_nat w) (String.length lit - N.to_nat w) lit.

(** [SPRVToLLVM::transAddressingModel]. *)
Definition transAddressingModel : Trans bool :=
  match getAddressingModel BM with
  | SPRVAM_Physical64 =>
      Module_setTargetTriple SPIR_TARGETTRIPLE64;;
      Module_setDataLayout SPIR_DATALAYOUT64;;
      mret true
  | SPRVAM_Physical32 =>
      Module_setTargetTriple SPIR_TARGETTRIPLE32;;
      Module_setDataLayout SPIR_DATALAYOUT32;;
      mret true
  | SPRVAM_Logical =>
      (* Do not set target triple and data layout *)
      mret true
  | SPRVAM_Other w =>
      ok ← checkError false SPRVEC_InvalidAddressingModel
             (invalidAddressingModelMsg w);
      if negb ok then mret false else mret true
  end.

(** The passes after the functions, which no property below is about. *)
Variable transKernelMetadata : Trans bool.
Variable transFPContractMetadata : Trans bool.
Variable transSourceLanguage : Trans bool.
Variable transSourceExtension : Trans bool.
Variable transCompilerOption : Trans bool.
Variable transOCLBuiltinsFromVariables : Trans bool.
Variable postProcessOCL : Trans bool.

(** [if (!pass()) return false;] *)
Definition orReturnFalse (pass : Trans bool) (rest : Trans bool)
  : Trans bool :=
  ok ← pass; if negb ok then mret false else rest.

(** [SPRVToLLVM::translate]. *)
Definition translate : Trans bool :=
  orReturnFalse transAddressingModel (
    mapT (λ '(BV, SC),
            if bool_decide (SC ≠ SPRVSC_Function)
            then transValue BV None None true;; mret tt
            else mret tt) (getVariables BM);;
    mapT transFunction (getFunctions BM);;
    orReturnFalse transKernelMetadata (
    orReturnFalse transFPContractMetadata (
    orReturnFalse transSourceLanguage (
    orReturnFalse transSourceExtension (
    orReturnFalse transCompilerOption (
    orReturnFalse transOCLBuiltinsFromVariables (
    orReturnFalse postProcessOCL (
    mret true)))))))).

(** *** The entry point *)

(** The files of the host: their contents, and whether a file can be opened
    for writing. *)
Record FileSystem := mkFileSystem {
  files : gmap string string;
  canOpen : string → bool
}.

(** [raw_fd_ostream FS(FName, EC, sys::fs::F_None)]: the file is created or
    truncated; when it cannot be opened, [EC] is set and the stream has no
    descriptor. *)
Definition raw_fd_ostream (FName : string) (fs : FileSystem)
  : option string * bool * FileSystem :=
  if canOpen fs FName
  then (Some FName, false, mkFileSystem (<[FName := ""]> (files fs)) (canOpen fs))
  else (None, true, fs).

(** [FS << text]: appended to the file of the descriptor; without a
    descriptor nothing reaches a file. *)
Definition stream_write (FD : option string) (text : string)
    (fs : FileSystem) : FileSystem :=
  match FD with
  | Some FName =>
      mkFileSystem (<[FName := default "" (files fs !! FName) +:+ text]>
                      (files fs)) (canOpen fs)
  | None => fs
  end.

(** [FS.close()]: the descriptor is closed.  A stream that has no
    descriptor to close stops the program (the assertion of [close]; without
    assertions the write or the close fails, and the destructor of the
    stream ends the program with [report_fatal_error]): the run has no
    result. *)
Definition stream_close (FD : option string) (fs : FileSystem)
  : option FileSystem :=
  match FD with
  | Some _ => Some fs
  | None => None
  end.

(** [dumpLLVM]: the module is printed and the stream closed when [EC] is
    set; otherwise the destructor of the stream closes the file as it is.
    No result where the program is stopped. *)
Definition dumpLLVM (Mod : SPRVToLLVM) (FName : string) (fs : FileSystem)
  : option FileSystem :=
  let '(Stream, EC, fs1) := raw_fd_ostream FName fs in
  if (EC : bool)
  then stream_close Stream (stream_write Stream (printModule Mod) fs1)
  else Some fs1.

Definition DbgTmpLLVMFileName : string := "_tmp_llvmbil.ll".

(** Modelled from the spec: [SPRVModule::getError], which is not among the
    sources: the error string of the error log of the module. *)
Definition getError (st : SPRVToLLVM) : string := ErrorMsg (ErrorLog st).

(** What [llvm::ReadSPRV] leaves behind: its result, the out-parameters [M]
    and [ErrMsg], the module objects that are allocated (by address), and
    the files. *)
Record ReadSPRVResult := mkReadSPRVResult {
  Succeed : bool;
  out_M : option handle;
  out_ErrMsg : string;
  liveModules : gmap handle SPRVToLLVM;
  out_files : FileSystem
}.

(** [llvm::ReadSPRV].  The stream has been read into [BM], with the error
    log [log]; [DbgSaveTmpLLVM] is the file-level flag, which is true and
    assigned nowhere; [ErrMsg] and [heap] are the string of the caller and
    the module objects allocated before the call.  The run has no result
    where the translator aborts or [dumpLLVM] stops the program. *)
Definition ReadSPRV (DbgSaveTmpLLVM : bool) (log : SPRVErrorLog)
    (ErrMsg : string) (heap : gmap handle SPRVToLLVM) (fs : FileSystem)
  : option ReadSPRVResult :=
  let Mh := fresh (dom heap) in
  '(ok, BTL) ← translate (initial log);
  let ErrMsg' := if negb ok then getError BTL else ErrMsg in
  let Succeed := ok in
  let heap1 := <[Mh := BTL]> heap in
  fs' ← (if DbgSaveTmpLLVM then dumpLLVM BTL DbgTmpLLVMFileName fs
         else Some fs);
  Some (if negb Succeed
        then mkReadSPRVResult Succeed None ErrMsg' (delete Mh heap1) fs'
        else mkReadSPRVResult Succeed (Some Mh) ErrMsg' heap1 fs').

End Reader.

(** ** The utilities ([SPIRVUtil.h]) *)

Module Util.

(** *** The two-way map *)

Section SPIRVMap.
Context {Ty1 Ty2 : Type} `{Countable Ty1, Countable Ty2}.

(** [template<class Ty1, class Ty2, class Identifier> struct SPIRVMap]: the
    forward map or the reverse map is filled, by the flag given to the
    constructor. *)
Record SPIRVMap := mkSPIRVMap {
  Map : gmap Ty1 Ty2;
  RevMap : gmap Ty2 Ty1;
  IsReverse : bool
}.

Definition add (V1 : Ty1) (V2 : Ty2) (m : SPIRVMap) : SPIRVMap :=
  if IsReverse m
  then mkSPIRVMap (Map m) (<[V2 := V1]> (RevMap m)) (IsReverse m)
  else mkSPIRVMap (<[V1 := V2]> (Map m)) (RevMap m) (IsReverse m).

(** [init()] is defined per specialisation, as a sequence of calls of
    [add]: the pairs of these calls, in their order. *)
Variable entries : list (Ty1 * Ty2).

Definition init (m : SPIRVMap) : SPIRVMap :=
  foldl (λ m '(V1, V2), add V1 V2 m) m entries.

(** [SPIRVMap(bool Reverse)], and the two static objects. *)
Definition construct (Reverse : bool) : SPIRVMap :=
  init (mkSPIRVMap ∅ ∅ Reverse).
Definition getMap : SPIRVMap := construct false.
Definition getRMap : SPIRVMap := construct true.

(** [find] and [rfind]: the result is the value written through the
    pointer, when the key is found. *)
Definition find (Key : Ty1) : option Ty2 := Map getMap !! Key.
Definition rfind (Key : Ty2) : option Ty1 := RevMap getRMap !! Key.

(** [map] and [rmap] assert that the key is found. *)
Definition map (Key : Ty1) : option Ty2 := find Key.
Definition rmap (Key : Ty2) : option Ty1 := rfind Key.

(** [foreach]: the function is applied to the pairs of the forward map.
    [std::map] visits them by increasing key; the accumulations below do not
    depend on the order. *)
Definition foreach {S} (F : Ty1 → Ty2 → S → S) (s : S) : S :=
  foldl (λ s '(K, V), F K V s) s (map_to_list (Map getMap)).

(** [mapBitMask] and [rmapBitMask], with the casts of keys and values to
    [unsigned]. *)
Variable unsigned1 : Ty1 → N.
Variable unsigned2 : Ty2 → N.

Definition mapBitMask (BM : N) : N :=
  foreach (λ K V Res,
             N.lor Res (if negb (N.land BM (unsigned1 K) =? 0)
                        then unsigned2 V else 0)) 0.

Definition rmapBitMask (BM : N) : N :=
  foreach (λ K V Res,
             N.lor Res (if negb (N.land BM (unsigned2 V) =? 0)
                        then unsigned1 K else 0)) 0.

End SPIRVMap.

Arguments SPIRVMap Ty1 Ty2 {_ _ _ _}.

(** *** Strings *)

(** [std::getline(SS, Item, Delim)] on what is left of the stream: the
    characters up to the delimiter, which is extracted and dropped, or up to
    the end of the stream. *)
Fixpoint getline_extract (SS : string) (Delim : ascii) : string * string :=
  match SS with
  | "" => ("", "")
  | String c SS' =>
      if Ascii.eqb c Delim then ("", SS')
      else let '(Item, Rest) := getline_extract SS' Delim in
           (String c Item, Rest)
  end.

(** The stream is good as long as a character was extracted. *)
Definition getline (SS : string) (Delim : ascii) : option (string * string) :=
  match SS with
  | "" => None
  | _ => Some (getline_extract SS Delim)
  end.

(** [while (std::getline(SS, Item, Delim)) Strs.push_back(Item);] *)
Fixpoint getVec_loop (fuel : nat) (SS : string) (Delim : ascii)
    (Strs : list string) : list string :=
  match fuel with
  | O => Strs
  | S fuel' =>
      match getline SS Delim with
      | Some (Item, SS') => getVec_loop fuel' SS' Delim (Strs ++ [Item])
      | None => Strs
      end
  end.

(** [getVec(S, Delim)]: every turn of the loop extracts a character, so
    that the length of the string bounds the turns. *)
Definition getVec (S : string) (Delim : ascii) : list string :=
  getVec_loop (String.length S) S Delim [].

(** [getStr(C, Delim)] on a container of strings. *)
Definition getStr (C : list string) (Delim : ascii) : string :=
  snd (foldl (λ '(First, SS) I,
                if (First : bool) then (false, SS +:+ I)
                else (First, SS +:+ String Delim "" +:+ I))
         (true, "") C).

(** [concat(S1, S2, Delim)]. *)
Definition concat (S1 S2 : string) (Delim : ascii) : string :=
  if bool_decide (S1 = "") then S2
  else if negb (bool_decide (S2 = "")) then S1 +:+ String Delim "" +:+ S2
  else "".

(** [getSizeInWords]: the number of words used for encoding a string
    literal in SPIR-V. *)
Definition UINT_MAX : N := 4294967295.

Definition getSizeInWords (Str : string) : option N :=
  let n := N.of_nat (String.length Str) / 4 + 1 in
  if n <=? UINT_MAX then Some (n mod 2 ^ 32) else None.

(** [getOrInsert(Map, Key, Func)]. *)
Definition getOrInsert `{Countable K} {V} (Map : gmap K V) (Key : K)
    (Func : unit → V) : V * gmap K V :=
  match Map !! Key with
  | Some v => (v, Map)
  | None => let NF := Func tt in (NF, <[Key := NF]> Map)
  end.

End Util.

(** ** The internal header ([SPIRVInternal.h]) *)

Module Internal.

(** The LLVM op codes and the SPIR-V op codes that [OpCodeMap] names. *)
Inductive Opcode :=
| Instruction_ZExt | Instruction_SExt | Instruction_Trunc
| Instruction_FPToUI | Instruction_FPToSI | Instruction_UIToFP
| Instruction_SIToFP | Instruction_FPTrunc | Instruction_FPExt
| Instruction_PtrToInt | Instruction_IntToPtr | Instruction_BitCast
| Instruction_AddrSpaceCast | Instruction_GetElementPtr
| Instruction_And | Instruction_Or | Instruction_Xor
| Instruction_Add | Instruction_FAdd | Instruction_Sub | Instruction_FSub
| Instruction_Mul | Instruction_FMul | Instruction_UDiv | Instruction_SDiv
| Instruction_FDiv | Instruction_SRem | Instruction_FRem | Instruction_URem
| Instruction_Shl | Instruction_LShr | Instruction_AShr.

Inductive Op :=
| OpUConvert | OpSConvert | OpConvertFToU | OpConvertFToS | OpConvertUToF
| OpConvertSToF | OpFConvert | OpConvertPtrToU | OpConvertUToPtr | OpBitcast
| OpGenericCastToPtr | OpAccessChain
| OpBitwiseAnd | OpBitwiseOr | OpBitwiseXor
| OpIAdd | OpFAdd | OpISub | OpFSub | OpIMul | OpFMul | OpUDiv | OpSDiv
| OpFDiv | OpSRem | OpFRem | OpUMod
| OpShiftLeftLogical | OpShiftRightLogical | OpShiftRightArithmetic.

#[global] Instance Opcode_eq : EqDecision Opcode.
Proof. solve_decision. Defined.
#[global] Instance Op_eq : EqDecision Op.
Proof. solve_decision. Defined.

Definition allOpcodes : list Opcode :=
  [ Instruction_ZExt; Instruction_SExt; Instruction_Trunc;
    Instruction_FPToUI; Instruction_FPToSI; Instruction_UIToFP;
    Instruction_SIToFP; Instruction_FPTrunc; Instruction_FPExt;
    Instruction_PtrToInt; Instruction_IntToPtr; Instruction_BitCast;
    Instruction_AddrSpaceCast; Instruction_GetElementPtr;
    Instruction_And; Instruction_Or; Instruction_Xor;
    Instruction_Add; Instruction_FAdd; Instruction_Sub; Instruction_FSub;
    Instruction_Mul; Instruction_FMul; Instruction_UDiv; Instruction_SDiv;
    Instruction_FDiv; Instruction_SRem; Instruction_FRem; Instruction_URem;
    Instruction_Shl; Instruction_LShr; Instruction_AShr ].

Definition allOps : list Op :=
  [ OpUConvert; OpSConvert; OpConvertFToU; OpConvertFToS; OpConvertUToF;
    OpConvertSToF; OpFConvert; OpConvertPtrToU; OpConvertUToPtr; OpBitcast;
    OpGenericCastToPtr; OpAccessChain;
    OpBitwiseAnd; OpBitwiseOr; OpBitwiseXor;
    OpIAdd; OpFAdd; OpISub; OpFSub; OpIMul; OpFMul; OpUDiv; OpSDiv;
    OpFDiv; OpSRem; OpFRem; OpUMod;
    OpShiftLeftLogical; OpShiftRightLogical; OpShiftRightArithmetic ].

(** The op codes are numbers; any numbering that tells them apart orders
    the [std::map]. *)
Definition numberIn {A} `{EqDecision A} (all : list A) (x : A) : nat :=
  default 0%nat (fst <$> list_find (x =.) all).

#[global] Instance Opcode_countable : Countable Opcode.
Proof.
  refine (inj_countable' (numberIn allOpcodes)
            (λ n, default Instruction_ZExt (allOpcodes !! n)) _).
  intros []; reflexivity.
Defined.

#[global] Instance Op_countable : Countable Op.
Proof.
  refine (inj_countable' (numberIn allOps)
            (λ n, default OpUConvert (allOps !! n)) _).
  intros []; reflexivity.
Defined.

(** [SPIRVMap<unsigned, Op>::init()], the table [OpCodeMap]. *)
Definition OpCodeMap : list (Opcode * Op) :=
  [ (* Casts *)
    (Instruction_ZExt, OpUConvert);
    (Instruction_SExt, OpSConvert);
    (Instruction_Trunc, OpUConvert);
    (Instruction_FPToUI, OpConvertFToU);
    (Instruction_FPToSI, OpConvertFToS);
    (Instruction_UIToFP, OpConvertUToF);
    (Instruction_SIToFP, OpConvertSToF);
    (Instruction_FPTrunc, OpFConvert);
    (Instruction_FPExt, OpFConvert);
    (Instruction_PtrToInt, OpConvertPtrToU);
    (Instruction_IntToPtr, OpConvertUToPtr);
    (Instruction_BitCast, OpBitcast);
    (Instruction_AddrSpaceCast, OpGenericCastToPtr);
    (Instruction_GetElementPtr, OpAccessChain);
    (* Binary *)
    (Instruction_And, OpBitwiseAnd);
    (Instruction_Or, OpBitwiseOr);
    (Instruction_Xor, OpBitwiseXor);
    (Instruction_Add, OpIAdd);
    (Instruction_FAdd, OpFAdd);
    (Instruction_Sub, OpISub);
    (Instruction_FSub, OpFSub);
    (Instruction_Mul, OpIMul);
    (Instruction_FMul, OpFMul);
    (Instruction_UDiv, OpUDiv);
    (Instruction_SDiv, OpSDiv);
    (Instruction_FDiv, OpFDiv);
    (Instruction_SRem, OpSRem);
    (Instruction_FRem, OpFRem);
    (Instruction_URem, OpUMod);
    (Instruction_Shl, OpShiftLeftLogical);
    (Instruction_LShr, OpShiftRightLogical);
    (Instruction_AShr, OpShiftRightArithmetic) ].

(** [move(V, begin, end, target)]: move elements of [std::vector] from
    [begin, end) to [target]. *)
Definition move {T} (V : list T) (begin end_ target : nat)
  : option (list T) :=
  if negb ((begin <? end_)%nat && (end_ <=? length V)%nat &&
           (target <=? length V)%nat &&
           negb ((begin <? target)%nat && (target <? end_)%nat))
  then None
  else if ((begin <=? target)%nat && (target <=? end_)%nat) then Some V
  else
    let target := if (length V <? target)%nat then length V else target in
    let target := if (end_ <? target)%nat
                  then (target - (end_ - begin))%nat else target in
    let Segment := take (end_ - begin) (drop begin V) in
    let V := take begin V ++ drop end_ V in
    Some (take target V ++ Segment ++ drop target V).

(** *** Information for mangling builtin functions *)

Section Mangle.
(** [SPIR::TypePrimitiveEnum] of the mangler, with [SPIR::PRIMITIVE_NONE]. *)
Variable TypePrimitiveEnum : Type.
Variable PRIMITIVE_NONE : TypePrimitiveEnum.

Record BuiltinArgTypeMangleInfo := mkBuiltinArgTypeMangleInfo {
  IsSigned : bool;
  IsVoidPtr : bool;
  IsEnum : bool;
  IsSampler : bool;
  IsAtomic : bool;
  IsLocalArgBlock : bool;
  Enum : TypePrimitiveEnum;
  Attr : N
}.

Record BuiltinFuncMangleInfo := mkBuiltinFuncMangleInfo {
  UnmangledName : string;
  UnsignedArgs : gset Z; (* unsigned arguments, or -1 if all are unsigned *)
  VoidPtrArgs : gset Z;  (* void pointer arguments, or -1 if all are void
                            pointer *)
  SamplerArgs : gset Z;  (* sampler arguments *)
  AtomicArgs : gset Z;   (* atomic arguments *)
  EnumArgs : gmap Z TypePrimitiveEnum; (* enum arguments *)
  Attrs : gmap Z N;                    (* argument attributes *)
  LocalArgBlockIdx : Z; (* index of a block with local arguments, idx < 0 if
                           none *)
  VarArgIdx : Z         (* index of ellipsis argument, idx < 0 if none *)
}.

(** The constructor, with [init]. *)
Definition BuiltinFuncMangleInfo_new (UniqName : string)
  : BuiltinFuncMangleInfo :=
  let Info := mkBuiltinFuncMangleInfo "" ∅ ∅ ∅ ∅ ∅ ∅ (-1) (-1) in
  if negb (bool_decide (UniqName = ""))
  then mkBuiltinFuncMangleInfo UniqName (UnsignedArgs Info) (VoidPtrArgs Info)
         (SamplerArgs Info) (AtomicArgs Info) (EnumArgs Info) (Attrs Info)
         (LocalArgBlockIdx Info) (VarArgIdx Info)
  else Info.

Definition addUnsignedArg (Ndx : Z) (I : BuiltinFuncMangleInfo) :=
  mkBuiltinFuncMangleInfo (UnmangledName I) ({[Ndx]} ∪ UnsignedArgs I)
    (VoidPtrArgs I) (SamplerArgs I) (AtomicArgs I) (EnumArgs I) (Attrs I)
    (LocalArgBlockIdx I) (VarArgIdx I).
Definition addVoidPtrArg (Ndx : Z) (I : BuiltinFuncMangleInfo) :=
  mkBuiltinFuncMangleInfo (UnmangledName I) (UnsignedArgs I)
    ({[Ndx]} ∪ VoidPtrArgs I) (SamplerArgs I) (AtomicArgs I) (EnumArgs I)
    (Attrs I) (LocalArgBlockIdx I) (VarArgIdx I).
Definition addSamplerArg (Ndx : Z) (I : BuiltinFuncMangleInfo) :=
  mkBuiltinFuncMangleInfo (UnmangledName I) (UnsignedArgs I) (VoidPtrArgs I)
    ({[Ndx]} ∪ SamplerArgs I) (AtomicArgs I) (EnumArgs I) (Attrs I)
    (LocalArgBlockIdx I) (VarArgIdx I).
Definition addAtomicArg (Ndx : Z) (I : BuiltinFuncMangleInfo) :=
  mkBuiltinFuncMangleInfo (UnmangledName I) (UnsignedArgs I) (VoidPtrArgs I)
    (SamplerArgs I) ({[Ndx]} ∪ AtomicArgs I) (EnumArgs I) (Attrs I)
    (LocalArgBlockIdx I) (VarArgIdx I).
(** It is not allowed to set less than zero index. *)
Definition setLocalArgBlock (Ndx : Z) (I : BuiltinFuncMangleInfo)
  : option BuiltinFuncMangleInfo :=
  if (0 <=? Ndx)%Z
  then Some (mkBuiltinFuncMangleInfo (UnmangledName I) (UnsignedArgs I)
               (VoidPtrArgs I) (SamplerArgs I) (AtomicArgs I) (EnumArgs I)
               (Attrs I) Ndx (VarArgIdx I))
  else None.
Definition setEnumArg (Ndx : Z) (E : TypePrimitiveEnum)
    (I : BuiltinFuncMangleInfo) :=
  mkBuiltinFuncMangleInfo (UnmangledName I) (UnsignedArgs I) (VoidPtrArgs I)
    (SamplerArgs I) (AtomicArgs I) (<[Ndx := E]> (EnumArgs I)) (Attrs I)
    (LocalArgBlockIdx I) (VarArgIdx I).
Definition setArgAttr (Ndx : Z) (A : N) (I : BuiltinFuncMangleInfo) :=
  mkBuiltinFuncMangleInfo (UnmangledName I) (UnsignedArgs I) (VoidPtrArgs I)
    (SamplerArgs I) (AtomicArgs I) (EnumArgs I) (<[Ndx := A]> (Attrs I))
    (LocalArgBlockIdx I) (VarArgIdx I).
Definition setVarArg (Ndx : Z) (I : BuiltinFuncMangleInfo)
  : option BuiltinFuncMangleInfo :=
  if (0 <=? Ndx)%Z
  then Some (mkBuiltinFuncMangleInfo (UnmangledName I) (UnsignedArgs I)
               (VoidPtrArgs I) (SamplerArgs I) (AtomicArgs I) (EnumArgs I)
               (Attrs I) (LocalArgBlockIdx I) Ndx)
  else None.

Definition isArgUnsigned (I : BuiltinFuncMangleInfo) (Ndx : Z) : bool :=
  bool_decide ((-1)%Z ∈ UnsignedArgs I) || bool_decide (Ndx ∈ UnsignedArgs I).
Definition isArgVoidPtr (I : BuiltinFuncMangleInfo) (Ndx : Z) : bool :=
  bool_decide ((-1)%Z ∈ VoidPtrArgs I) || bool_decide (Ndx ∈ VoidPtrArgs I).
Definition isArgSampler (I : BuiltinFuncMangleInfo) (Ndx : Z) : bool :=
  bool_decide (Ndx ∈ SamplerArgs I).
Definition isArgAtomic (I : BuiltinFuncMangleInfo) (Ndx : Z) : bool :=
  bool_decide (Ndx ∈ AtomicArgs I).
Definition isLocalArgBlock (I : BuiltinFuncMangleInfo) (Ndx : Z) : bool :=
  bool_decide (LocalArgBlockIdx I = Ndx).
(** [isArgEnum(Ndx, Enum)]: the enum is the value written through the
    pointer. *)
Definition isArgEnum (I : BuiltinFuncMangleInfo) (Ndx : Z)
  : option TypePrimitiveEnum :=
  match EnumArgs I !! Ndx with
  | Some E => Some E
  | None => EnumArgs I !! (-1)%Z
  end.
Definition getArgAttr (I : BuiltinFuncMangleInfo) (Ndx : Z) : N :=
  match Attrs I !! Ndx with
  | Some A => A
  | None => match Attrs I !! (-1)%Z with
            | Some A => A
            | None => 0
            end
  end.
Definition getVarArg (I : BuiltinFuncMangleInfo) : Z := VarArgIdx I.

Definition getTypeMangleInfo (I : BuiltinFuncMangleInfo) (Ndx : Z)
  : BuiltinArgTypeMangleInfo :=
  mkBuiltinArgTypeMangleInfo
    (negb (isArgUnsigned I Ndx))
    (isArgVoidPtr I Ndx)
    (bool_decide (is_Some (isArgEnum I Ndx)))
    (isArgSampler I Ndx)
    (isArgAtomic I Ndx)
    (isLocalArgBlock I Ndx)
    (default PRIMITIVE_NONE (isArgEnum I Ndx))
    (getArgAttr I Ndx).

End Mangle.

End Internal.

(** ** Names and literals for the OpenCL metadata *)

Section Names.
Context `{Externals}.

(** [SPRVToLLVM::oclTransConstantSampler]: the addressing mode, the
    normalized flag and the filter mode are words of 32 bits, and so is the
    literal. *)
Definition oclTransConstantSampler (AddrMode Normalized FilterMode : N)
  : Value :=
  let Lit :=
    N.lor (N.lor (N.shiftl AddrMode 1 mod 2 ^ 32) Normalized)
      (N.shiftl ((FilterMode + 1) mod 2 ^ 32) 4 mod 2 ^ 32) in
  ConstantInt Int32Ty (Z.of_N Lit).

(** [Name[Pos] = ' '] *)
Definition setSpace (Pos : nat) (Name : string) : string :=
  String.substring 0 Pos Name +:+ " " +:+
  String.substring (Pos + 1) (String.length Name - (Pos + 1)) Name.

(** [SPRVToLLVM::transTypeToOCLTypeName(T, IsSigned = true)]. *)
Fixpoint transTypeToOCLTypeName (T : SPRVType) (IsSigned : bool)
  : option string :=
  match T with
  | TypeVoid => Some "void"
  | TypeBool => Some "bool"
  | TypeInt bits _ =>
      let Prefix := if IsSigned then "" else "u" in
      match bits with
      | 8 => Some (Prefix +:+ "char")
      | 16 => Some (Prefix +:+ "short")
      | 32 => Some (Prefix +:+ "int")
      | 64 => Some (Prefix +:+ "long")
      | _ => None
      end
  | TypeFloat bits =>
      match bits with
      | 16 => Some "half"
      | 32 => Some "float"
      | 64 => Some "double"
      | _ => None
      end
  | TypeArray _ _ => Some "array"
  | TypePointer E _ =>
      Name ← transTypeToOCLTypeName E true; Some (Name +:+ "*")
  | TypeVector C n =>
      Name ← transTypeToOCLTypeName C true; Some (Name +:+ pretty n)
  | TypeOpaque Name => Some Name
  | TypeFunction _ _ => None
  | TypeStruct _ Name _ =>
      Some (if bool_decide (str_find "struct." Name = Some 0%nat)
            then setSpace 6 Name
            else if bool_decide (str_find "union." Name = Some 0%nat)
            then setSpace 5 Name
            else Name)
  | TypePipe _ => Some "pipe_t"
  | TypeSampler d _ _ _ =>
      Name ← SPIRSPRVImageSamplerTypeMap_rmap d;
      if (7 <=? String.length Name)%nat
      then Some (String.substring 7 (String.length Name - 7) Name)
      else None
  | TypeOpaqueGeneric oc =>
      if isOpaqueGenericTypeOpCode oc
      then BuiltinOpaqueGenericTypeOpCodeMap_rmap oc
      else None
  end.

(** The qualifiers of a kernel argument, as the function given for
    [SPIR_MD_KERNEL_ARG_TYPE_QUAL] in [transKernelMetadata] builds them from
    the decoration [Volatile] and the attributes of the parameter. *)
Definition kernelArgTypeQual (hasVolatile : bool)
    (Attrs : list SPRVFuncParamAttrKind) : string :=
  foldl (λ Qual Kind,
           let Qual := Qual +:+ (if bool_decide (Qual = "") then "" else " ")
           in
           match Kind with
           | SPRVFPA_NoAlias => Qual +:+ "restrict"
           | SPRVFPA_Const => Qual +:+ "const"
           | _ => Qual
           end)
    (if hasVolatile then "volatile" else "") Attrs.

End Names.

(** ** A small instance

    Concrete tables and a concrete operand translation, on which the member
    functions run.  The mangler is a miniature of the Itanium scheme. *)

Module Example.

Definition mangleTy (T : Ty) : string :=
  match T with
  | IntegerTy 1 => "b"
  | IntegerTy 32 => "i"
  | IntegerTy 64 => "l"
  | FloatTy => "f"
  | PointerTy _ _ => "Pv"
  | VectorTy _ _ => "Dv"
  | _ => "v"
  end.

Definition isOneOf (l : list SPRVOpCode) (oc : SPRVOpCode) : bool :=
  bool_decide (oc ∈ l).

(** An atomic op code and an integer compare of the instance. *)
Definition OpAtomicIAdd : SPRVOpCode := SPRVOC_Other 200.
Definition OpIEqual : SPRVOpCode := SPRVOC_Other 150.

(** The symbol table of the instance numbers a name that is taken: the
    suffix is the first number from [n] on that makes a name of no value of
    the table. *)
Fixpoint firstFree (taken : list string) (Name : string) (fuel : nat) (n : N)
  : string :=
  match fuel with
  | O => pretty n
  | S fuel =>
      if bool_decide (Name +:+ pretty n ∈ taken)
      then firstFree taken Name fuel (n + 1)
      else pretty n
  end.

#[export] Instance llvm : LLVM.
Proof.
  refine {|
    Intrinsic_getAttributes := λ Name,
      if String.prefix "llvm.memcpy." Name
      then [(1, NoCapture); (2, NoCapture); (2, ReadOnly);
            (FunctionIndex, NoUnwind)]
      else if String.prefix "llvm.fmuladd." Name
      then [(FunctionIndex, NoUnwind); (FunctionIndex, ReadNone)]
      else [];
    uniqueSuffix := λ taken Name, firstFree taken Name (length taken) 1
  |}.
  intros taken Name.
  assert (Hgen : ∀ (fuel : nat) (n : N) seen,
            NoDup seen → seen ⊆ taken →
            (∀ x, x ∈ seen → ∃ k, (k < n)%N ∧ x = Name +:+ pretty k) →
            (length seen + fuel = length taken)%nat →
            Name +:+ firstFree taken Name fuel n ∉ taken).
  { induction fuel as [|fuel IH]; intros n seen Hnd Hsub Hform Hlen.
    - simpl. intros Hin.
      assert (Hp : seen ≡ₚ taken).
      { apply submseteq_length_Permutation; [|lia].
        apply NoDup_submseteq; [exact Hnd|].
        intros x Hx. apply Hsub, Hx. }
      rewrite <- Hp in Hin. apply Hform in Hin as (k & Hk & E).
      apply (inj (String.app Name)) in E. apply (inj pretty) in E. lia.
    - simpl. case_bool_decide as Hin; [|exact Hin].
      apply (IH (n + 1)%N ((Name +:+ pretty n) :: seen)).
      + apply NoDup_cons_2; [|exact Hnd].
        intros Hs. apply Hform in Hs as (k & Hk & E).
        apply (inj (String.app Name)) in E. apply (inj pretty) in E. lia.
      + intros x Hx. apply elem_of_cons in Hx as [->|Hx]; [exact Hin|].
        apply Hsub, Hx.
      + intros x Hx. apply elem_of_cons in Hx as [->|Hx].
        * exists n. split; [lia|reflexivity].
        * apply Hform in Hx as (k & Hk & E). exists k.
          split; [lia|exact E].
      + simpl. lia. }
  apply (Hgen (length taken) 1%N []).
  - apply NoDup_nil_2.
  - intros x Hx. by apply elem_of_nil in Hx.
  - intros x Hx. by apply elem_of_nil in Hx.
  - reflexivity.
Defined.

#[export] Instance externals : Externals := {|
  Externals_LLVM := llvm;
  mangle := λ _ Name Tys,
    "_Z" +:+ pretty (N.of_nat (String.length Name)) +:+ Name +:+
    String.concat "" (List.map mangleTy Tys);
  decorateSPRVFunction := λ S, "__spirv_" +:+ S +:+ "_";
  isCmpOpCode :=
    isOneOf [SPRVOC_OpLessOrGreater; SPRVOC_OpUnordered; OpIEqual];
  isCvtOpCode :=
    isOneOf [SPRVOC_OpConvertFToU; SPRVOC_OpConvertFToS;
             SPRVOC_OpConvertSToF; SPRVOC_OpConvertUToF;
             SPRVOC_OpUConvert; SPRVOC_OpSConvert; SPRVOC_OpFConvert];
  isCvtFromUnsignedOpCode :=
    isOneOf [SPRVOC_OpConvertUToF; SPRVOC_OpUConvert];
  isCvtToUnsignedOpCode :=
    isOneOf [SPRVOC_OpConvertFToU; SPRVOC_OpUConvert];
  isBinaryShiftLogicalBitwiseOpCode :=
    isOneOf [SPRVOC_OpBitwiseOr; SPRVOC_OpLogicalOr; SPRVOC_OpBitwiseAnd;
             SPRVOC_OpLogicalAnd; SPRVOC_OpBitwiseXor; SPRVOC_OpLogicalXor];
  isAtomicOpCode := isOneOf [OpAtomicIAdd];
  isOpaqueGenericTypeOpCode := λ _, false;
  SPIRSPRVBuiltinInstMap_rfind := λ oc,
    if bool_decide (oc = SPRVOC_OpLessOrGreater) then Some "islessgreater"
    else if bool_decide (oc = SPRVOC_OpUnordered) then Some "isunordered"
    else if bool_decide (oc = OpAtomicIAdd) then Some "atomic_add"
    else None;
  BuiltinOpaqueGenericTypeOpCodeMap_rmap := λ _, None;
  SPIRSPRVImageSamplerTypeMap_rmap := λ _, Some "opencl.image2d_t";
  SPIRSPRVLinkageTypeMap_rmap := λ k,
    match k with
    | 0 => Some ExternalLinkage
    | 1 => Some ExternalLinkage
    | 2 => Some InternalLinkage
    | _ => None
    end;
  SPIRSPRVFuncCtlMaskMap :=
    [(AlwaysInline, 1); (NoInline, 2); (ReadNone, 4); (ReadOnly, 8)];
  isLessOrGreaterToUnordered :=
    isOneOf [SPRVOC_OpLessOrGreater; SPRVOC_OpUnordered];
  mapSPRVTypeToOpenCLType := λ T Signed,
    match T with
    | TypeInt 32 _ => if Signed then "int" else "uint"
    | TypeInt 64 _ => if Signed then "long" else "ulong"
    | TypeFloat 32 => "float"
    | _ => "void"
    end;
  roundingOfWord := λ w,
    match w with
    | 0 => Some SPRVFRM_RTE | 1 => Some SPRVFRM_RTZ
    | 2 => Some SPRVFRM_RTP | 3 => Some SPRVFRM_RTN
    | _ => None
    end;
  rmapMemFenceFlags := λ m, m;
  OCLExtMap := λ _ e,
    match e with
    | 0 => Some "acos" | 1 => Some "vloadn" | 2 => Some "read_imagef"
    | _ => None
    end;
  OCL_Printf := λ _, 184;
  printModule := λ st,
    "target triple = " +:+ mod_targetTriple (M st)
|}.

(** The operands of the instance are constants and values that are
    already mapped. *)
Definition transValue (BV : SPRVValue) (F BB : option handle) (_ : bool)
  : Trans Value :=
  st ← get;
  match ValueMap st !! getId BV with
  | Some V => mret V
  | None =>
      match getOpCode BV with
      | SPRVOC_OpConstant =>
          mapValue BV (ConstantInt Int32Ty (Z.of_N (getId BV)))
      | _ => abort
      end
  end.

Definition unsupported : SPRVValue → option handle → option handle → Trans Value :=
  λ _ _ _, abort.

Definition pass : Trans bool := mret true.

Definition emptyLog : SPRVErrorLog := mkErrorLog SPRVEC_Success "".

Definition i32 : SPRVType := TypeInt 32 true.
Definition u32 : SPRVType := TypeInt 32 false.
Definition f32 : SPRVType := TypeFloat 32.

Definition constant (id : N) (T : SPRVType) : SPRVValue :=
  mkSPRVValue id SPRVOC_OpConstant (Some T) "" [] noDecorations.

(** A function [f] with one block [entry]: the state in which instructions
    are translated. *)
Definition BasicBlock_Create (Name : string) (F : handle) : Trans handle :=
  λ st, let bb := newHandle st in
        Some (bb, set_blocks <[bb := mkBasicBlock Name (Some F) []]> st).

Definition inFunction : Trans handle :=
  F ← Function_Create (FunctionTy VoidTy [] false) ExternalLinkage "f";
  BasicBlock_Create "entry" F.

(** The input module of the instance: Physical64, with the kernel [foo]
    (id 10), the declaration of an intrinsic, and two declarations that
    carry the mangled names of builtins. *)
Definition voidFn : SPRVType := TypeFunction TypeVoid [].

Definition functionValue (id : N) (Name : string) : SPRVValue :=
  mkSPRVValue id SPRVOC_OpFunction (Some TypeVoid) Name [] noDecorations.

Definition foo : SPRVFunction :=
  mkSPRVFunction (functionValue 10 "foo") voidFn 0 0 [] [] [].

Definition parameter (id : N) (T : SPRVType) (Name : string) : SPRVValue :=
  mkSPRVValue id SPRVOC_OpFunctionParameter (Some T) Name [] noDecorations.

Definition fmuladd : SPRVFunction :=
  mkSPRVFunction (functionValue 11 "llvm.fmuladd.f32")
    (TypeFunction f32 [f32; f32; f32]) 1 0
    [(parameter 70 f32 "a", []); (parameter 71 f32 "b", []);
     (parameter 72 f32 "c", [])] [] [].

Definition userBarrier : SPRVFunction :=
  mkSPRVFunction (functionValue 12 "_Z7barrieri")
    (TypeFunction i32 [i32]) 1 0 [(parameter 73 i32 "flags", [])] [] [].

Definition userAcos : SPRVFunction :=
  mkSPRVFunction (functionValue 13 "_Z4acosf")
    (TypeFunction f32 [f32]) 1 4 [(parameter 74 f32 "x", [])] [] [].

Definition userConvert : SPRVFunction :=
  mkSPRVFunction (functionValue 15 "_Z20convert_uint_sat_rtzf")
    (TypeFunction f32 [f32]) 1 0 [(parameter 76 f32 "x", [])] [] [].

Definition inputModule (AM : SPRVAddressingModelKind) : SPRVModule :=
  mkSPRVModule AM [10] "" [foo; fmuladd] []
    (λ id, if id =? 40 then Some (constant 40 f32) else None).

Definition BM : SPRVModule := inputModule SPRVAM_Physical64.

(** The same module with an addressing model that is none of the three:
    its translation fails. *)
Definition invalidModule : SPRVModule := inputModule (SPRVAM_Other 7).

(** The state after a run, when it completes. *)
Definition after {A} (m : Trans A) (st : SPRVToLLVM) : SPRVToLLVM :=
  match m st with Some (_, st') => st' | None => st end.

(** A value that is used before it is defined, the instruction that uses
    it, and the state in which it is mapped to its placeholder. *)
Definition forwardValue : SPRVValue :=
  mkSPRVValue 7 SPRVOC_OpPhi (Some i32) "x" [] noDecorations.

Definition entryBlock : handle := 2%positive.

Definition withPlaceholder : SPRVToLLVM :=
  after (inFunction;;
         V ← createPlaceholder forwardValue (Some entryBlock);
         insertAtEnd (OtherInst "add" [Some V; Some V] "y") (Some entryBlock))
    (initial emptyLog).

(** The state in which a constant is mapped. *)
Definition withConstant : SPRVToLLVM :=
  after (mapValue (constant 5 i32) (ConstantInt Int32Ty 5)) (initial emptyLog).

(** A compare that is lowered as a builtin, a saturated conversion with a
    rounding mode, an atomic, a barrier, an extended instruction and a
    memory copy whose size is a parameter. *)
Definition lessOrGreater : SPRVValue :=
  mkSPRVValue 22 SPRVOC_OpLessOrGreater (Some TypeBool) "c"
    [constant 20 f32; constant 21 f32] noDecorations.

Definition convertFToU : SPRVValue :=
  mkSPRVValue 30 SPRVOC_OpConvertFToU (Some u32) "u"
    [constant 31 f32] (mkDecorations false 0 (Some SPRVFRM_RTZ) true 0).

Definition controlBarrier : SPRVValue :=
  mkSPRVValue 50 SPRVOC_OpControlBarrier None "" []
    (mkDecorations false 0 None false 1).

Definition acos : SPRVExtInst :=
  mkSPRVExtInst
    (mkSPRVValue 41 SPRVOC_OpExtInst (Some f32) "r" [] noDecorations)
    SPRVBIS_OpenCL20 0 [40].

Definition globalPtr : SPRVType := TypePointer (TypeInt 8 true) SPRVSC_CrossWorkgroup.

Definition copyMemorySized : SPRVValue :=
  mkSPRVValue 64 SPRVOC_OpCopyMemorySized None ""
    [parameter 60 globalPtr "dst"; parameter 61 globalPtr "src";
     parameter 62 i32 "n"]
    (mkDecorations false 4 None false 0).

(** The state in which the three parameters of the enclosing function are
    mapped to its arguments. *)
Definition withParameters : SPRVToLLVM :=
  after (inFunction;;
         mapValue (parameter 60 globalPtr "dst") (ArgumentV 1%positive 0);;
         mapValue (parameter 61 globalPtr "src") (ArgumentV 1%positive 1);;
         mapValue (parameter 62 i32 "n") (ArgumentV 1%positive 2))
    (initial emptyLog).

(** The hosts of the instance: every file can be opened, or none. *)
Definition writableHost : FileSystem := mkFileSystem ∅ (λ _, true).

(** A host on which no file can be opened for writing. *)
Definition readOnlyHost : FileSystem := mkFileSystem ∅ (λ _, false).

End Example.

(** ** More inputs of the instance *)

Module Inputs.
Import Example.

(** A table of two mask bits for the two-way map. *)
Definition fenceFlags : list (N * N) := [(1, 256); (2, 512)].

(** The declaration of a function with an inlining hint, a zero-extended
    return value and a restricted, constant parameter. *)
Definition restricted : SPRVFunction :=
  mkSPRVFunction (functionValue 14 "g") (TypeFunction u32 [globalPtr]) 1 1
    [(parameter 75 globalPtr "p", [SPRVFPA_NoAlias; SPRVFPA_Const])]
    [SPRVFPA_Zext] [].

(** A call of [printf] as an extended instruction. *)
Definition printf : SPRVExtInst :=
  mkSPRVExtInst
    (mkSPRVValue 42 SPRVOC_OpExtInst (Some i32) "n" [] noDecorations)
    SPRVBIS_OpenCL20 184 [40].

End Inputs.

(** * Properties *)

(** ** Reasoning about member functions *)

Lemma bind_Some {A B} (m : Trans A) (f : A → Trans B) st b st' :
  (m ≫= f) st = Some (b, st') ↔
  ∃ a st1, m st = Some (a, st1) ∧ f a st1 = Some (b, st').
Proof.
  unfold mbind, Trans_bind. split.
  - destruct (m st) as [[a st1]|] eqn:E; [eauto | discriminate].
  - intros (a & st1 & -> & E). exact E.
Qed.

Lemma bind_eq {A B} (m : Trans A) (f : A → Trans B) st a st1 :
  m st = Some (a, st1) → (m ≫= f) st = f a st1.
Proof. unfold mbind, Trans_bind. intros ->. reflexivity. Qed.

Lemma bind_unfold {A B} (m : Trans A) (f : A → Trans B) st :
  (m ≫= f) st = match m st with Some (a, s) => f a s | None => None end.
Proof. reflexivity. Qed.

Lemma bind_None {A B} (m : Trans A) (f : A → Trans B) st :
  m st = None → (m ≫= f) st = None.
Proof. unfold mbind, Trans_bind. intros ->. reflexivity. Qed.

Lemma mret_Some {A} (a b : A) st st' :
  (mret a : Trans A) st = Some (b, st') ↔ a = b ∧ st = st'.
Proof. unfold mret, Trans_ret. split; [intros [= -> ->] | intros [-> ->]]; auto. Qed.

Lemma get_Some st s st' : get st = Some (s, st') ↔ s = st ∧ st' = st.
Proof. unfold get. split; [intros [= <- <-] | intros [-> ->]]; auto. Qed.

Lemma modify_Some f st u st' : modify f st = Some (u, st') ↔ st' = f st.
Proof.
  unfold modify. destruct u. split; [intros [= <-] | intros ->]; auto.
Qed.

Lemma required_Some {A} (o : option A) a st st' :
  required o st = Some (a, st') ↔ o = Some a ∧ st' = st.
Proof.
  destruct o as [x|]; cbn; unfold mret, Trans_ret, abort.
  - split; [intros [= -> ->] | intros [[= ->] ->]]; auto.
  - split; [discriminate | intros [? _]; discriminate].
Qed.

Lemma assert_Some b u st st' :
  assert b st = Some (u, st') ↔ b = true ∧ st' = st.
Proof.
  destruct b, u; cbn; unfold mret, Trans_ret, abort.
  - split; [intros [= ->] | intros [_ ->]]; auto.
  - split; [discriminate | intros [? _]; discriminate].
Qed.

(** Decomposes a successful run into the runs of its steps. *)
Ltac run_inv :=
  repeat match goal with
    | H : (_ ≫= _) _ = Some _ |- _ =>
        apply bind_Some in H as (? & ? & ? & H)
    | H : mret _ _ = Some _ |- _ =>
        apply mret_Some in H as [? ?]; subst
    | H : get _ = Some _ |- _ => apply get_Some in H as [? ?]; subst
    | H : modify _ _ = Some _ |- _ => apply modify_Some in H; subst
    | H : required _ _ = Some _ |- _ =>
        apply required_Some in H as [? ?]; subst
    | H : assert _ _ = Some _ |- _ =>
        apply assert_Some in H as [? ?]; subst
    end.

Lemma theInst_Some h st nd st' :
  theInst h st = Some (nd, st') ↔ insts st !! h = Some nd ∧ st' = st.
Proof.
  unfold theInst. split.
  - intros Hr. run_inv. auto.
  - intros [E ->]. rewrite (bind_eq _ _ st st st) by reflexivity.
    rewrite E. reflexivity.
Qed.

Lemma theGlobal_Some h st G st' :
  theGlobal h st = Some (G, st') ↔ globals st !! h = Some G ∧ st' = st.
Proof.
  unfold theGlobal. split.
  - intros Hr. run_inv. auto.
  - intros [E ->]. rewrite (bind_eq _ _ st st st) by reflexivity.
    rewrite E. reflexivity.
Qed.

Lemma theFunction_Some h st F st' :
  theFunction h st = Some (F, st') ↔ functions st !! h = Some F ∧ st' = st.
Proof.
  unfold theFunction. split.
  - intros Hr. run_inv. auto.
  - intros [E ->]. rewrite (bind_eq _ _ st st st) by reflexivity.
    rewrite E. reflexivity.
Qed.

Lemma replaceAllUsesWith_Some h V st u st' :
  replaceAllUsesWith h V st = Some (u, st') ↔
  st' = set_insts (fmap (replaceUsesIn (InstructionV h) V)) st.
Proof. apply modify_Some. Qed.

Lemma Instruction_dropAllReferences_Some h st u st' :
  Instruction_dropAllReferences h st = Some (u, st') ↔
  ∃ nd, insts st !! h = Some nd ∧
    st' = set_insts <[h := mkInstNode (mapOperands (λ _, None) (node_inst nd))
                             (node_parent nd)]> st.
Proof.
  unfold Instruction_dropAllReferences. split.
  - intros Hr. apply bind_Some in Hr as (nd & s & Hnd & Hr).
    apply theInst_Some in Hnd as [Hnd ->]. apply modify_Some in Hr. eauto.
  - intros (nd & Hnd & ->). apply bind_Some. exists nd, st. split.
    + apply theInst_Some. auto.
    + destruct u. reflexivity.
Qed.

Lemma Instruction_removeFromParent_Some h st u st' :
  Instruction_removeFromParent h st = Some (u, st') ↔
  ∃ nd bb B, insts st !! h = Some nd ∧ node_parent nd = Some bb ∧
    blocks st !! bb = Some B ∧
    st' = set_insts <[h := mkInstNode (node_inst nd) None]>
            (set_blocks <[bb := mkBasicBlock (bb_name B) (bb_parent B)
                                  (List.filter
                                     (λ i, negb (bool_decide (i = h)))
                                     (bb_insts B))]> st).
Proof.
  unfold Instruction_removeFromParent. split.
  - intros Hr. apply bind_Some in Hr as (nd & s & Hnd & Hr).
    apply theInst_Some in Hnd as [Hnd ->].
    apply bind_Some in Hr as (bb & s & Hbb & Hr).
    apply required_Some in Hbb as [Hbb ->].
    apply bind_Some in Hr as (s0 & s & Hg & Hr).
    apply get_Some in Hg as [-> ->].
    apply bind_Some in Hr as (B & s & HB & Hr).
    apply required_Some in HB as [HB ->].
    apply bind_Some in Hr as (u1 & s & Hm & Hr).
    apply modify_Some in Hm. subst s. apply modify_Some in Hr.
    exists nd, bb, B. auto.
  - intros (nd & bb & B & Hnd & Hbb & HB & ->).
    apply bind_Some. exists nd, st. split; [apply theInst_Some; auto|].
    apply bind_Some. exists bb, st. split; [apply required_Some; auto|].
    apply bind_Some. exists st, st. split; [reflexivity|].
    apply bind_Some. exists B, st. split; [apply required_Some; auto|].
    destruct u. reflexivity.
Qed.

Lemma GlobalVariable_dropAllReferences_Some h st u st' :
  GlobalVariable_dropAllReferences h st = Some (u, st') ↔
  ∃ G, globals st !! h = Some G ∧
    st' = set_globals <[h := mkGlobalVariable (gv_name G) (gv_valueType G)
                               (gv_isConstant G) (gv_linkage G) None
                               (gv_addrspace G)]> st.
Proof.
  unfold GlobalVariable_dropAllReferences. split.
  - intros Hr. apply bind_Some in Hr as (G & s & HG & Hr).
    apply theGlobal_Some in HG as [HG ->]. apply modify_Some in Hr. eauto.
  - intros (G & HG & ->). apply bind_Some. exists G, st. split.
    + apply theGlobal_Some. auto.
    + destruct u. reflexivity.
Qed.

Lemma GlobalVariable_removeFromParent_Some h st u st' :
  GlobalVariable_removeFromParent h st = Some (u, st') ↔
  h ∈ mod_globals (M st) ∧
  st' = set_M (λ m, mkModule (mod_functions m)
                      (List.filter (λ g, negb (bool_decide (g = h)))
                         (mod_globals m))
                      (mod_targetTriple m) (mod_dataLayout m)) st.
Proof.
  unfold GlobalVariable_removeFromParent. split.
  - intros Hr. apply bind_Some in Hr as (s0 & s & Hg & Hr).
    apply get_Some in Hg as [-> ->].
    apply bind_Some in Hr as (u1 & s & Ha & Hr).
    apply assert_Some in Ha as [Ha ->]. apply modify_Some in Hr.
    apply bool_decide_eq_true_1 in Ha. auto.
  - intros [Hin ->]. apply bind_Some. exists st, st. split; [reflexivity|].
    apply bind_Some. exists tt, st. split.
    + apply assert_Some. split; [|reflexivity].
      apply bool_decide_eq_true_2, Hin.
    + destruct u. reflexivity.
Qed.

Lemma operands_mapOperands f I :
  operands (mapOperands f I) = List.map f (operands I).
Proof.
  destruct I; cbn; try reflexivity.
  rewrite List.map_app. reflexivity.
Qed.

Lemma replaceOperand_fresh Old New o :
  Old ≠ New → replaceOperand Old New o ≠ Some Old.
Proof.
  intros Hne. destruct o as [v|]; cbn; [|discriminate].
  destruct (decide (v = Old)); congruence.
Qed.

(** ** The identity maps *)

Lemma mapValue_same (st : SPRVToLLVM) (BV : SPRVValue) (V : Value) :
  ValueMap st !! getId BV = Some V →
  mapValue BV V st = Some (V, st).
Proof.
  intros Hin. unfold mapValue.
  rewrite (bind_eq _ _ st st st) by reflexivity.
  rewrite Hin. destruct (decide (V = V)) as [_|Hne]; [|congruence].
  reflexivity.
Qed.

(** C10: mapping a value again to the value it is mapped to is a no-op:
    whatever that value is (no placeholder is looked for), the call returns
    it and leaves the translator, with [ValueMap] and the emitted module,
    as it was. *)
Theorem mapValue_same_value (st : SPRVToLLVM) (BV : SPRVValue) (V : Value) :
  ValueMap st !! getId BV = Some V →
  mapValue BV V st = Some (V, st).
Proof. apply mapValue_same. Qed.

(** The entry [Old] of [ValueMap] is a placeholder: the load [LD] of the
    global variable [GV], whose name starts with [kPlaceholderPrefix]; the
    load is in a block and the variable in the module. *)
Definition placeholderLoad (st : SPRVToLLVM) (Old : Value) (LD GV : handle)
  : Prop :=
  Old = InstructionV LD ∧
  ∃ n v a bb B G,
    insts st !! LD =
      Some (mkInstNode (LoadInst (Some (GlobalVariableV GV)) n v a) (Some bb)) ∧
    blocks st !! bb = Some B ∧
    globals st !! GV = Some G ∧
    String.prefix kPlaceholderPrefix (gv_name G) = true ∧
    GV ∈ mod_globals (M st).

(** The operand [o'] is the operand [o] once the uses of [Old] are uses of
    [New]: it is [New] where [o] is [Old], and [o] itself where [o] is
    another value or null. *)
Definition retargeted (Old New : Value) (o o' : option Value) : Prop :=
  (o = Some Old ∧ o' = Some New) ∨ (o ≠ Some Old ∧ o' = o).

(** The instruction [I'] is the instruction [I] once the uses of [Old] are
    uses of [New]: the same instruction, operand by operand retargeted. *)
Definition usesRetargeted (Old New : Value) (I I' : Instruction) : Prop :=
  match I, I' with
  | LoadInst p n v a, LoadInst p' n' v' a' =>
      retargeted Old New p p' ∧ n' = n ∧ v' = v ∧ a' = a
  | CallInst c args n cc at_, CallInst c' args' n' cc' at' =>
      retargeted Old New c c' ∧ Forall2 (retargeted Old New) args args' ∧
      n' = n ∧ cc' = cc ∧ at' = at_
  | CastInst op x d n, CastInst op' x' d' n' =>
      op' = op ∧ retargeted Old New x x' ∧ d' = d ∧ n' = n
  | OtherInst oc ops n, OtherInst oc' ops' n' =>
      oc' = oc ∧ Forall2 (retargeted Old New) ops ops' ∧ n' = n
  | _, _ => False
  end.

(** What the second write leaves behind. *)
Definition placeholderReplaced (st st' : SPRVToLLVM) (BV : SPRVValue)
    (V : Value) (LD GV : handle) : Prop :=
  (* the map entry is overwritten *)
  ValueMap st' = <[getId BV := V]> (ValueMap st) ∧
  (* every use of the load is a use of the new value: every other
     instruction is where it was, with the load as operand turned into the
     new value and its other operands as they were *)
  (∀ h nd, h ≠ LD → insts st !! h = Some nd →
     ∃ I', insts st' !! h = Some (mkInstNode I' (node_parent nd)) ∧
           usesRetargeted (InstructionV LD) V (node_inst nd) I') ∧
  (∀ h nd, insts st' !! h = Some nd →
     (Some (InstructionV LD)) ∉ (operands (node_inst nd))) ∧
  (* the load is in no block any more *)
  (∃ nd bb B, insts st !! LD = Some nd ∧ node_parent nd = Some bb ∧
     blocks st !! bb = Some B ∧
     insts st' !! LD =
       Some (mkInstNode (mapOperands (λ _, None) (node_inst nd)) None) ∧
     blocks st' =
       <[bb := mkBasicBlock (bb_name B) (bb_parent B)
                 (List.filter (λ i, negb (bool_decide (i = LD)))
                    (bb_insts B))]> (blocks st) ∧
     LD ∉ (List.filter (λ i, negb (bool_decide (i = LD))) (bb_insts B))) ∧
  (* the global is in the module no more *)
  (GV ∉ (mod_globals (M st'))) ∧
  (mod_globals (M st') =
     List.filter (λ g, negb (bool_decide (g = GV))) (mod_globals (M st))) ∧
  (mod_functions (M st') = mod_functions (M st)) ∧
  functions st' = functions st.

Lemma retargeted_replaceOperand Old New o o' :
  retargeted Old New o o' ↔ o' = replaceOperand Old New o.
Proof.
  unfold retargeted, replaceOperand. split.
  - intros [[-> ->]|[Hne ->]].
    + by destruct (decide (Old = Old)).
    + destruct o as [v|]; [|reflexivity].
      destruct (decide (v = Old)); [congruence|reflexivity].
  - intros ->. destruct o as [v|]; [|right; split; [discriminate|reflexivity]].
    destruct (decide (v = Old)) as [->|Hne]; [by left|].
    right. split; [congruence|reflexivity].
Qed.

Lemma Forall2_retargeted Old New l l' :
  Forall2 (retargeted Old New) l l' ↔
  l' = List.map (replaceOperand Old New) l.
Proof.
  split.
  - induction 1 as [|o o' l l' Ho _ IH]; [reflexivity|].
    cbn. apply retargeted_replaceOperand in Ho. congruence.
  - intros ->. induction l as [|o l IH]; constructor;
      [by apply retargeted_replaceOperand|exact IH].
Qed.

Lemma usesRetargeted_mapOperands Old New I I' :
  usesRetargeted Old New I I' ↔ I' = mapOperands (replaceOperand Old New) I.
Proof.
  destruct I, I'; cbn; try (split; [tauto|discriminate]);
    rewrite ?retargeted_replaceOperand, ?Forall2_retargeted;
    (split; [intuition congruence|intros [= -> -> -> -> ->] || intros [= -> -> -> ->] || intros [= -> -> ->]; auto 10]).
Qed.

(** The instructions after the second write, in the terms of
    [replaceAllUsesWith]. *)
Lemma placeholderReplaced_uses st st' BV V LD GV :
  placeholderReplaced st st' BV V LD GV →
  ∀ h nd, h ≠ LD → insts st !! h = Some nd →
    insts st' !! h = Some (replaceUsesIn (InstructionV LD) V nd).
Proof.
  intros (_ & Huses & _) h nd Hne Hnd.
  destruct (Huses h nd Hne Hnd) as (I' & -> & HI').
  apply usesRetargeted_mapOperands in HI' as ->. reflexivity.
Qed.

Lemma not_in_filter_ne (h : handle) (l : list handle) :
  h ∉ (List.filter (λ i, negb (bool_decide (i = h))) l).
Proof.
  rewrite list_elem_of_In, List.filter_In. intros [_ Hb].
  rewrite bool_decide_eq_true_2 in Hb by reflexivity. discriminate.
Qed.

Lemma dyn_cast_LoadInst_Some st V h :
  dyn_cast_LoadInst st V = Some h →
  V = InstructionV h ∧
  ∃ p n v a par, insts st !! h = Some (mkInstNode (LoadInst p n v a) par).
Proof.
  unfold dyn_cast_LoadInst. destruct V; try discriminate.
  destruct (insts st !! h0) as [[[] par]|] eqn:E; try discriminate.
  intros [= <-]. split; [reflexivity | eauto 6].
Qed.

Lemma dyn_cast_GlobalVariable_Some V h :
  dyn_cast_GlobalVariable V = Some h → V = Some (GlobalVariableV h).
Proof.
  destruct V as [[]|]; cbn; try discriminate. intros [= ->]. reflexivity.
Qed.

Lemma mapValue_second_inv (st : SPRVToLLVM) (BV : SPRVValue) (V Old : Value)
    R st' :
  ValueMap st !! getId BV = Some Old →
  Old ≠ V →
  mapValue BV V st = Some (R, st') →
  R = V ∧
  ∃ LD GV, placeholderLoad st Old LD GV ∧
           placeholderReplaced st st' BV V LD GV.
Proof.
  intros Hin Hne Hrun. unfold mapValue in Hrun.
    rewrite (bind_eq _ _ st st st) in Hrun by reflexivity.
    rewrite Hin in Hrun.
    destruct (decide (Old = V)) as [|_]; [congruence|].
    apply bind_Some in Hrun as (same & st1 & Hbody & Hend).
    apply bind_Some in Hbody as (LD & s1 & HLD & Hbody).
    apply required_Some in HLD as [HLD ->].
    apply dyn_cast_LoadInst_Some in HLD as (-> & p & n & v & a & par & Hld).
    apply bind_Some in Hbody as (ld & s1 & Hld' & Hbody).
    apply theInst_Some in Hld' as [Hld' ->].
    rewrite Hld in Hld'. injection Hld' as <-.
    apply bind_Some in Hbody as (GV & s1 & HGV & Hbody).
    apply required_Some in HGV as [HGV ->]. cbn in HGV.
    apply dyn_cast_GlobalVariable_Some in HGV as ->.
    apply bind_Some in Hbody as (G & s1 & HG & Hbody).
    apply theGlobal_Some in HG as [HG ->].
    apply bind_Some in Hbody as (u & s1 & Hpre & Hbody).
    apply assert_Some in Hpre as [Hpre ->].
    apply bind_Some in Hbody as (u1 & s1 & Hrauw & Hbody).
    apply replaceAllUsesWith_Some in Hrauw.
    apply bind_Some in Hbody as (u2 & s2 & Hdrop & Hbody).
    apply Instruction_dropAllReferences_Some in Hdrop as (nd1 & Hnd1 & Hs2).
    apply bind_Some in Hbody as (u3 & s3 & Hrm & Hbody).
    apply Instruction_removeFromParent_Some in Hrm
      as (nd2 & bb & B & Hnd2 & Hpar & HB & Hs3).
    apply bind_Some in Hbody as (u4 & s4 & Hgdrop & Hbody).
    apply GlobalVariable_dropAllReferences_Some in Hgdrop as (G' & HG' & Hs4).
    apply bind_Some in Hbody as (u5 & s5 & Hgrm & Hbody).
    apply GlobalVariable_removeFromParent_Some in Hgrm as [Hatt Hs5].
    apply mret_Some in Hbody as [<- <-].
    apply bind_Some in Hend as (u6 & s6 & Hmap & Hend).
    apply modify_Some in Hmap. apply mret_Some in Hend as [<- <-].
    subst. cbn in *.
    rewrite lookup_fmap, Hld in Hnd1. cbn in Hnd1.
    destruct (decide (GlobalVariableV GV = InstructionV LD)); [discriminate|].
    injection Hnd1 as <-. rewrite lookup_insert_eq in Hnd2.
    injection Hnd2 as <-. cbn in *. subst par.
    rewrite HG in HG'. injection HG' as <-.
    split; [reflexivity|]. exists LD, GV. split.
    { split; [reflexivity|]. eauto 12. }
    unfold placeholderReplaced. cbn.
    split; [reflexivity|]. split.
    { intros h nd Hh Hnd. rewrite !lookup_insert_ne by congruence.
      rewrite lookup_fmap, Hnd. eexists. split; [reflexivity|].
      by apply usesRetargeted_mapOperands. }
    split.
    { intros h nd. destruct (decide (h = LD)) as [->|Hh].
      - rewrite lookup_insert_eq. intros [= <-]. cbn.
        rewrite list_elem_of_In. intros [|[]]; discriminate.
      - rewrite !lookup_insert_ne by congruence. rewrite lookup_fmap.
        destruct (insts st !! h) as [nd0|]; [|discriminate].
        intros [= <-]. cbn. rewrite operands_mapOperands.
        rewrite list_elem_of_In, List.in_map_iff. intros (o & Ho & _).
        exact (replaceOperand_fresh _ _ o Hne Ho). }
    split.
    { eexists _, bb, B. split; [exact Hld|]. cbn.
      split; [reflexivity|]. split; [exact HB|].
      split; [apply lookup_insert_eq|].
      split; [reflexivity|]. apply not_in_filter_ne. }
    split; [apply not_in_filter_ne|]. auto.
Qed.

Lemma mapValue_second_run (st : SPRVToLLVM) (BV : SPRVValue) (V Old : Value)
    LD GV :
  ValueMap st !! getId BV = Some Old →
  Old ≠ V →
  placeholderLoad st Old LD GV →
  is_Some (mapValue BV V st).
Proof.
  intros Hin Hne (-> & n & v & a & bb & B & G & Hld & HB & HG & Hpre & Hatt).

    unfold mapValue. rewrite (bind_eq _ _ st st st) by reflexivity.
    rewrite Hin. destruct (decide (InstructionV LD = V)) as [|_]; [congruence|].
    match goal with
    | |- is_Some ((?m ≫= ?f) st) =>
        enough (∃ s, m st = Some (false, s)) as [s Hs];
        [rewrite (bind_eq _ _ _ _ _ Hs); cbn; eauto|]
    end.
    eexists.
    erewrite bind_eq;
      [|apply required_Some; split; [|reflexivity];
        unfold dyn_cast_LoadInst; rewrite Hld; reflexivity].
    erewrite bind_eq; [|apply theInst_Some; split; [exact Hld|reflexivity]].
    cbn [node_inst getPointerOperand dyn_cast_GlobalVariable].
    erewrite bind_eq; [|apply required_Some; split; reflexivity].
    erewrite bind_eq; [|apply theGlobal_Some; split; [exact HG|reflexivity]].
    erewrite (bind_eq _ _ _ tt); [|apply assert_Some; split; [exact Hpre|reflexivity]].
    erewrite (bind_eq _ _ _ tt); [|apply replaceAllUsesWith_Some; reflexivity].
    erewrite (bind_eq _ _ _ tt);
      [|apply Instruction_dropAllReferences_Some; eexists; split;
        [cbn; rewrite lookup_fmap, Hld; reflexivity|reflexivity]].
    erewrite (bind_eq _ _ _ tt);
      [|apply Instruction_removeFromParent_Some; eexists _, bb, B;
        split; [cbn; apply lookup_insert_eq|];
        split; [reflexivity|]; split; [exact HB|reflexivity]].
    erewrite (bind_eq _ _ _ tt);
      [|apply GlobalVariable_dropAllReferences_Some; eexists; split;
        [exact HG|reflexivity]].
    erewrite (bind_eq _ _ _ tt);
      [|apply GlobalVariable_removeFromParent_Some; split;
        [exact Hatt|reflexivity]].
    reflexivity.
Qed.

(** [mapValue], case by case: the value is mapped to [V] already; it is not
    mapped; or it is mapped to a placeholder, which is replaced. *)
Lemma mapValue_inv BV V st R st' :
  mapValue BV V st = Some (R, st') →
  R = V ∧
  ((ValueMap st !! getId BV = Some V ∧ st' = st) ∨
   (ValueMap st !! getId BV = None ∧
    st' = set_ValueMap <[getId BV := V]> st) ∨
   (∃ Old LD GV, ValueMap st !! getId BV = Some Old ∧ Old ≠ V ∧
      placeholderLoad st Old LD GV ∧
      placeholderReplaced st st' BV V LD GV)).
Proof.
  intros Hr. destruct (ValueMap st !! getId BV) as [Old|] eqn:Hin.
  - destruct (decide (Old = V)) as [->|Hne].
    + rewrite (mapValue_same _ _ _ Hin) in Hr. injection Hr as <- <-.
      auto.
    + destruct (mapValue_second_inv _ _ _ _ _ _ Hin Hne Hr)
        as (-> & LD & GV & HP & HR).
      split; [reflexivity|]. right. right. eauto 10.
  - unfold mapValue in Hr.
    rewrite (bind_eq _ _ st st st) in Hr by reflexivity. rewrite Hin in Hr.
    cbn in Hr. injection Hr as <- <-. auto.
Qed.

(** C1: when a value that is in [ValueMap] is mapped to another value, the
    call completes exactly when the existing entry is the load of a global
    variable whose name begins with [placeholder.] (anything else fails the
    assertion of [mapValue]); it then replaces every use of the load with
    the new value (every other instruction keeps its place, its kind and
    its operands, except that an operand that was the load is the new
    value, and no instruction has the load as operand any more), detaches
    the load from its block and the global from the module, overwrites the
    map entry and returns the new value. *)
Theorem mapValue_replaces_placeholder
    (st : SPRVToLLVM) (BV : SPRVValue) (V Old : Value) :
  ValueMap st !! getId BV = Some Old →
  Old ≠ V →
  (is_Some (mapValue BV V st) ↔ ∃ LD GV, placeholderLoad st Old LD GV) ∧
  (∀ R st', mapValue BV V st = Some (R, st') →
     R = V ∧
     ∃ LD GV, placeholderLoad st Old LD GV ∧
              placeholderReplaced st st' BV V LD GV).
Proof.
  intros Hin Hne. split.
  - split.
    + intros [[R st'] Hr].
      destruct (mapValue_second_inv _ _ _ _ _ _ Hin Hne Hr)
        as (_ & LD & GV & HP & _).
      eauto.
    + intros (LD & GV & HP). eapply mapValue_second_run; eauto.
  - intros R st'. apply mapValue_second_inv; assumption.
Qed.

(** ** What a member function leaves unchanged *)

(** [respects R m]: every completed run of [m] relates the state before to
    the state after. *)
Definition respects {A} (R : relation SPRVToLLVM) (m : Trans A) : Prop :=
  ∀ st a st', m st = Some (a, st') → R st st'.

Section Respects.
Context (R : relation SPRVToLLVM) `{!PreOrder R}.

Lemma respects_mret {A} (a : A) : respects R (mret a).
Proof. intros st b st' Hr. apply mret_Some in Hr as [_ <-]. reflexivity. Qed.

Lemma respects_abort {A} : respects R (@abort A).
Proof. intros st b st' Hr. discriminate. Qed.

Lemma respects_get : respects R get.
Proof. intros st b st' Hr. apply get_Some in Hr as [_ ->]. reflexivity. Qed.

Lemma respects_required {A} (o : option A) : respects R (required o).
Proof.
  intros st b st' Hr. apply required_Some in Hr as [_ ->]. reflexivity.
Qed.

Lemma respects_assert b : respects R (assert b).
Proof.
  intros st u st' Hr. apply assert_Some in Hr as [_ ->]. reflexivity.
Qed.

Lemma respects_bind {A B} (m : Trans A) (f : A → Trans B) :
  respects R m → (∀ a, respects R (f a)) → respects R (m ≫= f).
Proof.
  intros Hm Hf st b st' Hr. apply bind_Some in Hr as (a & s & H1 & H2).
  etransitivity; [exact (Hm _ _ _ H1) | exact (Hf _ _ _ _ H2)].
Qed.

Lemma respects_mapT {A B} (f : A → Trans B) (l : list A) :
  (∀ a, respects R (f a)) → respects R (mapT f l).
Proof.
  intros Hf. induction l as [|x l IH]; cbn.
  - apply respects_mret.
  - apply respects_bind; [apply Hf|]. intros y.
    apply respects_bind; [exact IH|]. intros ys. apply respects_mret.
Qed.

Lemma respects_modify (f : SPRVToLLVM → SPRVToLLVM) :
  (∀ st, R st (f st)) → respects R (modify f).
Proof. intros Hf st u st' Hr. apply modify_Some in Hr as ->. apply Hf. Qed.

Lemma respects_if {A} (b : bool) (m1 m2 : Trans A) :
  respects R m1 → respects R m2 → respects R (if b then m1 else m2).
Proof. destruct b; auto. Qed.

End Respects.

(** Proves [respects R m] through the structure of [m], leaving the steps
    that write the state. *)
Create HintDb respects.

Ltac respects_steps :=
  repeat first
    [ match goal with |- ∀ _, respects _ _ => intros ? end
    | solve [auto 2 with respects nocore]
    | apply respects_mret; exact _
    | apply respects_abort
    | apply respects_get; exact _
    | apply respects_required; exact _
    | apply respects_assert; exact _
    | apply respects_bind; [exact _| |]
    | apply respects_mapT; [exact _|]
    | apply respects_if
    | match goal with
      | |- respects _ (match ?x with _ => _ end) => destruct x
      end ].

(** The functions of the module keep their name, type, linkage and calling
    convention, and their attributes. *)
Definition keepsFunctions : relation SPRVToLLVM := λ st st',
  ∀ F Fo, functions st !! F = Some Fo →
    ∃ Fo', functions st' !! F = Some Fo' ∧
      fn_name Fo' = fn_name Fo ∧ fn_type Fo' = fn_type Fo ∧
      fn_linkage Fo' = fn_linkage Fo ∧
      fn_callingConv Fo' = fn_callingConv Fo ∧
      ∀ i k, hasAttr (fn_attributes Fo) i k = true →
             hasAttr (fn_attributes Fo') i k = true.

#[export] Instance keepsFunctions_preorder : PreOrder keepsFunctions.
Proof.
  split.
  - intros st F Fo HF. exists Fo. auto 10.
  - intros s1 s2 s3 H12 H23 F Fo HF.
    destruct (H12 F Fo HF) as (Fo2 & HF2 & ? & ? & ? & ? & Hat2).
    destruct (H23 F Fo2 HF2) as (Fo3 & HF3 & ? & ? & ? & ? & Hat3).
    exists Fo3. repeat split; try congruence. auto.
Qed.

(** The target triple and the data layout of the module are kept. *)
Definition keepsTarget : relation SPRVToLLVM := λ st st',
  mod_targetTriple (M st') = mod_targetTriple (M st) ∧
  mod_dataLayout (M st') = mod_dataLayout (M st).

#[export] Instance keepsTarget_preorder : PreOrder keepsTarget.
Proof.
  split.
  - intros st. split; reflexivity.
  - intros s1 s2 s3 [? ?] [? ?]. split; congruence.
Qed.

Lemma hasAttr_addAttr A i k i' k' :
  hasAttr A i k = true → hasAttr (addAttr A i' k') i k = true.
Proof.
  unfold addAttr. destruct (hasAttr A i' k'); [auto|].
  unfold hasAttr. rewrite !bool_decide_eq_true. set_solver.
Qed.

Lemma hasAttr_addAttr_same A i k : hasAttr (addAttr A i k) i k = true.
Proof.
  unfold addAttr. destruct (hasAttr A i k) eqn:E; [exact E|].
  unfold hasAttr. rewrite bool_decide_eq_true. set_solver.
Qed.

(** Nothing about the functions, the maps of functions or the target of
    the module is written. *)
Definition sameFunctions : relation SPRVToLLVM := λ st st',
  functions st' = functions st ∧
  mod_functions (M st') = mod_functions (M st) ∧
  mod_targetTriple (M st') = mod_targetTriple (M st) ∧
  mod_dataLayout (M st') = mod_dataLayout (M st) ∧
  FuncMap st' = FuncMap st ∧
  ErrorLog st' = ErrorLog st.

#[export] Instance sameFunctions_preorder : PreOrder sameFunctions.
Proof.
  split.
  - intros st. repeat split; reflexivity.
  - intros s1 s2 s3 (? & ? & ? & ? & ? & ?) (? & ? & ? & ? & ? & ?).
    repeat split; congruence.
Qed.

Lemma sameFunctions_keepsFunctions st st' :
  sameFunctions st st' → keepsFunctions st st'.
Proof.
  intros (HF & _) F Fo HFo. exists Fo. rewrite HF. auto 10.
Qed.

Lemma sameFunctions_keepsTarget st st' :
  sameFunctions st st' → keepsTarget st st'.
Proof. intros (_ & _ & ? & ? & _). split; assumption. Qed.

Lemma respects_eq {A} (m : Trans A) st a st' :
  m st = Some (a, st') → respects eq m → st' = st.
Proof. intros Hr Hm. symmetry. exact (Hm _ _ _ Hr). Qed.

Lemma respects_weaken {A} (R R' : relation SPRVToLLVM) (m : Trans A) :
  (∀ st st', R st st' → R' st st') → respects R m → respects R' m.
Proof. intros HR Hm st a st' Hr. apply HR, (Hm _ _ _ Hr). Qed.

Ltac same_modify :=
  apply respects_modify; intros ?; repeat split; reflexivity.

Lemma mapValue_sameFunctions BV V : respects sameFunctions (mapValue BV V).
Proof.
  unfold mapValue, replaceAllUsesWith, Instruction_dropAllReferences,
    Instruction_removeFromParent, GlobalVariable_dropAllReferences,
    GlobalVariable_removeFromParent, theInst, theGlobal.
  respects_steps; try same_modify.
Qed.

#[export] Hint Resolve mapValue_sameFunctions : respects.

Lemma insertAtEnd_sameFunctions I BB : respects sameFunctions (insertAtEnd I BB).
Proof.
  intros st h st' Hr. unfold insertAtEnd in Hr.
  destruct BB as [bb|]; [|discriminate].
  destruct (blocks st !! bb); [|discriminate].
  injection Hr as <- <-. repeat split; reflexivity.
Qed.

Lemma new_GlobalVariable_sameFunctions `{LLVM} T c L I Name AS :
  respects sameFunctions (new_GlobalVariable T c L I Name AS).
Proof.
  intros st h st' Hr. unfold new_GlobalVariable in Hr.
  injection Hr as <- <-. repeat split; reflexivity.
Qed.

Lemma updCall_sameFunctions h f : respects sameFunctions (updCall h f).
Proof.
  unfold updCall, theInst. respects_steps.
  destruct (f cc attrs name) as [[? ?] ?]. same_modify.
Qed.

#[export] Hint Resolve insertAtEnd_sameFunctions
  new_GlobalVariable_sameFunctions updCall_sameFunctions : respects.

Lemma createPlaceholder_sameFunctions `{Externals} BV BB :
  respects sameFunctions (createPlaceholder BV BB).
Proof. unfold createPlaceholder. respects_steps; same_modify. Qed.

#[export] Hint Resolve createPlaceholder_sameFunctions : respects.

Lemma mapValue_keepsFunctions BV V : respects keepsFunctions (mapValue BV V).
Proof.
  apply (respects_weaken sameFunctions);
    [apply sameFunctions_keepsFunctions|apply mapValue_sameFunctions].
Qed.

Lemma mapValue_keepsTarget BV V : respects keepsTarget (mapValue BV V).
Proof.
  apply (respects_weaken sameFunctions);
    [apply sameFunctions_keepsTarget|apply mapValue_sameFunctions].
Qed.

#[export] Hint Resolve mapValue_keepsFunctions mapValue_keepsTarget : respects.

(** The handle of a new object is the handle of no function. *)
Lemma newHandle_functions st : functions st !! newHandle st = None.
Proof.
  apply not_elem_of_dom. intros Hin.
  apply (is_fresh (allHandles st)). unfold allHandles. set_solver.
Qed.

Lemma newHandle_insts st : insts st !! newHandle st = None.
Proof.
  apply not_elem_of_dom. intros Hin.
  apply (is_fresh (allHandles st)). unfold allHandles. set_solver.
Qed.

Arguments nameInModule : simpl never.
Arguments creationAttributes : simpl never.

(** The function [Function::Create] leaves in the module. *)
Definition createdFunction `{LLVM} (st : SPRVToLLVM) (FT : Ty)
    (L : LinkageTypes) (Name : string) : Function :=
  mkFunction (nameInModule st Name) FT L CC_C
    (creationAttributes (nameInModule st Name)) [].

Lemma Function_Create_Some `{LLVM} FT L Name st h st' :
  Function_Create FT L Name st = Some (h, st') ↔
  h = newHandle st ∧
  st' = set_M (λ m, mkModule (mod_functions m ++ [h]) (mod_globals m)
                      (mod_targetTriple m) (mod_dataLayout m))
          (set_functions <[h := createdFunction st FT L Name]> st).
Proof.
  unfold Function_Create, createdFunction. split.
  - intros [= <- <-]. auto.
  - intros [-> ->]. reflexivity.
Qed.

(** The name the module gives is the name asked for exactly when no value
    of the module has it; otherwise it is a longer name, which no value of
    the module has. *)
Lemma nameInModule_free `{LLVM} st Name :
  Name ∉ moduleNames st → nameInModule st Name = Name.
Proof. intros Hn. unfold nameInModule. by rewrite bool_decide_eq_false_2. Qed.

Lemma nameInModule_fresh `{LLVM} st Name :
  nameInModule st Name ∉ moduleNames st.
Proof.
  unfold nameInModule. case_bool_decide as Hin; [|exact Hin].
  apply uniqueSuffix_fresh.
Qed.

Lemma nameInModule_taken `{LLVM} st Name :
  Name ∈ moduleNames st →
  nameInModule st Name = Name +:+ uniqueSuffix (moduleNames st) Name ∧
  nameInModule st Name ≠ Name.
Proof.
  intros Hin. assert (E : nameInModule st Name
                          = Name +:+ uniqueSuffix (moduleNames st) Name).
  { unfold nameInModule. by rewrite bool_decide_eq_true_2. }
  split; [exact E|]. intros E'. rewrite E' in E.
  apply (uniqueSuffix_fresh (moduleNames st) Name). by rewrite <- E.
Qed.

Lemma prefix_append (p s : string) : String.prefix p (p +:+ s) = true.
Proof.
  induction p as [|c p IH]; [by destruct s|].
  change (String c p +:+ s) with (String c (p +:+ s)). cbn.
  destruct (ascii_dec c c); [exact IH|congruence].
Qed.

Lemma prefix_refl (p : string) : String.prefix p p = true.
Proof.
  induction p as [|c p IH]; [reflexivity|]. cbn.
  destruct (ascii_dec c c); [exact IH|congruence].
Qed.

Lemma nameInModule_prefix `{LLVM} st Name :
  String.prefix Name (nameInModule st Name) = true.
Proof.
  unfold nameInModule. case_bool_decide;
    [apply prefix_append|apply prefix_refl].
Qed.

(** A prefix of the name asked for is a prefix of the name given. *)
Lemma nameInModule_keeps_prefix `{LLVM} st p Name :
  String.prefix p (nameInModule st (p +:+ Name)) = true.
Proof.
  unfold nameInModule. case_bool_decide; [|apply prefix_append].
  generalize (uniqueSuffix (moduleNames st) (p +:+ Name)). intros suffix.
  match goal with Hin : _ ∈ _ |- _ => clear Hin end.
  induction p as [|c p IH];
    [by destruct (("" +:+ Name) +:+ suffix)|].
  change ((String c p +:+ Name) +:+ suffix)
    with (String c ((p +:+ Name) +:+ suffix)). cbn.
  destruct (ascii_dec c c); [exact IH|congruence].
Qed.

Lemma Function_Create_keepsFunctions `{LLVM} FT L Name :
  respects keepsFunctions (Function_Create FT L Name).
Proof.
  intros st h st' Hr. apply Function_Create_Some in Hr as [-> ->].
  intros F Fo HF. exists Fo. cbn. rewrite lookup_insert_ne; [auto 10|].
  intros <-. rewrite newHandle_functions in HF. discriminate.
Qed.

Lemma Function_Create_keepsTarget `{LLVM} FT L Name :
  respects keepsTarget (Function_Create FT L Name).
Proof.
  intros st h st' Hr. apply Function_Create_Some in Hr as [-> ->].
  split; reflexivity.
Qed.

#[export] Hint Resolve Function_Create_keepsFunctions
  Function_Create_keepsTarget : respects.

Lemma updFunction_Some h f st u st' :
  updFunction h f st = Some (u, st') ↔
  ∃ Fo, functions st !! h = Some Fo ∧ st' = set_functions <[h := f Fo]> st.
Proof.
  unfold updFunction. split.
  - intros Hr. apply bind_Some in Hr as (Fo & s & HF & Hr).
    apply theFunction_Some in HF as [HF ->]. apply modify_Some in Hr. eauto.
  - intros (Fo & HF & ->). apply bind_Some. exists Fo, st.
    split; [apply theFunction_Some; auto|]. destruct u. reflexivity.
Qed.

Lemma updFunction_keepsTarget h f : respects keepsTarget (updFunction h f).
Proof.
  intros st u st' Hr. apply updFunction_Some in Hr as (Fo & _ & ->).
  split; reflexivity.
Qed.

#[export] Hint Resolve updFunction_keepsTarget : respects.

Lemma Function_addAttribute_keepsFunctions h i k :
  respects keepsFunctions (Function_addAttribute h i k).
Proof.
  intros st u st' Hr. apply updFunction_Some in Hr as (Fo & HFo & ->).
  intros F Fo0 HF. cbn. destruct (decide (h = F)) as [->|Hne].
  - rewrite lookup_insert_eq. rewrite HFo in HF. injection HF as <-.
    eexists. split; [reflexivity|]. cbn. repeat split; auto.
    intros. by apply hasAttr_addAttr.
  - rewrite lookup_insert_ne by exact Hne. exists Fo0. auto 10.
Qed.

Lemma Function_addFnAttr_keepsFunctions h k :
  respects keepsFunctions (Function_addFnAttr h k).
Proof. apply Function_addAttribute_keepsFunctions. Qed.

#[export] Hint Resolve Function_addAttribute_keepsFunctions
  Function_addFnAttr_keepsFunctions : respects.

Lemma mapValue_result BV V st R st' :
  mapValue BV V st = Some (R, st') → R = V.
Proof.
  unfold mapValue. intros Hr.
  apply bind_Some in Hr as (s0 & s & _ & Hr).
  apply bind_Some in Hr as ([] & s1 & _ & Hr).
  - apply mret_Some in Hr as [-> _]. reflexivity.
  - apply bind_Some in Hr as (u & s2 & _ & Hr).
    apply mret_Some in Hr as [-> _]. reflexivity.
Qed.

(** ** Functions *)

Section FunctionProperties.
Context `{Externals}.
Variable BM : SPRVModule.
Variable transValue :
  SPRVValue → option handle → option handle → bool → Trans Value.

(** What the declaration part gives a function that is declared in the
    state [st]: the name the module gives it, and its linkage, always;
    calling convention and no-unwind unless the name is that of an
    intrinsic. *)
Definition declaredAs (st : SPRVToLLVM) (BF : SPRVFunction) (Fo : Function)
  : Prop :=
  let IsKernel := isEntryPoint BM (getId (fun_value BF)) in
  fn_name Fo = nameInModule st (getName (fun_value BF)) ∧
  (if IsKernel then fn_linkage Fo = ExternalLinkage
   else SPIRSPRVLinkageTypeMap_rmap (getLinkageType BF)
        = Some (fn_linkage Fo)) ∧
  (if Function_isIntrinsic Fo then fn_callingConv Fo = CC_C
   else fn_callingConv Fo = (if IsKernel then SPIR_KERNEL else SPIR_FUNC) ∧
        hasAttr (fn_attributes Fo) FunctionIndex NoUnwind = true).

Lemma foreachFuncCtlMask_addFnAttr_keepsFunctions FCM F :
  respects keepsFunctions (foreachFuncCtlMask FCM (Function_addFnAttr F)).
Proof.
  unfold foreachFuncCtlMask. respects_steps.
Qed.

Lemma addParamAttrs_keepsFunctions F Index Kinds :
  respects keepsFunctions (addParamAttrs F Index Kinds).
Proof. unfold addParamAttrs. respects_steps. Qed.

Lemma declaredAs_kept st BF Fo Fo' :
  declaredAs st BF Fo →
  fn_name Fo' = fn_name Fo → fn_linkage Fo' = fn_linkage Fo →
  fn_callingConv Fo' = fn_callingConv Fo →
  (∀ i k, hasAttr (fn_attributes Fo) i k = true →
          hasAttr (fn_attributes Fo') i k = true) →
  declaredAs st BF Fo'.
Proof.
  unfold declaredAs, Function_isIntrinsic.
  intros (Hn & Hl & Hc) En El Ec Ha. rewrite En, El, Ec.
  split; [exact Hn|]. split; [exact Hl|].
  destruct (isIntrinsicName (fn_name Fo)); [exact Hc|].
  destruct Hc as [Hc Hu]. auto.
Qed.

Lemma transFunctionDecl_declares BF st F st' :
  transFunctionDecl BM BF st = Some (F, st') →
  functions st !! F = None ∧
  ∃ Fo, functions st' !! F = Some Fo ∧ declaredAs st BF Fo.
Proof.
  unfold transFunctionDecl. intros Hr.
  apply bind_Some in Hr as (L & s & HL & Hr).
  assert (HL' : s = st ∧
    if isEntryPoint BM (getId (fun_value BF)) then L = ExternalLinkage
    else SPIRSPRVLinkageTypeMap_rmap (getLinkageType BF) = Some L).
  { destruct (isEntryPoint BM (getId (fun_value BF))).
    - apply mret_Some in HL as [<- <-]. auto.
    - apply required_Some in HL as [-> ->]. auto. }
  destruct HL' as [-> HL']. clear HL.
  apply bind_Some in Hr as (FT & s & HFT & Hr).
  apply required_Some in HFT as [HFT ->].
  apply bind_Some in Hr as (u & s & HisF & Hr).
  apply assert_Some in HisF as [HisF ->].
  apply bind_Some in Hr as (Fn & s1 & Hcr & Hr).
  apply Function_Create_Some in Hcr as [-> ->].
  apply bind_Some in Hr as (V & s2 & Hmv & Hr).
  pose proof (mapValue_result _ _ _ _ _ Hmv) as ->.
  apply mapValue_sameFunctions in Hmv as (Hf2 & _). cbn in Hf2.
  apply bind_Some in Hr as (F' & s & HF' & Hr).
  apply required_Some in HF' as [HF' ->]. cbn in HF'. injection HF' as <-.
  apply bind_Some in Hr as (F' & s3 & Hmf & Hr).
  unfold mapFunction in Hmf.
  apply bind_Some in Hmf as (u1 & s & Hm & Hmf).
  apply modify_Some in Hm as ->. apply mret_Some in Hmf as [<- <-].
  apply bind_Some in Hr as (Fo & s & HFo & Hr).
  apply theFunction_Some in HFo as [HFo ->]. cbn in HFo.
  rewrite Hf2, lookup_insert_eq in HFo. injection HFo as <-.
  apply bind_Some in Hr as (u2 & s4 & Hattr & Hr).
  apply mret_Some in Hr as [<- <-].
  split; [apply newHandle_functions|].
  unfold Function_isIntrinsic, createdFunction in Hattr.
  cbn [fn_name] in Hattr.
  destruct (isIntrinsicName (nameInModule st (getName (fun_value BF))))
    eqn:Eintr; cbn [negb] in Hattr.
  - apply mret_Some in Hattr as [_ <-]. cbn. rewrite Hf2, lookup_insert_eq.
    eexists. split; [reflexivity|]. unfold declaredAs, Function_isIntrinsic.
    cbn. rewrite Eintr. auto.
  - apply bind_Some in Hattr as (u3 & s5 & Hcc & Hattr).
    apply updFunction_Some in Hcc as (Fo & HFo & ->). cbn in HFo.
    rewrite Hf2, lookup_insert_eq in HFo. injection HFo as <-.
    apply bind_Some in Hattr as (u4 & s6 & Hnu & Hattr).
    cbn [isFuncNoUnwind] in Hnu.
    apply updFunction_Some in Hnu as (Fo & HFo & ->). cbn in HFo.
    rewrite lookup_insert_eq in HFo. injection HFo as <-.
    apply foreachFuncCtlMask_addFnAttr_keepsFunctions in Hattr.
    edestruct Hattr as (Fo' & HFo' & En & _ & El & Ec & Ha).
    { cbn. apply lookup_insert_eq. }
    exists Fo'. split; [exact HFo'|].
    eapply declaredAs_kept; [|exact En|exact El|exact Ec|exact Ha].
    unfold declaredAs, Function_isIntrinsic. cbn. rewrite Eintr.
    split; [reflexivity|]. split; [exact HL'|]. split; [reflexivity|].
    apply hasAttr_addAttr_same.
Qed.

(** Every call of the operand translation keeps the functions that
    exist. *)
Hypothesis transValue_keepsFunctions :
  ∀ BV F BB CreatePlaceHolder,
    respects keepsFunctions (transValue BV F BB CreatePlaceHolder).

(** C2, as the code has it: a function that is translated for the first
    time is emitted under the name the module gives it, with external
    linkage when it is a kernel entry point and with the translated SPIR-V
    linkage otherwise; when the name of the emitted function does not begin
    with [llvm.], its calling convention is [spir_kernel] for a kernel and
    [spir_func] otherwise and it has the no-unwind attribute; an intrinsic
    keeps the default calling convention. *)
Theorem transFunction_convention (BF : SPRVFunction) (st st' : SPRVToLLVM)
    (F : handle) :
  FuncMap st !! getId (fun_value BF) = None →
  transFunction BM transValue BF st = Some (F, st') →
  ∃ Fo, functions st' !! F = Some Fo ∧
    let IsKernel := isEntryPoint BM (getId (fun_value BF)) in
    fn_name Fo = nameInModule st (getName (fun_value BF)) ∧
    (if IsKernel then fn_linkage Fo = ExternalLinkage
     else SPIRSPRVLinkageTypeMap_rmap (getLinkageType BF)
          = Some (fn_linkage Fo)) ∧
    (if isIntrinsicName (fn_name Fo) then fn_callingConv Fo = CC_C
     else fn_callingConv Fo = (if IsKernel then SPIR_KERNEL else SPIR_FUNC) ∧
          hasAttr (fn_attributes Fo) FunctionIndex NoUnwind = true).
Proof.
  intros Hnew Hr. unfold transFunction in Hr.
  rewrite (bind_eq _ _ st st st) in Hr by reflexivity. rewrite Hnew in Hr.
  apply bind_Some in Hr as (F0 & s1 & Hdecl & Hr).
  apply transFunctionDecl_declares in Hdecl as (_ & Fo & HFo & Hdecl).
  assert (Hrest : keepsFunctions s1 st' ∧ F = F0).
  { apply bind_Some in Hr as (Fo1 & s & HFo1 & Hr).
    apply theFunction_Some in HFo1 as [_ ->].
    apply bind_Some in Hr as (l1 & s2 & Hargs & Hr).
    apply bind_Some in Hr as (u1 & s3 & Hret & Hr).
    apply bind_Some in Hr as (l2 & s4 & Hbbs & Hr).
    apply bind_Some in Hr as (l3 & s5 & Hinsts & Hr).
    apply mret_Some in Hr as [<- <-]. split; [|reflexivity].
    transitivity s2.
    { revert Hargs. apply respects_mapT; [exact _|]. intros ArgNo.
      respects_steps. }
    transitivity s3.
    { revert Hret. apply addParamAttrs_keepsFunctions. }
    transitivity s4.
    { revert Hbbs. apply respects_mapT; [exact _|]. intros [BBB Insts].
      apply transValue_keepsFunctions. }
    revert Hinsts. apply respects_mapT; [exact _|]. intros [BBB Insts].
    respects_steps; apply transValue_keepsFunctions. }
  destruct Hrest as [Hkeep ->].
  destruct (Hkeep F0 Fo HFo) as (Fo' & HFo' & En & _ & El & Ec & Ha).
  exists Fo'. split; [exact HFo'|].
  eapply declaredAs_kept; eauto.
Qed.

End FunctionProperties.

(** ** The addressing model *)

Section TargetProperties.
Context `{Externals}.
Variable BM : SPRVModule.
Variable transValue :
  SPRVValue → option handle → option handle → bool → Trans Value.
Variables transKernelMetadata transFPContractMetadata transSourceLanguage
  transSourceExtension transCompilerOption transOCLBuiltinsFromVariables
  postProcessOCL : Trans bool.

(** [setTargetTriple] and [setDataLayout] are called by
    [transAddressingModel] only: the operand translation and the later
    passes keep the target of the module. *)
Hypothesis transValue_keepsTarget :
  ∀ BV F BB CreatePlaceHolder,
    respects keepsTarget (transValue BV F BB CreatePlaceHolder).
Hypothesis passes_keepTarget :
  Forall (respects keepsTarget)
    [transKernelMetadata; transFPContractMetadata; transSourceLanguage;
     transSourceExtension; transCompilerOption;
     transOCLBuiltinsFromVariables; postProcessOCL].

Lemma transFunction_keepsTarget BF :
  respects keepsTarget (transFunction BM transValue BF).
Proof.
  unfold transFunction, transFunctionDecl, mapFunction, addParamAttrs,
    foreachFuncCtlMask, Function_setCallingConv, Function_addFnAttr,
    Function_addAttribute, theFunction.
  respects_steps; try (apply respects_modify; intros ?; split; reflexivity);
    apply transValue_keepsTarget.
Qed.

Lemma transAddressingModel_run st :
  transAddressingModel BM st =
  match getAddressingModel BM with
  | SPRVAM_Physical64 =>
      Some (true, set_M (λ m, mkModule (mod_functions m) (mod_globals m)
                                SPIR_TARGETTRIPLE64 SPIR_DATALAYOUT64) st)
  | SPRVAM_Physical32 =>
      Some (true, set_M (λ m, mkModule (mod_functions m) (mod_globals m)
                                SPIR_TARGETTRIPLE32 SPIR_DATALAYOUT32) st)
  | SPRVAM_Logical => Some (true, st)
  | SPRVAM_Other w =>
      Some (false, set_ErrorLog
                     (λ _, mkErrorLog SPRVEC_InvalidAddressingModel
                             (invalidAddressingModelMsg w)) st)
  end.
Proof.
  unfold transAddressingModel. destruct (getAddressingModel BM); reflexivity.
Qed.

Lemma orReturnFalse_keepsTarget (pass rest : Trans bool) :
  respects keepsTarget pass → respects keepsTarget rest →
  respects keepsTarget (orReturnFalse pass rest).
Proof. intros Hp Hr. unfold orReturnFalse. respects_steps; assumption. Qed.

Lemma afterAddressingModel_keepsTarget :
  respects keepsTarget
    (mapT (λ '(BV, SC),
             if bool_decide (SC ≠ SPRVSC_Function)
             then transValue BV None None true;; mret tt
             else mret tt) (getVariables BM);;
     mapT (transFunction BM transValue) (getFunctions BM);;
     orReturnFalse transKernelMetadata (
     orReturnFalse transFPContractMetadata (
     orReturnFalse transSourceLanguage (
     orReturnFalse transSourceExtension (
     orReturnFalse transCompilerOption (
     orReturnFalse transOCLBuiltinsFromVariables (
     orReturnFalse postProcessOCL (
     mret true)))))))).
Proof.
  pose proof passes_keepTarget as HP.
  repeat match type of HP with
         | Forall _ (_ :: _) => apply Forall_cons in HP as [? HP]
         end.
  apply respects_bind; [exact _| |intros ?].
  { apply respects_mapT; [exact _|]. intros [BV SC].
    respects_steps. }
  apply respects_bind; [exact _| |intros ?].
  { apply respects_mapT; [exact _|]. apply transFunction_keepsTarget. }
  repeat (apply orReturnFalse_keepsTarget; [assumption|]).
  apply respects_mret; exact _.
Qed.

(** C3: [translate] sets the target triple of the module to
    [spir-unknown-unknown] with the 32-bit OpenCL SPIR data layout when the
    addressing model is Physical32, to [spir64-unknown-unknown] with the
    64-bit layout when it is Physical64, and leaves both as they are (unset,
    in a new module) when it is Logical; for any other addressing model it
    returns false with the invalid-addressing-model error in the error
    log.  The step that sets them, [transAddressingModel], always
    completes; the later steps keep what it has set. *)
Theorem translate_addressing_model (st : SPRVToLLVM) :
  let run := translate BM transValue transKernelMetadata
               transFPContractMetadata transSourceLanguage
               transSourceExtension transCompilerOption
               transOCLBuiltinsFromVariables postProcessOCL in
  (∀ w, getAddressingModel BM = SPRVAM_Other w →
     ∃ st', run st = Some (false, st') ∧
       ErrorCode (ErrorLog st') = SPRVEC_InvalidAddressingModel ∧
       M st' = M st) ∧
  (∀ ok st', run st = Some (ok, st') →
     match getAddressingModel BM with
     | SPRVAM_Physical32 =>
         mod_targetTriple (M st') = "spir-unknown-unknown" ∧
         mod_dataLayout (M st') = SPIR_DATALAYOUT32
     | SPRVAM_Physical64 =>
         mod_targetTriple (M st') = "spir64-unknown-unknown" ∧
         mod_dataLayout (M st') = SPIR_DATALAYOUT64
     | SPRVAM_Logical =>
         mod_targetTriple (M st') = mod_targetTriple (M st) ∧
         mod_dataLayout (M st') = mod_dataLayout (M st)
     | SPRVAM_Other _ => ok = false
     end) ∧
  (∃ ok st1, transAddressingModel BM st = Some (ok, st1) ∧
     match getAddressingModel BM with
     | SPRVAM_Physical32 =>
         ok = true ∧ mod_targetTriple (M st1) = "spir-unknown-unknown" ∧
         mod_dataLayout (M st1) = SPIR_DATALAYOUT32
     | SPRVAM_Physical64 =>
         ok = true ∧ mod_targetTriple (M st1) = "spir64-unknown-unknown" ∧
         mod_dataLayout (M st1) = SPIR_DATALAYOUT64
     | SPRVAM_Logical => ok = true ∧ st1 = st
     | SPRVAM_Other _ => ok = false
     end) ∧
  mod_targetTriple (M (initial (ErrorLog st))) = "" ∧
  mod_dataLayout (M (initial (ErrorLog st))) = "".
Proof.
  intros run. split; [|split; [|split; [|split; reflexivity]]];
    [| |rewrite transAddressingModel_run;
        destruct (getAddressingModel BM); eexists _, _;
        (split; [reflexivity|]); repeat split].
  - intros w Hw. eexists. unfold run, translate, orReturnFalse.
    rewrite bind_unfold, transAddressingModel_run, Hw. cbn.
    split; [reflexivity|]. split; reflexivity.
  - intros ok st' Hr. unfold run, translate, orReturnFalse in Hr.
    rewrite bind_unfold, transAddressingModel_run in Hr.
    destruct (getAddressingModel BM); cbn [negb] in Hr.
    + apply afterAddressingModel_keepsTarget in Hr. exact Hr.
    + apply afterAddressingModel_keepsTarget in Hr as [-> ->].
      split; reflexivity.
    + apply afterAddressingModel_keepsTarget in Hr as [-> ->].
      split; reflexivity.
    + apply mret_Some in Hr as [<- _]. reflexivity.
Qed.

End TargetProperties.

(** ** Builtin calls *)

(** The state with one more function, attached to the module. *)
Definition withDeclaration (F : handle) (Fo : Function) (st : SPRVToLLVM)
  : SPRVToLLVM :=
  set_M (λ m, mkModule (mod_functions m ++ [F]) (mod_globals m)
                (mod_targetTriple m) (mod_dataLayout m))
    (set_functions <[F := Fo]> st).

(** The declaration of a builtin as it is created in the state [st]:
    under the name the module gives it, external, with the device calling
    convention and the no-unwind attribute. *)
Definition builtinDeclaration `{LLVM} (st : SPRVToLLVM) (FT : Ty)
    (MangledName : string) : Function :=
  let Name := nameInModule st MangledName in
  mkFunction Name FT ExternalLinkage SPIR_FUNC
    (addAttr (creationAttributes Name) FunctionIndex NoUnwind) [].

Lemma updFunction_run h f st Fo :
  functions st !! h = Some Fo →
  updFunction h f st = Some (tt, set_functions <[h := f Fo]> st).
Proof. intros HF. apply updFunction_Some. eauto. Qed.

Lemma declareBuiltin_run `{Externals} FT MangledName st :
  declareBuiltin FT MangledName st =
  Some (newHandle st,
        withDeclaration (newHandle st)
          (builtinDeclaration st FT MangledName) st).
Proof.
  unfold declareBuiltin, Function_setCallingConv, Function_addFnAttr,
    Function_addAttribute.
  erewrite bind_eq by (apply Function_Create_Some; split; reflexivity).
  erewrite bind_eq by (apply updFunction_run; cbn; apply lookup_insert_eq).
  cbn [isFuncNoUnwind].
  erewrite bind_eq by (apply updFunction_run; cbn; apply lookup_insert_eq).
  unfold mret, Trans_ret, withDeclaration, set_M, set_functions. cbn.
  rewrite !insert_insert_eq. reflexivity.
Qed.

Lemma withDeclaration_keepsFunctions st Fo :
  keepsFunctions st (withDeclaration (newHandle st) Fo st).
Proof.
  intros F Fo0 HF. exists Fo0. cbn. rewrite lookup_insert_ne; [auto 10|].
  intros <-. rewrite newHandle_functions in HF. discriminate.
Qed.

Lemma getFunction_Some Name st r st' :
  getFunction Name st = Some (r, st') →
  st' = st ∧
  match r with
  | Some F => F ∈ mod_functions (M st) ∧
              ∃ Fo, functions st !! F = Some Fo ∧ fn_name Fo = Name
  | None => Name ≠ "" →
            ∀ F Fo, F ∈ mod_functions (M st) →
              functions st !! F = Some Fo → fn_name Fo ≠ Name
  end.
Proof.
  unfold getFunction. intros [= <- <-]. split; [reflexivity|].
  case_bool_decide as Hempty; [done|].
  destruct (List.find _ _) as [F|] eqn:E.
  - apply List.find_some in E as [Hin Hp]. split; [by apply list_elem_of_In|].
    destruct (functions st !! F) as [Fo|]; [|discriminate].
    apply bool_decide_eq_true_1 in Hp. eauto.
  - intros _ F Fo Hin HF Hn. apply list_elem_of_In in Hin.
    pose proof (List.find_none _ _ E F Hin) as Hp. cbn in Hp.
    rewrite HF in Hp. apply bool_decide_eq_false_1 in Hp. contradiction.
Qed.

Lemma insertAtEnd_Some I BB st h st' :
  insertAtEnd I BB st = Some (h, st') ↔
  ∃ bb B, BB = Some bb ∧ blocks st !! bb = Some B ∧ h = newHandle st ∧
    st' = set_blocks <[bb := mkBasicBlock (bb_name B) (bb_parent B)
                               (bb_insts B ++ [h])]>
            (set_insts <[h := mkInstNode I (Some bb)]> st).
Proof.
  unfold insertAtEnd. split.
  - destruct BB as [bb|]; [|discriminate].
    destruct (blocks st !! bb) as [B|] eqn:E; [|discriminate].
    intros [= <- <-]. eauto 6.
  - intros (bb & B & -> & -> & -> & ->). reflexivity.
Qed.

Lemma updCall_Some h f st u st' :
  updCall h f st = Some (u, st') ↔
  ∃ c args n cc at_ par,
    insts st !! h = Some (mkInstNode (CallInst c args n cc at_) par) ∧
    st' = set_insts
            <[h := mkInstNode (let '(cc', at', n') := f cc at_ n in
                               CallInst c args n' cc' at') par]> st.
Proof.
  unfold updCall. split.
  - intros Hr. apply bind_Some in Hr as ([I par] & s & Hnd & Hr).
    apply theInst_Some in Hnd as [Hnd ->]. cbn in Hr.
    destruct I; try discriminate.
    destruct (f cc attrs name) as [[cc' at'] n'] eqn:Ef.
    apply modify_Some in Hr as ->.
    exists callee, args, name, cc, attrs, par. rewrite Ef. auto.
  - intros (c & args & n & cc & at_ & par & Hnd & ->).
    apply bind_Some. eexists _, st. split; [apply theInst_Some; eauto|].
    cbn. destruct (f cc at_ n) as [[cc' at'] n']. destruct u. reflexivity.
Qed.

Lemma getParent_Some BB st P st' :
  getParent BB st = Some (P, st') ↔
  ∃ bb B, BB = Some bb ∧ blocks st !! bb = Some B ∧ P = bb_parent B ∧
          st' = st.
Proof.
  unfold getParent. split.
  - intros Hr. apply bind_Some in Hr as (bb & s & Hbb & Hr).
    apply required_Some in Hbb as [-> ->].
    apply bind_Some in Hr as (s0 & s & Hg & Hr).
    apply get_Some in Hg as [-> ->].
    apply bind_Some in Hr as (B & s & HB & Hr).
    apply required_Some in HB as [HB ->].
    apply mret_Some in Hr as [<- <-]. eauto 6.
  - intros (bb & B & -> & HB & -> & ->). cbn.
    rewrite bind_unfold. cbn. rewrite (bind_eq _ _ st st st) by reflexivity.
    rewrite HB. reflexivity.
Qed.

(** The call as [setAttrByCalledFunc] leaves it: calling convention and
    attributes of the callee, unless the callee is an intrinsic. *)
Definition callAfterSetAttr (Fo : Function) (I : Instruction) : Instruction :=
  match I with
  | CallInst c args n cc at_ =>
      if Function_isIntrinsic Fo then I
      else CallInst c args n (fn_callingConv Fo) (fn_attributes Fo)
  | _ => I
  end.

Lemma setAttrByCalledFunc_Some Call st u st' :
  setAttrByCalledFunc Call st = Some (u, st') →
  ∃ c args n cc at_ par F Fo,
    insts st !! Call = Some (mkInstNode (CallInst c args n cc at_) par) ∧
    dyn_cast_Function c = Some F ∧ functions st !! F = Some Fo ∧
    st' = set_insts
            <[Call := mkInstNode (callAfterSetAttr Fo
                                    (CallInst c args n cc at_)) par]> st.
Proof.
  unfold setAttrByCalledFunc. intros Hr.
  apply bind_Some in Hr as ([I par] & s & Hnd & Hr).
  apply theInst_Some in Hnd as [Hnd ->].
  apply bind_Some in Hr as (F & s & HF & Hr).
  apply required_Some in HF as [HF ->]. cbn in HF.
  destruct I; try discriminate. cbn in HF.
  apply bind_Some in Hr as (Fo & s & HFo & Hr).
  apply theFunction_Some in HFo as [HFo ->].
  exists callee, args, name, cc, attrs, par, F, Fo.
  split; [exact Hnd|]. split; [exact HF|]. split; [exact HFo|].
  unfold callAfterSetAttr. destruct (Function_isIntrinsic Fo).
  - apply mret_Some in Hr as [_ <-].
    destruct st; unfold set_insts; cbn in *. f_equal.
    symmetry. apply insert_id. exact Hnd.
  - apply bind_Some in Hr as (u1 & s1 & Hcc & Hr).
    apply updCall_Some in Hcc as (c & a1 & n1 & cc1 & at1 & p1 & H1 & ->).
    rewrite Hnd in H1. injection H1 as <- <- <- <- <- <-.
    apply updCall_Some in Hr as (c & a1 & n1 & cc1 & at1 & p1 & H1 & ->).
    cbn in H1. rewrite lookup_insert_eq in H1.
    injection H1 as <- <- <- <- <- <-.
    destruct st; unfold set_insts; cbn. f_equal.
    rewrite insert_insert_eq. reflexivity.
Qed.

(** The call [Call] to [Func] in block [bb], as emitted: its arguments and
    name, and the calling convention and attributes [setAttrByCalledFunc]
    gave it. *)
Definition emittedCall (st : SPRVToLLVM) (Call Func : handle)
    (Args : list (option Value)) (Name : string) (bb : handle) : Prop :=
  ∃ Fo, functions st !! Func = Some Fo ∧
    insts st !! Call =
      Some (mkInstNode (callAfterSetAttr Fo
                          (CallInst (Some (FunctionV Func)) Args Name CC_C []))
              (Some bb)).

(** The state with one more instruction: [Call] is the instruction [I],
    appended to the block [bb], which was [B]; nothing else is written. *)
Definition withInstruction (Call : handle) (I : Instruction) (bb : handle)
    (B : BasicBlock) (st : SPRVToLLVM) : SPRVToLLVM :=
  set_blocks <[bb := mkBasicBlock (bb_name B) (bb_parent B)
                       (bb_insts B ++ [Call])]>
    (set_insts <[Call := mkInstNode I (Some bb)]> st).

Lemma set_insts_withInstruction Call I I' bb B st :
  set_insts <[Call := mkInstNode I' (Some bb)]>
    (withInstruction Call I bb B st)
  = withInstruction Call I' bb B st.
Proof.
  destruct st. unfold withInstruction, set_insts, set_blocks. cbn.
  by rewrite insert_insert_eq.
Qed.

Section BuiltinCalls.
Context `{Externals}.
Variable BM : SPRVModule.
Variable transValue :
  SPRVValue → option handle → option handle → bool → Trans Value.

(** The same steps, with the whole state they leave: one instruction more,
    at the end of the block. *)
Lemma call_emitted_state Func Args Name BB st0 Call s1 u1 s2 u2 st' :
  CallInst_Create Func Args "" BB st0 = Some (Call, s1) →
  CallInst_setName Call Name s1 = Some (u1, s2) →
  setAttrByCalledFunc Call s2 = Some (u2, st') →
  ∃ bb B Fo, BB = Some bb ∧ blocks st0 !! bb = Some B ∧
    Call = newHandle st0 ∧ functions st0 !! Func = Some Fo ∧
    st' = withInstruction Call
            (callAfterSetAttr Fo
               (CallInst (Some (FunctionV Func)) Args Name CC_C []))
            bb B st0.
Proof.
  intros Hc Hn Ha.
  apply insertAtEnd_Some in Hc as (bb & B & -> & HB & -> & ->).
  apply updCall_Some in Hn as (c & a & n & cc & at_ & par & Hnd & ->).
  cbn in Hnd. rewrite lookup_insert_eq in Hnd.
  injection Hnd as <- <- <- <- <- <-.
  apply setAttrByCalledFunc_Some in Ha
    as (c & a & n & cc & at_ & par & F & Fo & Hnd & HF & HFo & ->).
  cbn in Hnd. rewrite lookup_insert_eq in Hnd.
  injection Hnd as <- <- <- <- <- <-. cbn in HF. injection HF as <-.
  cbn in HFo. exists bb, B, Fo. repeat split; auto.
  destruct st0. unfold withInstruction, set_insts, set_blocks. cbn.
  by rewrite !insert_insert_eq.
Qed.

(** The call a builtin is lowered to: [CallInst::Create], [setName],
    [setAttrByCalledFunc]. *)
Lemma call_emitted Func Args Name BB st0 Call s1 u1 s2 u2 st' :
  CallInst_Create Func Args "" BB st0 = Some (Call, s1) →
  CallInst_setName Call Name s1 = Some (u1, s2) →
  setAttrByCalledFunc Call s2 = Some (u2, st') →
  ∃ bb, BB = Some bb ∧ is_Some (blocks st0 !! bb) ∧
    Call = newHandle st0 ∧ functions st' = functions st0 ∧
    emittedCall st' Call Func Args Name bb ∧
    ∀ h, h ≠ Call → insts st' !! h = insts st0 !! h.
Proof.
  intros Hc Hn Ha.
  apply insertAtEnd_Some in Hc as (bb & B & -> & HB & -> & ->).
  apply updCall_Some in Hn as (c & a & n & cc & at_ & par & Hnd & ->).
  cbn in Hnd. rewrite lookup_insert_eq in Hnd.
  injection Hnd as <- <- <- <- <- <-.
  apply setAttrByCalledFunc_Some in Ha
    as (c & a & n & cc & at_ & par & F & Fo & Hnd & HF & HFo & ->).
  cbn in Hnd. rewrite lookup_insert_eq in Hnd.
  injection Hnd as <- <- <- <- <- <-. cbn in HF. injection HF as <-.
  cbn in HFo. exists bb. split; [reflexivity|]. split; [eauto|].
  split; [reflexivity|]. split; [reflexivity|]. split.
  - exists Fo. split; [exact HFo|]. cbn. apply lookup_insert_eq.
  - intros h Hh. cbn. rewrite !lookup_insert_ne by congruence. reflexivity.
Qed.

Lemma transOCLBuiltinFromInstPostproc_inv BI Call BB st Inst st' :
  transOCLBuiltinFromInstPostproc BI Call BB st = Some (Inst, st') →
  functions st' = functions st ∧
  (∀ h, h ≠ newHandle st → insts st' !! h = insts st !! h) ∧
  if isCmpOpCode (getOpCode BI) then
    ∃ BT, valueType BI = Some BT ∧
      if isTypeVectorOrScalarBool BT then
        ∃ T bb, transType BT = Some T ∧ BB = Some bb ∧
          Inst = newHandle st ∧
          insts st' !! Inst =
            Some (mkInstNode (CastInst Trunc (Some (InstructionV Call)) T "cvt")
                    (Some bb))
      else Inst = Call ∧ st' = st
  else Inst = Call ∧ st' = st.
Proof.
  unfold transOCLBuiltinFromInstPostproc. intros Hr.
  destruct (isCmpOpCode (getOpCode BI)).
  - apply bind_Some in Hr as (BT & s & HBT & Hr).
    apply required_Some in HBT as [HBT ->].
    destruct (isTypeVectorOrScalarBool BT) eqn:Eb.
    + apply bind_Some in Hr as (T & s & HT & Hr).
      apply required_Some in HT as [HT ->].
      apply insertAtEnd_Some in Hr as (bb & B & -> & HB & -> & ->).
      split; [reflexivity|]. split.
      { intros h Hh. cbn. rewrite lookup_insert_ne by congruence.
        reflexivity. }
      exists BT. split; [exact HBT|]. rewrite Eb.
      exists T, bb. repeat split; auto. cbn. apply lookup_insert_eq.
    + apply mret_Some in Hr as [<- <-]. split; [reflexivity|].
      split; [reflexivity|]. exists BT. rewrite Eb. auto.
  - apply mret_Some in Hr as [<- <-]. auto.
Qed.

(** [transOCLBuiltinFromInst(FuncName, BI, BB)], step by step. *)
Lemma transOCLBuiltinFromInstNamed_inv FuncName BI BB st Inst st' :
  transOCLBuiltinFromInstNamed transValue FuncName BI BB st
    = Some (Inst, st') →
  ∃ Func s1 bb B Args s2 Call,
    transOCLBuiltinFromInstCallee FuncName BI st = Some (Func, s1) ∧
    BB = Some bb ∧ blocks s1 !! bb = Some B ∧
    transValueVec transValue (getOperands BI) (bb_parent B) BB s1
      = Some (Args, s2) ∧
    functions st' = functions s2 ∧
    emittedCall st' Call Func (Some <$> Args) (getName BI) bb ∧
    if isCmpOpCode (getOpCode BI) then
      ∃ BT, valueType BI = Some BT ∧
        if isTypeVectorOrScalarBool BT then
          ∃ T, transType BT = Some T ∧
            insts st' !! Inst =
              Some (mkInstNode
                      (CastInst Trunc (Some (InstructionV Call)) T "cvt")
                      (Some bb))
        else Inst = Call
    else Inst = Call.
Proof.
  unfold transOCLBuiltinFromInstNamed. intros Hr.
  apply bind_Some in Hr as (Func & s1 & Hcallee & Hr).
  apply bind_Some in Hr as (P & s & HP & Hr).
  apply getParent_Some in HP as (bb & B & -> & HB & -> & ->).
  apply bind_Some in Hr as (Args & s2 & Hargs & Hr).
  apply bind_Some in Hr as (Call & s3 & Hcall & Hr).
  apply bind_Some in Hr as (u1 & s4 & Hname & Hr).
  apply bind_Some in Hr as (u2 & s5 & Hattr & Hr).
  destruct (call_emitted _ _ _ _ _ _ _ _ _ _ _ Hcall Hname Hattr)
    as (bb' & [= <-] & _ & -> & Hf5 & (Fo & HFo & Hnode) & _).
  apply transOCLBuiltinFromInstPostproc_inv in Hr as (Hf' & Hkeep & Hpost).
  assert (Hcall' : insts s5 !! newHandle s2 = insts st' !! newHandle s2 ∨
                   newHandle s2 = newHandle s5).
  { destruct (decide (newHandle s2 = newHandle s5)); [auto|].
    left. symmetry. apply Hkeep. assumption. }
  destruct Hcall' as [Hcall'|Heq].
  2:{ exfalso. rewrite Heq in Hnode.
      rewrite newHandle_insts in Hnode. discriminate. }
  exists Func, s1, bb, B, Args, s2, (newHandle s2).
  split; [exact Hcallee|]. split; [reflexivity|]. split; [exact HB|].
  split; [exact Hargs|]. split; [congruence|]. split.
  { exists Fo. split; [congruence|]. rewrite <- Hcall'. exact Hnode. }
  destruct (isCmpOpCode (getOpCode BI)); [|tauto].
  destruct Hpost as (BT & HBT & Hpost). exists BT. split; [exact HBT|].
  destruct (isTypeVectorOrScalarBool BT); [|tauto].
  destruct Hpost as (T & bb' & HT & [= <-] & -> & Hcast). eauto.
Qed.

(** [transOCLBuiltinFromInst(FuncName, BI, BB)] for an instruction that is
    no compare: the callee, the operands, and one instruction, the call. *)
Lemma transOCLBuiltinFromInstNamed_state FuncName BI BB st Inst st' :
  isCmpOpCode (getOpCode BI) = false →
  transOCLBuiltinFromInstNamed transValue FuncName BI BB st
    = Some (Inst, st') →
  ∃ Func s1 bb B0 Args s2 B Fo,
    transOCLBuiltinFromInstCallee FuncName BI st = Some (Func, s1) ∧
    BB = Some bb ∧ blocks s1 !! bb = Some B0 ∧
    transValueVec transValue (getOperands BI) (bb_parent B0) BB s1
      = Some (Args, s2) ∧
    blocks s2 !! bb = Some B ∧ functions s2 !! Func = Some Fo ∧
    Inst = newHandle s2 ∧
    st' = withInstruction Inst
            (callAfterSetAttr Fo
               (CallInst (Some (FunctionV Func)) (Some <$> Args) (getName BI)
                  CC_C []))
            bb B s2.
Proof.
  intros Hcmp. unfold transOCLBuiltinFromInstNamed. intros Hr.
  apply bind_Some in Hr as (Func & s1 & Hcallee & Hr).
  apply bind_Some in Hr as (P & s & HP & Hr).
  apply getParent_Some in HP as (bb & B0 & -> & HB0 & -> & ->).
  apply bind_Some in Hr as (Args & s2 & Hargs & Hr).
  apply bind_Some in Hr as (Call & s3 & Hcall & Hr).
  apply bind_Some in Hr as (u1 & s4 & Hname & Hr).
  apply bind_Some in Hr as (u2 & s5 & Hattr & Hr).
  destruct (call_emitted_state _ _ _ _ _ _ _ _ _ _ _ Hcall Hname Hattr)
    as (bb' & B & Fo & [= <-] & HB & -> & HFo & ->).
  unfold transOCLBuiltinFromInstPostproc in Hr. rewrite Hcmp in Hr.
  apply mret_Some in Hr as [<- <-].
  exists Func, s1, bb, B0, Args, s2, B, Fo. repeat split; auto.
Qed.

End BuiltinCalls.

Section Callees.
Context `{Externals}.
Variable BM : SPRVModule.

Lemma transOCLBuiltinFromInstPreproc_pure BI R0 st R st' :
  transOCLBuiltinFromInstPreproc BI R0 st = Some (R, st') →
  st' = st ∧ ∀ s, transOCLBuiltinFromInstPreproc BI R0 s = Some (R, s).
Proof.
  unfold transOCLBuiltinFromInstPreproc.
  destruct (valueType BI) as [BT|].
  - destruct (isCmpOpCode (getOpCode BI)).
    + destruct (isTypeBool BT).
      * intros Hr. apply mret_Some in Hr as [<- <-]. auto.
      * destruct (isTypeVectorBool BT); [|discriminate].
        intros Hr. apply bind_Some in Hr as (n & s & Hn & Hr).
        apply required_Some in Hn as [Hn ->].
        apply mret_Some in Hr as [<- <-]. split; [reflexivity|].
        intros s. rewrite Hn. reflexivity.
    + intros Hr. apply mret_Some in Hr as [<- <-]. auto.
  - intros Hr. apply mret_Some in Hr as [<- <-]. auto.
Qed.

(** The callee of a call to [MangledName] at type [FT], by the rule of
    [transOCLBuiltinFromInst]: the function of that name in the module when
    it has type [FT], a new declaration otherwise. *)
Definition calleeByNameAndType (FT : Ty) (MangledName : string)
    (st : SPRVToLLVM) (Func : handle) (s1 : SPRVToLLVM) : Prop :=
  ∃ r, getFunction MangledName st = Some (r, st) ∧
    match r with
    | Some F0 =>
        ∃ Fo0, functions st !! F0 = Some Fo0 ∧
          if decide (fn_type Fo0 = FT) then Func = F0 ∧ s1 = st
          else Func = newHandle st ∧
               s1 = withDeclaration Func
                      (builtinDeclaration st FT MangledName) st
    | None =>
        Func = newHandle st ∧
        s1 = withDeclaration Func (builtinDeclaration st FT MangledName) st
    end.

(** The callee by the rule of the atomics, the barriers and the extended
    instructions: the function of that name in the module whatever its
    type, a new declaration when there is none. *)
Definition calleeByName (FT : Ty) (MangledName : string)
    (st : SPRVToLLVM) (Func : handle) (s1 : SPRVToLLVM) : Prop :=
  ∃ r, getFunction MangledName st = Some (r, st) ∧
    match r with
    | Some F0 => Func = F0 ∧ s1 = st
    | None =>
        Func = newHandle st ∧
        s1 = withDeclaration Func (builtinDeclaration st FT MangledName) st
    end.

Lemma getFunction_run Name st : ∃ r, getFunction Name st = Some (r, st).
Proof. unfold getFunction. eauto. Qed.

Lemma calleeByName_intro FT MangledName st Func s1 :
  (Func0 ← getFunction MangledName;
   match Func0 with
   | Some F => mret F
   | None => declareBuiltin FT MangledName
   end) st = Some (Func, s1) →
  calleeByName FT MangledName st Func s1.
Proof.
  intros Hr. destruct (getFunction_run MangledName st) as [r Hg].
  rewrite (bind_eq _ _ _ _ _ Hg) in Hr. exists r. split; [exact Hg|].
  destruct r as [F0|].
  - apply mret_Some in Hr as [<- <-]. auto.
  - rewrite declareBuiltin_run in Hr. injection Hr as <- <-. auto.
Qed.

(** In either way the callee is a function of the module: the one found
    has the mangled name; a declared one is new, is the builtin declaration
    and has the name the module gives it. *)
Lemma calleeByName_function FT MangledName st Func s1 :
  calleeByName FT MangledName st Func s1 →
  ∃ Fo, functions s1 !! Func = Some Fo ∧
        (fn_name Fo = MangledName ∨
         fn_name Fo = nameInModule st MangledName) ∧
        Func ∈ mod_functions (M s1) ∧ keepsFunctions st s1.
Proof.
  intros (r & Hg & Hr). apply getFunction_Some in Hg as [_ Hg].
  destruct r as [F0|].
  - destruct Hr as [-> ->]. destruct Hg as (Hin & Fo & HFo & Hn).
    exists Fo. repeat split; auto. reflexivity.
  - destruct Hr as [-> ->]. eexists. cbn. rewrite lookup_insert_eq.
    split; [reflexivity|]. split; [by right|]. split.
    + set_solver.
    + apply withDeclaration_keepsFunctions.
Qed.

Lemma calleeByNameAndType_function FT MangledName st Func s1 :
  calleeByNameAndType FT MangledName st Func s1 →
  ∃ Fo, functions s1 !! Func = Some Fo ∧
        (fn_name Fo = MangledName ∨
         fn_name Fo = nameInModule st MangledName) ∧
        fn_type Fo = FT ∧ Func ∈ mod_functions (M s1) ∧
        keepsFunctions st s1.
Proof.
  intros (r & Hg & Hr). apply getFunction_Some in Hg as [_ Hg].
  assert (Hnew : ∀ Func s1, Func = newHandle st →
    s1 = withDeclaration Func (builtinDeclaration st FT MangledName) st →
    ∃ Fo, functions s1 !! Func = Some Fo ∧
          (fn_name Fo = MangledName ∨
           fn_name Fo = nameInModule st MangledName) ∧
          fn_type Fo = FT ∧ Func ∈ mod_functions (M s1) ∧
          keepsFunctions st s1).
  { intros F s -> ->. eexists. cbn. rewrite lookup_insert_eq.
    split; [reflexivity|]. split; [by right|]. split; [reflexivity|].
    split; [set_solver|apply withDeclaration_keepsFunctions]. }
  destruct r as [F0|].
  - destruct Hg as (Hin & Fo & HFo & Hn).
    destruct Hr as (Fo0 & HFo0 & Hr). rewrite HFo in HFo0.
    injection HFo0 as <-. destruct (decide (fn_type Fo = FT)) as [Ht|Ht].
    + destruct Hr as [-> ->]. exists Fo. repeat split; auto. reflexivity.
    + destruct Hr as [-> ->]. apply Hnew; reflexivity.
  - destruct Hr as [-> ->]. apply Hnew; reflexivity.
Qed.

(** The two cases of the callee by name and type, spelled out: the function
    found, which has the name and the type, or a new declaration, which is
    made when the function found under the name, if any, has another
    type. *)
Lemma calleeByNameAndType_cases FT MangledName st Func s1 :
  calleeByNameAndType FT MangledName st Func s1 →
  (s1 = st ∧ Func ∈ mod_functions (M st) ∧
   ∃ Fo, functions st !! Func = Some Fo ∧ fn_name Fo = MangledName ∧
         fn_type Fo = FT) ∨
  (functions st !! Func = None ∧
   s1 = withDeclaration Func (builtinDeclaration st FT MangledName) st ∧
   ∀ F0 Fo0, getFunction MangledName st = Some (Some F0, st) →
     functions st !! F0 = Some Fo0 → fn_type Fo0 ≠ FT).
Proof.
  intros (r & Hg & Hr). pose proof Hg as Hg'.
  apply getFunction_Some in Hg' as [_ Hg'].
  assert (Hnew : Func = newHandle st →
    s1 = withDeclaration Func (builtinDeclaration st FT MangledName) st →
    (∀ F0 Fo0, getFunction MangledName st = Some (Some F0, st) →
       functions st !! F0 = Some Fo0 → fn_type Fo0 ≠ FT) →
    functions st !! Func = None ∧
    s1 = withDeclaration Func (builtinDeclaration st FT MangledName) st ∧
    ∀ F0 Fo0, getFunction MangledName st = Some (Some F0, st) →
      functions st !! F0 = Some Fo0 → fn_type Fo0 ≠ FT).
  { intros -> -> Hc. split; [apply newHandle_functions|]. auto. }
  destruct r as [F0|].
  - destruct Hg' as (Hin & Fo & HFo & Hn).
    destruct Hr as (Fo0 & HFo0 & Hr). rewrite HFo in HFo0.
    injection HFo0 as <-. destruct (decide (fn_type Fo = FT)) as [Ht|Ht].
    + destruct Hr as [-> ->]. left. eauto 10.
    + destruct Hr as [-> ->]. right. apply Hnew; [reflexivity..|].
      intros F1 Fo1 Hg1 HFo1. rewrite Hg in Hg1. injection Hg1 as <-.
      rewrite HFo in HFo1. by injection HFo1 as <-.
  - destruct Hr as [-> ->]. right. apply Hnew; [reflexivity..|].
    intros F1 Fo1 Hg1. rewrite Hg in Hg1. discriminate.
Qed.

(** The name of a declared builtin is the mangled name, unless a value of
    the module has that name; then it is the mangled name made unique. *)
Lemma builtinDeclaration_name FT MangledName st :
  let Fo := builtinDeclaration st FT MangledName in
  fn_name Fo = MangledName ∨
  (MangledName ∈ moduleNames st ∧
   fn_name Fo = MangledName +:+ uniqueSuffix (moduleNames st) MangledName ∧
   fn_name Fo ≠ MangledName).
Proof.
  cbn. destruct (decide (MangledName ∈ moduleNames st)) as [Hin|Hin].
  - right. split; [exact Hin|]. by apply nameInModule_taken.
  - left. by apply nameInModule_free.
Qed.

(** The callee of [transOCLBuiltinFromInst(FuncName, BI, BB)]. *)
Lemma transOCLBuiltinFromInstCallee_inv FuncName BI st Func s1 :
  transOCLBuiltinFromInstCallee FuncName BI st = Some (Func, s1) →
  ∃ OpTys ArgTys0 RetTy0 RetTy,
    getOperandTypes BI = Some OpTys ∧
    transTypeVector OpTys = Some ArgTys0 ∧
    match valueType BI with
    | Some BT => transType BT = Some RetTy0
    | None => RetTy0 = VoidTy
    end ∧
    (∀ s, transOCLBuiltinFromInstPreproc BI RetTy0 s = Some (RetTy, s)) ∧
    let ArgTys := List.map (λ I, if isFunctionTy I
                                 then PointerTy I (addrSpaceNumber SPIRAS_Private)
                                 else I) ArgTys0 in
    let MangledName := if negb (existsb isFunctionTy ArgTys0)
                       then mangle SPRVBIS_OpenCL20 FuncName ArgTys
                       else decorateSPRVFunction FuncName in
    calleeByNameAndType (FunctionTy RetTy ArgTys false) MangledName
      st Func s1.
Proof.
  unfold transOCLBuiltinFromInstCallee. intros Hr.
  apply bind_Some in Hr as (OpTys & s & H1 & Hr).
  apply required_Some in H1 as [H1 ->].
  apply bind_Some in Hr as (ArgTys0 & s & H2 & Hr).
  apply required_Some in H2 as [H2 ->].
  apply bind_Some in Hr as (RetTy0 & s & H3 & Hr).
  assert (H3' : s = st ∧ match valueType BI with
                         | Some BT => transType BT = Some RetTy0
                         | None => RetTy0 = VoidTy
                         end).
  { destruct (valueType BI).
    - apply required_Some in H3 as [? ->]. auto.
    - apply mret_Some in H3 as [<- <-]. auto. }
  destruct H3' as [-> H3']. clear H3.
  apply bind_Some in Hr as (RetTy & s & H4 & Hr).
  apply transOCLBuiltinFromInstPreproc_pure in H4 as [-> H4].
  exists OpTys, ArgTys0, RetTy0, RetTy.
  split; [exact H1|]. split; [exact H2|]. split; [exact H3'|].
  split; [exact H4|]. cbn zeta.
  destruct (getFunction_run
              (if negb (existsb isFunctionTy ArgTys0)
               then mangle SPRVBIS_OpenCL20 FuncName
                      (List.map (λ I, if isFunctionTy I
                                      then PointerTy I
                                             (addrSpaceNumber SPIRAS_Private)
                                      else I) ArgTys0)
               else decorateSPRVFunction FuncName) st) as [r Hg].
  rewrite (bind_eq _ _ _ _ _ Hg) in Hr. exists r. split; [exact Hg|].
  destruct r as [F0|].
  - apply bind_Some in Hr as (Fo0 & s & HFo0 & Hr).
    apply theFunction_Some in HFo0 as [HFo0 ->]. exists Fo0.
    split; [exact HFo0|].
    destruct (decide (fn_type Fo0 = _)) as [Ht|Ht].
    + rewrite bool_decide_eq_false_2 in Hr by auto.
      apply mret_Some in Hr as [<- <-]. auto.
    + rewrite bool_decide_eq_true_2 in Hr by auto.
      rewrite declareBuiltin_run in Hr. injection Hr as <- <-. auto.
  - rewrite declareBuiltin_run in Hr. injection Hr as <- <-. auto.
Qed.

End Callees.

Section InstructionBuiltins.
Context `{Externals}.
Variable BM : SPRVModule.
Variable transValue :
  SPRVValue → option handle → option handle → bool → Trans Value.

(** Every call of the operand translation keeps the functions that
    exist. *)
Hypothesis transValue_keepsFunctions :
  ∀ BV F BB CreatePlaceHolder,
    respects keepsFunctions (transValue BV F BB CreatePlaceHolder).

Lemma transValueVec_keepsFunctions BVs F BB :
  respects keepsFunctions (transValueVec transValue BVs F BB).
Proof. unfold transValueVec. respects_steps. Qed.

Lemma transOCLBuiltinFromInst_inv BI BB st Inst st' :
  transOCLBuiltinFromInst transValue BI BB st = Some (Inst, st') →
  ∃ FuncName, getOCLBuiltinName BI st = Some (FuncName, st) ∧
    transOCLBuiltinFromInstNamed transValue FuncName BI BB st
      = Some (Inst, st').
Proof.
  unfold transOCLBuiltinFromInst. intros Hr.
  apply bind_Some in Hr as (u & s & Ha & Hr).
  apply assert_Some in Ha as [_ ->].
  apply bind_Some in Hr as (FuncName & s & Hn & Hr).
  assert (s = st) as ->.
  { revert Hn. unfold getOCLBuiltinName, getOCLConvertBuiltinName.
    destruct (isCvtOpCode (getOpCode BI)).
    - intros Hn. run_inv. reflexivity.
    - destruct (bool_decide _); intros Hn; run_inv; reflexivity. }
  eauto.
Qed.

(** The lowered form of a result type that is bool or a vector of bool, and
    its widened form. *)
Definition boolTypes (BT : SPRVType) (T W : Ty) : Prop :=
  match BT with
  | TypeBool => T = Int1Ty ∧ W = Int32Ty
  | TypeVector TypeBool n => T = VectorTy Int1Ty n ∧ W = VectorTy Int32Ty n
  | _ => False
  end.

(** C4: a compare instruction that is lowered as a builtin call and whose
    result type is bool or a vector of bool is emitted as a call to a
    function that returns i32, or a vector of i32 of the same component
    count, followed by a truncation of the result of the call to the
    original bool type. *)
Theorem compare_builtin_is_widened_then_truncated
    (BI : SPRVValue) (BB : option handle) (BT : SPRVType)
    (st st' : SPRVToLLVM) (Inst : handle) :
  isCmpOpCode (getOpCode BI) = true →
  valueType BI = Some BT →
  isTypeVectorOrScalarBool BT = true →
  transOCLBuiltinFromInst transValue BI BB st = Some (Inst, st') →
  ∃ T W Call Func Fo ArgTys Args bb,
    boolTypes BT T W ∧
    emittedCall st' Call Func Args (getName BI) bb ∧
    functions st' !! Func = Some Fo ∧
    fn_type Fo = FunctionTy W ArgTys false ∧
    insts st' !! Inst =
      Some (mkInstNode (CastInst Trunc (Some (InstructionV Call)) T "cvt")
              (Some bb)).
Proof.
  intros Hcmp HBT Hbool Hr.
  apply transOCLBuiltinFromInst_inv in Hr as (FuncName & _ & Hr).
  apply transOCLBuiltinFromInstNamed_inv in Hr
    as (Func & s1 & bb & B & Args & s2 & Call & Hcallee & -> & HB & Hargs &
        Hf & Hcall & Hpost).
  rewrite Hcmp in Hpost. destruct Hpost as (BT' & HBT' & Hpost).
  rewrite HBT in HBT'. injection HBT' as <-. rewrite Hbool in Hpost.
  destruct Hpost as (T & HT & Hcast).
  apply transOCLBuiltinFromInstCallee_inv in Hcallee
    as (OpTys & ArgTys0 & RetTy0 & RetTy & _ & _ & _ & Hpre & Hcallee).
  cbn zeta in Hcallee.
  apply calleeByNameAndType_function in Hcallee
    as (Fo1 & HFo1 & _ & Hty & _ & _).
  apply transValueVec_keepsFunctions in Hargs.
  destruct (Hargs _ _ HFo1) as (Fo2 & HFo2 & _ & Hty2 & _).
  rewrite <- Hf in HFo2.
  specialize (Hpre st). unfold transOCLBuiltinFromInstPreproc in Hpre.
  rewrite HBT, Hcmp in Hpre.
  assert (Htypes : boolTypes BT T RetTy).
  { destruct BT as [| | | | | |C n| | | | | |]; try discriminate.
    - cbn in *. injection HT as <-. apply mret_Some in Hpre as [<- _]. auto.
    - destruct C; try discriminate. cbn in *. injection HT as <-.
      apply mret_Some in Hpre as [<- _]. auto. }
  eexists T, RetTy, Call, Func, Fo2, _, _, bb.
  split; [exact Htypes|]. split; [exact Hcall|]. split; [exact HFo2|].
  split; [etransitivity; [exact Hty2|exact Hty]|]. exact Hcast.
Qed.

End InstructionBuiltins.

(** ** Conversions with a rounding mode or saturation *)

Lemma string_app_assoc (a b c : string) : (a +:+ b) +:+ c = a +:+ (b +:+ c).
Proof.
  induction a as [|x a IH]; [reflexivity|].
  change (String x ((a +:+ b) +:+ c) = String x (a +:+ (b +:+ c))).
  f_equal. exact IH.
Qed.

Lemma string_app_nil_r (a : string) : a +:+ "" = a.
Proof.
  induction a as [|x a IH]; [reflexivity|].
  change (String x (a +:+ "") = String x a). f_equal. exact IH.
Qed.

(** The name of a conversion builtin in the words of the specification:
    [convert_] and the OpenCL name of the destination type, prefixed with
    [u] when the source is unsigned, then [_sat] when saturated, then [_]
    and the rounding mode when there is one. *)
Definition conversionBuiltinName (sourceUnsigned : bool) (dst : string)
    (saturated : bool) (rounding : option string) : string :=
  (if sourceUnsigned then "u" else "") +:+ "convert_" +:+ dst +:+
  (if saturated then "_sat" else "") +:+
  match rounding with Some r => "_" +:+ r | None => "" end.

(** The op codes with a case of their own in one of the two switches of
    [transValueWithoutDecoration]. *)
Definition hasOwnCase (OC : SPRVOpCode) : bool :=
  match OC with
  | SPRVOC_OpConstant | SPRVOC_OpConstantTrue | SPRVOC_OpConstantFalse
  | SPRVOC_OpConstantNull | SPRVOC_OpConstantComposite
  | SPRVOC_OpConstantSampler | SPRVOC_OpUndef | SPRVOC_OpVariable
  | SPRVOC_OpVariableArray | SPRVOC_OpFunctionParameter | SPRVOC_OpFunction
  | SPRVOC_OpLabel
  | SPRVOC_OpBranch | SPRVOC_OpBranchConditional | SPRVOC_OpPhi
  | SPRVOC_OpReturn | SPRVOC_OpReturnValue | SPRVOC_OpStore | SPRVOC_OpLoad
  | SPRVOC_OpCopyMemorySized | SPRVOC_OpSelect | SPRVOC_OpSwitch
  | SPRVOC_OpAccessChain | SPRVOC_OpInBoundsAccessChain
  | SPRVOC_OpCompositeExtract | SPRVOC_OpVectorExtractDynamic
  | SPRVOC_OpCompositeInsert | SPRVOC_OpVectorInsertDynamic
  | SPRVOC_OpVectorShuffle | SPRVOC_OpFunctionCall | SPRVOC_OpExtInst
  | SPRVOC_OpControlBarrier | SPRVOC_OpMemoryBarrier
  | SPRVOC_OpSNegate | SPRVOC_OpFNegate | SPRVOC_OpNot => true
  | _ => false
  end.

Definition isTypeFunction (T : SPRVType) : bool :=
  match T with TypeFunction _ _ => true | _ => false end.

Section Conversions.
Context `{Externals}.
Variable BM : SPRVModule.
Variable transValue :
  SPRVValue → option handle → option handle → bool → Trans Value.
Variables transNonInstructionValue transDirectInstruction transCmpInst
  transShiftLogicalBitwiseInst transConvertInst :
  SPRVValue → option handle → option handle → Trans Value.
Variable asExtInst : SPRVValue → option SPRVExtInst.

Hypothesis transValue_keepsFunctions :
  ∀ BV F BB CreatePlaceHolder,
    respects keepsFunctions (transValue BV F BB CreatePlaceHolder).

Lemma transType_function T LT :
  transType T = Some LT → isFunctionTy LT = true → isTypeFunction T = true.
Proof.
  destruct T; cbn; try (intros [= <-]; discriminate); try reflexivity.
  - unfold transFPType.
    repeat (match goal with
            | |- context [match ?x with _ => _ end] => destruct x
            end; try discriminate);
      intros [= <-]; discriminate.
  - destruct (transType T); cbn; [|discriminate]. intros [= <-]; discriminate.
  - destruct (transType T); cbn; [|discriminate].
    destruct (SPIRSPRVAddrSpaceMap_rmap sc); cbn; [|discriminate].
    intros [= <-]; discriminate.
  - destruct (transType T); cbn; [|discriminate]. intros [= <-]; discriminate.
  - destruct (mapM transType members); cbn; [|discriminate].
    intros [= <-]; discriminate.
  - destruct isOCLImage.
    + destruct (transOCLImageTypeName descriptor access); cbn;
        [|discriminate].
      intros [= <-]; discriminate.
    + destruct isOCLSampler; [|discriminate]. intros [= <-]; discriminate.
  - destruct (transType T); cbn; [|discriminate]. intros [= <-]; discriminate.
  - destruct (isOpaqueGenericTypeOpCode oc); [|discriminate].
    destruct (BuiltinOpaqueGenericTypeOpCodeMap_rmap oc); cbn;
      [|discriminate].
    intros [= <-]; discriminate.
Qed.

Lemma transTypeVector_no_function Ts LTs :
  transTypeVector Ts = Some LTs →
  forallb (λ T, negb (isTypeFunction T)) Ts = true →
  existsb isFunctionTy LTs = false.
Proof.
  unfold transTypeVector. revert LTs.
  induction Ts as [|T Ts IH]; intros LTs; cbn.
  - intros [= <-] _. reflexivity.
  - destruct (transType T) as [LT|] eqn:ET; cbn; [|discriminate].
    destruct (mapM transType Ts) as [LTs'|]; cbn; [|discriminate].
    intros [= <-] Hall. apply andb_true_iff in Hall as [HT Hall].
    cbn. rewrite (IH LTs' eq_refl Hall), orb_false_r.
    destruct (isFunctionTy LT) eqn:EF; [|reflexivity].
    rewrite (transType_function _ _ ET EF) in HT. discriminate.
Qed.

Lemma List_map_id_on {A} (f : A → A) (l : list A) :
  (∀ x, x ∈ l → f x = x) → List.map f l = l.
Proof.
  induction l as [|x l IH]; cbn; [reflexivity|]. intros Hf.
  rewrite Hf by set_solver. rewrite IH; [reflexivity|].
  intros y Hy. apply Hf. set_solver.
Qed.

Lemma no_function_pointer_args LTs :
  existsb isFunctionTy LTs = false →
  List.map (λ I, if isFunctionTy I
                 then PointerTy I (addrSpaceNumber SPIRAS_Private) else I) LTs
  = LTs.
Proof.
  intros Hno. apply List_map_id_on. intros T HT.
  destruct (isFunctionTy T) eqn:E; [|reflexivity].
  assert (existsb isFunctionTy LTs = true); [|congruence].
  apply existsb_exists. exists T. split; [by apply list_elem_of_In|exact E].
Qed.

Lemma getOCLConvertBuiltinName_run BI T st :
  isCvtOpCode (getOpCode BI) = true →
  valueType BI = Some T →
  getOCLBuiltinName BI st =
  Some (conversionBuiltinName
          (isCvtFromUnsignedOpCode (getOpCode BI))
          (mapSPRVTypeToOpenCLType T
             (negb (isCvtToUnsignedOpCode (getOpCode BI))))
          (isSaturatedConversion BI)
          (SPIRSPRVFPRoundingModeMap_rmap <$>
             dec_fpRoundingMode (getDecorations BI)), st).
Proof.
  intros Hcvt HT. unfold getOCLBuiltinName, getOCLConvertBuiltinName.
  rewrite Hcvt. cbn [assert]. rewrite bind_unfold. cbn.
  rewrite bind_unfold, HT. cbn. unfold mret, Trans_ret. do 2 f_equal.
  unfold conversionBuiltinName.
  destruct (isCvtFromUnsignedOpCode _), (isSaturatedConversion BI),
    (dec_fpRoundingMode _); cbn [fmap option_fmap option_map];
    rewrite ?string_app_assoc, ?string_app_nil_r; reflexivity.
Qed.

(** A call that is in a block is still in it, a call to the same function,
    when a value is mapped: replacing a placeholder retargets the operands
    and takes the load out of its block, nothing else. *)
Lemma mapValue_call_stays BV V st R st' Call Func args n cc at_ bb B :
  mapValue BV V st = Some (R, st') →
  insts st !! Call =
    Some (mkInstNode (CallInst (Some (FunctionV Func)) args n cc at_)
            (Some bb)) →
  blocks st !! bb = Some B → Call ∈ bb_insts B →
  ∃ args' B',
    insts st' !! Call =
      Some (mkInstNode (CallInst (Some (FunctionV Func)) args' n cc at_)
              (Some bb)) ∧
    length args' = length args ∧
    blocks st' !! bb = Some B' ∧ Call ∈ bb_insts B'.
Proof.
  intros Hr Hnd HB Hin.
  apply mapValue_inv in Hr as (_ & [[_ ->]|[[_ ->]|Hr]]).
  - eauto 10.
  - eauto 10.
  - destruct Hr as (Old & LD & GV & _ & _ & HP & HR).
    destruct HP as (_ & n' & v' & a' & bb1 & B1 & G & Hld & HB1 & _).
    pose proof (placeholderReplaced_uses _ _ _ _ _ _ HR) as Huses.
    assert (Call ≠ LD) as Hne by (intros ->; congruence).
    destruct HR as (_ & _ & _ & Hdet & _).
    destruct Hdet as (nd & bb2 & B2 & Hnd2 & Hpar & HB2 & _ & Hbl & _).
    rewrite Hld in Hnd2. injection Hnd2 as <-. cbn in Hpar.
    injection Hpar as <-. rewrite HB1 in HB2. injection HB2 as <-.
    rewrite (Huses _ _ Hne Hnd). unfold replaceUsesIn. cbn.
    destruct (decide (FunctionV Func = InstructionV LD)); [discriminate|].
    rewrite Hbl. destruct (decide (bb1 = bb)) as [->|Hbb].
    + rewrite lookup_insert_eq. rewrite HB in HB1. injection HB1 as <-.
      eexists _, _. split; [reflexivity|].
      split; [apply List.length_map|]. split; [reflexivity|]. cbn.
      apply list_elem_of_In, List.filter_In.
      split; [by apply list_elem_of_In|].
      by rewrite bool_decide_eq_false_2.
    + rewrite lookup_insert_ne by exact Hbb.
      eexists _, _. split; [reflexivity|].
      split; [apply List.length_map|]. split; [exact HB|exact Hin].
Qed.

Lemma mapValue_maps BV V st R st' :
  mapValue BV V st = Some (R, st') → ValueMap st' !! getId BV = Some V.
Proof.
  intros Hr. apply mapValue_inv in Hr as (_ & [[? ->]|[[_ ->]|Hr]]).
  - assumption.
  - cbn. apply lookup_insert_eq.
  - destruct Hr as (Old & LD & GV & _ & _ & _ & -> & _).
    apply lookup_insert_eq.
Qed.

(** An instruction without a case of its own is translated by the
    [default] case when no placeholder is asked for. *)
Lemma transValueWithoutDecoration_default BV F BB :
  hasOwnCase (getOpCode BV) = false →
  transValueWithoutDecoration BM transValue transNonInstructionValue
    transDirectInstruction transCmpInst transShiftLogicalBitwiseInst
    transConvertInst asExtInst BV F BB false
  = transOtherInstruction transValue transCmpInst
      transShiftLogicalBitwiseInst transConvertInst BV F BB.
Proof.
  unfold transValueWithoutDecoration.
  destruct (getOpCode BV); cbn; intros; try discriminate; reflexivity.
Qed.

(** C5: a conversion instruction with an FP rounding mode or the
    saturated-conversion flag is translated to a call of a builtin and to
    no other instruction.  The name that is mangled is made from [convert_]
    and the OpenCL name of the destination type, prefixed with [u] when the
    source is unsigned, with [_sat] appended when saturated and [_] and the
    rounding mode appended when there is one; for a conversion to [uint]
    from a signed or floating source, saturated and with [rtz], it is
    [convert_uint_sat_rtz].  The callee is the function of the module that
    has the mangled name and the type of the conversion, or a new
    declaration when the function found under that name, if any, has
    another type; the declaration has the mangled name unless a value of
    the module has it, and then the mangled name made unique.  After the
    callee and the operands the state differs by one instruction, the call,
    at the end of the block; then the value is mapped to the call, which
    stays in the block ([transConvertInst], which makes the direct cast, is
    not consulted).  A conversion op code is taken to be none of an atomic,
    a compare or a shift, logical or bitwise op code, and its operands not
    to be of function type. *)
Theorem conversion_with_rounding_or_saturation_is_builtin_call
    (BV : SPRVValue) (F BB : option handle) (T : SPRVType)
    (OpTys : list SPRVType) (st st' : SPRVToLLVM) (V : Value) :
  let OC := getOpCode BV in
  let Name :=
    conversionBuiltinName (isCvtFromUnsignedOpCode OC)
      (mapSPRVTypeToOpenCLType T (negb (isCvtToUnsignedOpCode OC)))
      (isSaturatedConversion BV)
      (SPIRSPRVFPRoundingModeMap_rmap <$>
         dec_fpRoundingMode (getDecorations BV)) in
  isCvtOpCode OC = true →
  hasFPRoundingMode BV || isSaturatedConversion BV = true →
  hasOwnCase OC = false →
  isAtomic BV = false →
  isCmpOpCode OC = false →
  isBinaryShiftLogicalBitwiseOpCode OC = false →
  valueType BV = Some T →
  getOperandTypes BV = Some OpTys →
  forallb (λ T, negb (isTypeFunction T)) OpTys = true →
  transValueWithoutDecoration BM transValue transNonInstructionValue
    transDirectInstruction transCmpInst transShiftLogicalBitwiseInst
    transConvertInst asExtInst BV F BB false st = Some (V, st') →
  (* the name that is mangled, at the conversion of the example *)
  (isCvtFromUnsignedOpCode OC = false →
   mapSPRVTypeToOpenCLType T (negb (isCvtToUnsignedOpCode OC)) = "uint" →
   isSaturatedConversion BV = true →
   dec_fpRoundingMode (getDecorations BV) = Some SPRVFRM_RTZ →
   Name = "convert_uint_sat_rtz") ∧
  ∃ ArgTys RetTy bb Func Fo1 s1 B0 Args s2 B Fo Call n cc at_ s3,
    let MangledName := mangle SPRVBIS_OpenCL20 Name ArgTys in
    let FT := FunctionTy RetTy ArgTys false in
    transTypeVector OpTys = Some ArgTys ∧
    transType T = Some RetTy ∧
    BB = Some bb ∧
    (* the callee: found, or declared *)
    functions s1 !! Func = Some Fo1 ∧
    Func ∈ mod_functions (M s1) ∧
    fn_type Fo1 = FT ∧
    ((s1 = st ∧ functions st !! Func = Some Fo1 ∧
      Func ∈ mod_functions (M st) ∧ fn_name Fo1 = MangledName) ∨
     (functions st !! Func = None ∧
      Fo1 = builtinDeclaration st FT MangledName ∧
      s1 = withDeclaration Func Fo1 st ∧
      ∀ F0 Fo0, getFunction MangledName st = Some (Some F0, st) →
        functions st !! F0 = Some Fo0 → fn_type Fo0 ≠ FT)) ∧
    (fn_name Fo1 = MangledName ∨
     (MangledName ∈ moduleNames st ∧
      fn_name Fo1
        = MangledName +:+ uniqueSuffix (moduleNames st) MangledName ∧
      fn_name Fo1 ≠ MangledName)) ∧
    (* the operands *)
    blocks s1 !! bb = Some B0 ∧
    transValueVec transValue (getOperands BV) (bb_parent B0) BB s1
      = Some (Args, s2) ∧
    functions s2 !! Func = Some Fo ∧
    fn_name Fo = fn_name Fo1 ∧ fn_type Fo = FT ∧
    (* one instruction, the call, at the end of the block *)
    insts s2 !! Call = None ∧
    blocks s2 !! bb = Some B ∧
    s3 = withInstruction Call
           (CallInst (Some (FunctionV Func)) (Some <$> Args) n cc at_)
           bb B s2 ∧
    (* the value is mapped to the call, which stays where it is *)
    mapValue BV (InstructionV Call) s3 = Some (V, st') ∧
    V = InstructionV Call ∧
    ValueMap st' !! getId BV = Some V ∧
    ∃ args' B',
      insts st' !! Call =
        Some (mkInstNode (CallInst (Some (FunctionV Func)) args' n cc at_)
                (Some bb)) ∧
      length args' = length Args ∧
      blocks st' !! bb = Some B' ∧ Call ∈ bb_insts B'.
Proof.
  intros OC Name Hcvt Hrs Hown Hatom Hcmp Hshift HT HOp Hnof Hr.
  split.
  { intros Hu Hd Hs Hm. unfold Name, conversionBuiltinName.
    rewrite Hu, Hd, Hs, Hm. reflexivity. }
  rewrite transValueWithoutDecoration_default in Hr by exact Hown.
  unfold transOtherInstruction, isSPRVCmpInstTransToLLVMInst in Hr.
  fold OC in Hr. rewrite Hatom, Hcmp, Hshift, Hcvt, Hrs in Hr.
  cbn [andb] in Hr.
  assert (Hcall : ∃ I s, transOCLBuiltinFromInst transValue BV BB st
                          = Some (I, s) ∧
                         mapValue BV (InstructionV I) s = Some (V, st')).
  { destruct (bool_decide _).
    - apply bind_Some in Hr as (I & s & HI & Hr). eauto.
    - apply bind_Some in Hr as (Inst & s & HI & Hr).
      apply bind_Some in HI as (I & s0 & HI & Hret).
      apply mret_Some in Hret as [<- <-]. eauto. }
  clear Hr. destruct Hcall as (I & s & HI & Hmap).
  apply transOCLBuiltinFromInst_inv in HI as (FuncName & HName & HI).
  rewrite (getOCLConvertBuiltinName_run _ _ _ Hcvt HT) in HName.
  injection HName as <-. fold OC Name in HI.
  apply (transOCLBuiltinFromInstNamed_state _ _ _ _ _ _ _ Hcmp) in HI
    as (Func & s1 & bb & B0 & Args & s2 & B & Fo & Hcallee & -> & HB0 &
        Hargs & HB & HFo & -> & ->).
  apply transOCLBuiltinFromInstCallee_inv in Hcallee
    as (OpTys' & ArgTys0 & RetTy0 & RetTy & HOp' & HTys & HRet & Hpre &
        Hcallee).
  rewrite HOp in HOp'. injection HOp' as <-. cbn zeta in Hcallee.
  rewrite HT in HRet.
  assert (RetTy = RetTy0) as ->.
  { specialize (Hpre st). unfold transOCLBuiltinFromInstPreproc in Hpre.
    rewrite HT in Hpre. fold OC in Hpre. rewrite Hcmp in Hpre.
    apply mret_Some in Hpre as [-> _]. reflexivity. }
  pose proof (transTypeVector_no_function _ _ HTys Hnof) as Hnofp.
  rewrite Hnofp, (no_function_pointer_args _ Hnofp) in Hcallee.
  cbn [negb] in Hcallee.
  pose proof (calleeByNameAndType_function _ _ _ _ _ Hcallee)
    as (Fo1 & HFo1 & _ & Hty1 & Hin1 & _).
  apply calleeByNameAndType_cases in Hcallee.
  pose proof (transValueVec_keepsFunctions transValue
                transValue_keepsFunctions _ _ _ _ _ _ Hargs _ _ HFo1)
    as (Fo2 & HFo2 & Hname2 & Hty2 & _).
  rewrite HFo in HFo2. injection HFo2 as <-.
  pose proof (mapValue_result _ _ _ _ _ Hmap) as ->.
  set (Call := newHandle s2) in *.
  set (I := callAfterSetAttr Fo _) in *.
  assert (HI : ∃ n cc at_,
            I = CallInst (Some (FunctionV Func)) (Some <$> Args) n cc at_).
  { unfold I, callAfterSetAttr. destruct (Function_isIntrinsic Fo); eauto. }
  destruct HI as (n & cc & at_ & HI). clearbody I. subst I.
  assert (Hstay := mapValue_call_stays BV (InstructionV Call) _ _ _ Call Func
                     (Some <$> Args) n cc at_ bb
                     (mkBasicBlock (bb_name B) (bb_parent B)
                        (bb_insts B ++ [Call])) Hmap).
  destruct Hstay as (args' & B' & Hnd' & Hlen & HB' & Hin').
  { cbn. apply lookup_insert_eq. }
  { cbn. apply lookup_insert_eq. }
  { cbn. apply elem_of_app. right. apply elem_of_cons. by left. }
  exists ArgTys0, RetTy0, bb, Func, Fo1, s1, B0, Args, s2, B, Fo, Call,
    n, cc, at_,
    (withInstruction Call
       (CallInst (Some (FunctionV Func)) (Some <$> Args) n cc at_) bb B s2).
  cbn zeta.
  split; [exact HTys|]. split; [exact HRet|]. split; [reflexivity|].
  split; [exact HFo1|]. split; [exact Hin1|]. split; [exact Hty1|].
  split.
  { destruct Hcallee as [(-> & Hin & Fo0 & HFo0 & Hn0 & _)|(Hnew & -> & Hc)].
    - left. rewrite HFo0 in HFo1. injection HFo1 as <-. auto.
    - right. cbn in HFo1. rewrite lookup_insert_eq in HFo1.
      injection HFo1 as <-. auto. }
  split.
  { destruct Hcallee as [(-> & Hin & Fo0 & HFo0 & Hn0 & _)|(Hnew & -> & Hc)].
    - left. rewrite HFo0 in HFo1. by injection HFo1 as <-.
    - cbn in HFo1. rewrite lookup_insert_eq in HFo1. injection HFo1 as <-.
      apply builtinDeclaration_name. }
  split; [exact HB0|]. split; [exact Hargs|]. split; [exact HFo|].
  split; [exact Hname2|]. split; [congruence|].
  split; [apply newHandle_insts|]. split; [exact HB|].
  split; [reflexivity|]. split; [exact Hmap|]. split; [reflexivity|].
  split; [exact (mapValue_maps _ _ _ _ _ Hmap)|].
  rewrite length_fmap in Hlen. eauto 10.
Qed.

End Conversions.

(** ** Memory copies *)

Section CopyMemory.
Context `{Externals}.
Variable transValue :
  SPRVValue → option handle → option handle → bool → Trans Value.

(** The name of the callee of an [OpCopyMemorySized]: [llvm.memcpy], the
    suffix of the target pointer, the suffix of the source pointer, the
    suffix of the size. *)
Definition memcpyName (TrgSC SrcSC : SPRVStorageClassKind) (Width : N)
  : string :=
  "llvm.memcpy" +:+
  (if bool_decide (TrgSC = SPRVSC_Private) then ".p0i8" else ".p1i8") +:+
  (if bool_decide (SrcSC = SPRVSC_Private) then ".p0i8" else ".p1i8") +:+
  (if Width =? 32 then ".i32" else ".i64").

(** The [OpCopyMemorySized] case, step by step: the callee is a new
    function created under the name above, with the attributes of the
    intrinsic and no-unwind; the call takes the translated target and
    source, the translated size when it is a [ConstantInt] and null
    otherwise, the alignment as an i32 and the volatile flag as an i1. *)
Lemma transCopyMemorySized_inv BV BB st V st' :
  transCopyMemorySized transValue BV BB st = Some (V, st') →
  ∃ Target Source Size BT BS SizeBT TrgTy SrcTy SizeTy TrgSC SrcSC Width,
    getOperands BV = Target :: Source :: Size :: drop 3 (getOperands BV) ∧
    valueType Target = Some BT ∧ valueType Source = Some BS ∧
    valueType Size = Some SizeBT ∧
    transType BT = Some TrgTy ∧ transType BS = Some SrcTy ∧
    transType SizeBT = Some SizeTy ∧
    getPointerStorageClass BT = Some TrgSC ∧
    getPointerStorageClass BS = Some SrcSC ∧
    getBitWidth SizeBT = Some Width ∧
    let Func := newHandle st in
    let Name := nameInModule st (memcpyName TrgSC SrcSC Width) in
    let s1 := withDeclaration Func
                (mkFunction Name
                   (FunctionTy VoidTy [TrgTy; SrcTy; SizeTy; Int32Ty; Int1Ty]
                      false)
                   ExternalLinkage CC_C
                   (addAttr (creationAttributes Name) FunctionIndex NoUnwind)
                   []) st in
    ∃ A0 s2 A1 s3 A2 s4 Call s5,
      transValue Target (Some Func) BB true s1 = Some (A0, s2) ∧
      transValue Source (Some Func) BB true s2 = Some (A1, s3) ∧
      transValue Size (Some Func) BB true s3 = Some (A2, s4) ∧
      CallInst_Create Func
        [ Some A0; Some A1; dyn_cast_ConstantInt A2;
          Some (ConstantInt Int32Ty
                  (Z.of_N (dec_alignment (getDecorations BV))));
          Some (ConstantInt Int1Ty
                  (if dec_isVolatile (getDecorations BV) then 1 else 0)%Z) ]
        "" BB s4 = Some (Call, s5) ∧
      mapValue BV (InstructionV Call) s5 = Some (V, st').
Proof.
  unfold transCopyMemorySized. intros Hr.
  apply bind_Some in Hr as (u & s & Ha & Hr).
  apply assert_Some in Ha as [_ ->].
  apply bind_Some in Hr as (Target & s & H0 & Hr).
  apply required_Some in H0 as [H0 ->].
  apply bind_Some in Hr as (Source & s & H1 & Hr).
  apply required_Some in H1 as [H1 ->].
  apply bind_Some in Hr as (Size & s & H2 & Hr).
  apply required_Some in H2 as [H2 ->].
  apply bind_Some in Hr as (BS & s & HBS & Hr).
  apply required_Some in HBS as [HBS ->].
  apply bind_Some in Hr as (BT & s & HBT & Hr).
  apply required_Some in HBT as [HBT ->].
  apply bind_Some in Hr as (SrcTy & s & HSrc & Hr).
  apply required_Some in HSrc as [HSrc ->].
  apply bind_Some in Hr as (TrgTy & s & HTrg & Hr).
  apply required_Some in HTrg as [HTrg ->].
  apply bind_Some in Hr as (SizeBT & s & HSBT & Hr).
  apply required_Some in HSBT as [HSBT ->].
  apply bind_Some in Hr as (SizeTy & s & HSz & Hr).
  apply required_Some in HSz as [HSz ->].
  apply bind_Some in Hr as (TrgSC & s & HTSC & Hr).
  apply required_Some in HTSC as [HTSC ->].
  apply bind_Some in Hr as (SrcSC & s & HSSC & Hr).
  apply required_Some in HSSC as [HSSC ->].
  apply bind_Some in Hr as (Width & s & HW & Hr).
  apply required_Some in HW as [HW ->].
  apply bind_Some in Hr as (Func & s1 & Hcr & Hr).
  apply Function_Create_Some in Hcr as [-> ->].
  apply bind_Some in Hr as (u1 & s1' & Hnu & Hr).
  cbn [isFuncNoUnwind] in Hnu.
  apply updFunction_Some in Hnu as (Fo & HFo & ->).
  cbn in HFo. rewrite lookup_insert_eq in HFo. injection HFo as <-.
  apply bind_Some in Hr as (A0 & s2 & HA0 & Hr).
  apply bind_Some in Hr as (A1 & s3 & HA1 & Hr).
  apply bind_Some in Hr as (A2 & s4 & HA2 & Hr).
  apply bind_Some in Hr as (Call & s5 & Hcall & Hr).
  exists Target, Source, Size, BT, BS, SizeBT, TrgTy, SrcTy, SizeTy,
    TrgSC, SrcSC, Width.
  split.
  { destruct (getOperands BV) as [|x0 [|x1 [|x2 l]]]; simplify_eq/=.
    reflexivity. }
  repeat (split; [assumption|]). cbn zeta.
  match type of HA0 with
  | transValue _ _ _ _ ?s = _ =>
      assert (Hst : s = withDeclaration (newHandle st)
              (mkFunction (nameInModule st (memcpyName TrgSC SrcSC Width))
                 (FunctionTy VoidTy [TrgTy; SrcTy; SizeTy; Int32Ty; Int1Ty]
                    false)
                 ExternalLinkage CC_C
                 (addAttr (creationAttributes
                             (nameInModule st (memcpyName TrgSC SrcSC Width)))
                    FunctionIndex NoUnwind) []) st)
  end.
  { unfold withDeclaration, set_M, set_functions, memcpyName,
      Function_addAttribute. cbn.
    rewrite insert_insert_eq.
    destruct (bool_decide (TrgSC = SPRVSC_Private)),
      (bool_decide (SrcSC = SPRVSC_Private)), (Width =? 32); reflexivity. }
  rewrite Hst in HA0.
  exists A0, s2, A1, s3, A2, s4, Call, s5. repeat split; assumption.
Qed.

End CopyMemory.

(** ** The declaration and the call site of a builtin call *)

(** The call of an extended instruction as emitted: the calling convention
    of the callee, and the no-unwind attribute. *)
Definition emittedExtCall (st : SPRVToLLVM) (Call Func : handle)
    (Args : list (option Value)) (Name : string) (bb : handle) : Prop :=
  ∃ Fo, functions st !! Func = Some Fo ∧
    insts st !! Call =
      Some (mkInstNode (CallInst (Some (FunctionV Func)) Args Name
                          (fn_callingConv Fo) [(FunctionIndex, NoUnwind)])
              (Some bb)).

Section BuiltinCallSites.
Context `{Externals}.
Variable BM : SPRVModule.
Variable transValue :
  SPRVValue → option handle → option handle → bool → Trans Value.

Lemma transOCLAtomic_inv BA BB st Call st' :
  transOCLAtomic transValue BA BB st = Some (Call, st') →
  ∃ FuncName OpTys ArgTys RetTy Func s1 bb Args,
    SPIRSPRVBuiltinInstMap_rfind (getOpCode BA) = Some FuncName ∧
    getOperandTypes BA = Some OpTys ∧
    transTypeVector OpTys = Some ArgTys ∧
    ArgTys !! 0%nat ≫= Ty_getPointerElementType = Some RetTy ∧
    calleeByName (FunctionTy RetTy ArgTys false)
      (mangle SPRVBIS_OpenCL20 FuncName ArgTys) st Func s1 ∧
    BB = Some bb ∧
    emittedCall st' Call Func (Some <$> Args) (getName BA) bb.
Proof.
  unfold transOCLAtomic. intros Hr.
  apply bind_Some in Hr as (u & s & Ha & Hr).
  apply assert_Some in Ha as [_ ->].
  apply bind_Some in Hr as (Func & s1 & Hcallee & Hr).
  apply bind_Some in Hr as (P & s & HP & Hr).
  apply getParent_Some in HP as (bb & B & -> & HB & -> & ->).
  apply bind_Some in Hr as (Args & s2 & Hargs & Hr).
  apply bind_Some in Hr as (C & s3 & Hcall & Hr).
  apply bind_Some in Hr as (u1 & s4 & Hname & Hr).
  apply bind_Some in Hr as (u2 & s5 & Hattr & Hr).
  apply mret_Some in Hr as [<- <-].
  destruct (call_emitted _ _ _ _ _ _ _ _ _ _ _ Hcall Hname Hattr)
    as (bb' & [= <-] & _ & _ & _ & Hem & _).
  unfold transOCLAtomicCallee in Hcallee.
  apply bind_Some in Hcallee as (FuncName & s & H0 & Hcallee).
  apply required_Some in H0 as [H0 ->].
  apply bind_Some in Hcallee as (OpTys & s & H1 & Hcallee).
  apply required_Some in H1 as [H1 ->].
  apply bind_Some in Hcallee as (ArgTys & s & H2 & Hcallee).
  apply required_Some in H2 as [H2 ->].
  apply bind_Some in Hcallee as (RetTy & s & H3 & Hcallee).
  apply required_Some in H3 as [H3 ->].
  apply calleeByName_intro in Hcallee.
  exists FuncName, OpTys, ArgTys, RetTy, Func, s1, bb, Args.
  repeat split; assumption.
Qed.

Definition barrierName (MB : SPRVValue) : option string :=
  if bool_decide (getOpCode MB = SPRVOC_OpMemoryBarrier) then Some "mem_fence"
  else if bool_decide (getOpCode MB = SPRVOC_OpControlBarrier)
  then Some "barrier" else None.

Lemma transOCLBarrierFence_inv MB BB st Call st' :
  transOCLBarrierFence MB BB st = Some (Call, st') →
  ∃ FuncName Func s1 bb,
    barrierName MB = Some FuncName ∧
    calleeByName (FunctionTy VoidTy [Int32Ty] false)
      (mangle SPRVBIS_OpenCL20 FuncName [Int32Ty]) st Func s1 ∧
    BB = Some bb ∧
    emittedCall st' Call Func
      [Some (ConstantInt Int32Ty
               (Z.of_N (rmapMemFenceFlags (getMemSemantic MB))))]
      (getName MB) bb.
Proof.
  unfold transOCLBarrierFence. intros Hr.
  apply bind_Some in Hr as (u & s & Ha & Hr).
  apply assert_Some in Ha as [_ ->].
  apply bind_Some in Hr as (Func & s1 & Hcallee & Hr).
  apply bind_Some in Hr as (C & s3 & Hcall & Hr).
  apply bind_Some in Hr as (u1 & s4 & Hname & Hr).
  apply bind_Some in Hr as (u2 & s5 & Hattr & Hr).
  apply mret_Some in Hr as [<- <-].
  destruct (call_emitted _ _ _ _ _ _ _ _ _ _ _ Hcall Hname Hattr)
    as (bb & -> & _ & _ & _ & Hem & _).
  unfold transOCLBarrierFenceCallee in Hcallee.
  apply bind_Some in Hcallee as (FuncName & s & H0 & Hcallee).
  assert (H0' : s = st ∧ barrierName MB = Some FuncName).
  { unfold barrierName.
    destruct (bool_decide (getOpCode MB = SPRVOC_OpMemoryBarrier)).
    - apply mret_Some in H0 as [<- <-]. auto.
    - destruct (bool_decide (getOpCode MB = SPRVOC_OpControlBarrier)).
      + apply mret_Some in H0 as [<- <-]. auto.
      + discriminate. }
  destruct H0' as [-> H0'].
  apply calleeByName_intro in Hcallee.
  exists FuncName, Func, s1, bb. repeat split; assumption.
Qed.

Lemma transOCLVectorLoadStore_pure U B :
  respects eq (transOCLVectorLoadStore BM U B).
Proof. unfold transOCLVectorLoadStore. respects_steps. Qed.

Lemma transOCLBuiltinFromExtInstCallee_inv BC st F BArgs s1 :
  transOCLBuiltinFromExtInstCallee BM BC st = Some (F, BArgs, s1) →
  ∃ FT MangledName, calleeByName FT MangledName st F s1.
Proof.
  unfold transOCLBuiltinFromExtInstCallee. intros Hr.
  apply bind_Some in Hr as (U0 & s & H0 & Hr).
  apply respects_eq in H0 as ->; [|respects_steps].
  apply bind_Some in Hr as ([U BA] & s & H1 & Hr).
  apply respects_eq in H1 as ->; [|apply transOCLVectorLoadStore_pure].
  apply bind_Some in Hr as (ArgVals & s & H2 & Hr).
  apply required_Some in H2 as [_ ->].
  apply bind_Some in Hr as (ArgBTys & s & H3 & Hr).
  apply required_Some in H3 as [_ ->].
  apply bind_Some in Hr as (ArgTypes0 & s & H4 & Hr).
  apply required_Some in H4 as [_ ->].
  apply bind_Some in Hr as ([[MangledName IsVarArg] ArgTypes] & s & H5 & Hr).
  apply respects_eq in H5 as ->; [|respects_steps].
  apply bind_Some in Hr as (BT & s & H6 & Hr).
  apply required_Some in H6 as [_ ->].
  apply bind_Some in Hr as (RetTy & s & H7 & Hr).
  apply required_Some in H7 as [_ ->].
  exists (FunctionTy RetTy ArgTypes IsVarArg), MangledName.
  destruct (getFunction_run MangledName st) as [r Hg].
  rewrite (bind_eq _ _ _ _ _ Hg) in Hr. exists r. split; [exact Hg|].
  apply bind_Some in Hr as (F' & s & HF & Hr).
  apply mret_Some in Hr as [[= <- <-] <-].
  destruct r as [F0|].
  - apply mret_Some in HF as [<- <-]. auto.
  - rewrite declareBuiltin_run in HF. injection HF as <- <-. auto.
Qed.

Lemma transOCLBuiltinFromExtInst_inv BC BB st Call st' :
  transOCLBuiltinFromExtInst BM transValue BC BB st = Some (Call, st') →
  ∃ FT MangledName F s1 bb Args,
    calleeByName FT MangledName st F s1 ∧
    BB = Some bb ∧
    emittedExtCall st' Call F (Some <$> Args) (getName (ext_value BC)) bb.
Proof.
  unfold transOCLBuiltinFromExtInst. intros Hr.
  apply bind_Some in Hr as (u & s & Ha & Hr).
  apply assert_Some in Ha as [_ ->].
  apply bind_Some in Hr as ([F BArgs] & s1 & Hcallee & Hr).
  apply transOCLBuiltinFromExtInstCallee_inv in Hcallee
    as (FT & MangledName & Hcallee).
  apply bind_Some in Hr as (ArgVals & s & H2 & Hr).
  apply required_Some in H2 as [_ ->].
  apply bind_Some in Hr as (Args & s2 & Hargs & Hr).
  apply bind_Some in Hr as (C & s3 & Hcall & Hr).
  apply bind_Some in Hr as (u1 & s4 & Hcc & Hr).
  apply bind_Some in Hr as (u2 & s5 & Hattr & Hr).
  apply mret_Some in Hr as [<- <-].
  apply insertAtEnd_Some in Hcall as (bb & B & -> & HB & -> & ->).
  unfold setCallingConv in Hcc.
  apply bind_Some in Hcc as (nd & s & Hnd & Hcc).
  apply theInst_Some in Hnd as [Hnd ->]. cbn in Hnd.
  rewrite lookup_insert_eq in Hnd. injection Hnd as <-.
  apply bind_Some in Hcc as (F' & s & HF' & Hcc).
  apply required_Some in HF' as [HF' ->]. cbn in HF'. injection HF' as <-.
  apply bind_Some in Hcc as (Fo & s & HFo & Hcc).
  apply theFunction_Some in HFo as [HFo ->]. cbn in HFo.
  apply updCall_Some in Hcc as (c & a & n & cc & at_ & par & Hnd & ->).
  cbn in Hnd. rewrite lookup_insert_eq in Hnd.
  injection Hnd as <- <- <- <- <- <-.
  apply updCall_Some in Hattr as (c & a & n & cc & at_ & par & Hnd & ->).
  cbn in Hnd. rewrite lookup_insert_eq in Hnd.
  injection Hnd as <- <- <- <- <- <-.
  exists FT, MangledName, F, s1, bb, Args.
  split; [exact Hcallee|]. split; [reflexivity|].
  exists Fo. split; [exact HFo|]. cbn. apply lookup_insert_eq.
Qed.

End BuiltinCallSites.

(** ** The entry point *)

Section EntryPoint.
Context `{Externals}.
Variable BM : SPRVModule.
Variable transValue :
  SPRVValue → option handle → option handle → bool → Trans Value.
Variables transKernelMetadata transFPContractMetadata transSourceLanguage
  transSourceExtension transCompilerOption transOCLBuiltinsFromVariables
  postProcessOCL : Trans bool.

Let translate' : Trans bool :=
  translate BM transValue transKernelMetadata transFPContractMetadata
    transSourceLanguage transSourceExtension transCompilerOption
    transOCLBuiltinsFromVariables postProcessOCL.
Let ReadSPRV' :=
  ReadSPRV BM transValue transKernelMetadata transFPContractMetadata
    transSourceLanguage transSourceExtension transCompilerOption
    transOCLBuiltinsFromVariables postProcessOCL.

(** What [dumpLLVM] does: when the file can be opened it is left empty,
    the module is not printed; when it cannot, the module is printed to a
    stream without descriptor, whose close stops the program. *)
Lemma dumpLLVM_cases Mod FName fs :
  dumpLLVM Mod FName fs =
  if canOpen fs FName
  then Some (mkFileSystem (<[FName := ""]> (files fs)) (canOpen fs))
  else None.
Proof.
  unfold dumpLLVM, raw_fd_ostream. destruct (canOpen fs FName); reflexivity.
Qed.

(** C8: [ReadSPRV] returns what the translation returns.  Whenever it
    returns, the translation has returned and the result is that of the
    translation: when the translation fails, the error string of the caller
    is the error string of the error log of the module, the module that was
    allocated is deleted (the allocated modules are those of before the
    call) and [M] is null; when it succeeds, the result is true, [M] is the
    address of the translated module, and the error string of the caller is
    untouched.  It returns whenever the translation returns and the file of
    [dumpLLVM] can be opened (or the flag is off); where the file cannot be
    opened, [dumpLLVM] stops the program and nothing is returned. *)
Theorem ReadSPRV_reports_translation
    (DbgSaveTmpLLVM : bool) (log : SPRVErrorLog) (ErrMsg : string)
    (heap : gmap handle SPRVToLLVM) (fs : FileSystem) :
  (∀ res, ReadSPRV' DbgSaveTmpLLVM log ErrMsg heap fs = Some res →
     ∃ ok BTL, translate' (initial log) = Some (ok, BTL) ∧
       Succeed res = ok ∧
       if ok then
         ∃ Mh, out_M res = Some Mh ∧ heap !! Mh = None ∧
               liveModules res = <[Mh := BTL]> heap ∧
               out_ErrMsg res = ErrMsg
       else
         out_ErrMsg res = ErrorMsg (ErrorLog BTL) ∧
         out_M res = None ∧
         liveModules res = heap) ∧
  (∀ ok BTL, translate' (initial log) = Some (ok, BTL) →
     (DbgSaveTmpLLVM = true → canOpen fs DbgTmpLLVMFileName = true) →
     ∃ res, ReadSPRV' DbgSaveTmpLLVM log ErrMsg heap fs = Some res) ∧
  (DbgSaveTmpLLVM = true → canOpen fs DbgTmpLLVMFileName = false →
   ReadSPRV' DbgSaveTmpLLVM log ErrMsg heap fs = None).
Proof.
  assert (Hfresh : heap !! fresh (dom heap) = None).
  { apply not_elem_of_dom, is_fresh. }
  unfold ReadSPRV', ReadSPRV. fold translate'.
  split; [|split].
  - intros res Hr.
    destruct (translate' (initial log)) as [[ok BTL]|]; [|discriminate].
    cbn in Hr. exists ok, BTL. split; [reflexivity|].
    destruct (if DbgSaveTmpLLVM then _ else _) as [fs'|]; [|discriminate].
    cbn in Hr. injection Hr as <-. destruct ok; cbn.
    + split; [reflexivity|]. eauto.
    + split; [reflexivity|]. split; [reflexivity|]. split; [reflexivity|].
      apply delete_insert_id. exact Hfresh.
  - intros ok BTL -> Hopen. cbn. rewrite dumpLLVM_cases.
    destruct DbgSaveTmpLLVM; [rewrite Hopen by reflexivity|]; cbn; eauto.
  - intros -> Hno.
    destruct (translate' (initial log)) as [[ok BTL]|]; [|reflexivity].
    cbn. rewrite dumpLLVM_cases, Hno. reflexivity.
Qed.

(** What [dumpLLVM] leaves in the file when it returns: the file is empty,
    the module is not in it. *)
Lemma dumpLLVM_file Mod FName fs fs' :
  dumpLLVM Mod FName fs = Some fs' →
  canOpen fs FName = true ∧ files fs' !! FName = Some "".
Proof.
  rewrite dumpLLVM_cases. destruct (canOpen fs FName); [|discriminate].
  intros [= <-]. split; [reflexivity|]. cbn. apply lookup_insert_eq.
Qed.

Lemma ReadSPRV_debug_file (log : SPRVErrorLog) (ErrMsg : string)
    (heap : gmap handle SPRVToLLVM) (fs : FileSystem) res :
  ReadSPRV' true log ErrMsg heap fs = Some res →
  canOpen fs DbgTmpLLVMFileName = true ∧
  files (out_files res) !! DbgTmpLLVMFileName = Some "".
Proof.
  unfold ReadSPRV', ReadSPRV. fold translate'.
  destruct (translate' (initial log)) as [[ok BTL]|]; [|discriminate].
  cbn. destruct (dumpLLVM _ _ _) as [fs'|] eqn:Ed; [|discriminate].
  cbn. intros [= <-]. apply dumpLLVM_file in Ed. by destruct ok.
Qed.

End EntryPoint.

(** ** The properties on the instance *)

Section OnTheInstance.
Import Example.

Lemma Example_transValue_sameFunctions BV F BB c :
  respects sameFunctions (Example.transValue BV F BB c).
Proof. unfold Example.transValue. respects_steps. Qed.

Lemma Example_transValue_keepsFunctions BV F BB c :
  respects keepsFunctions (Example.transValue BV F BB c).
Proof.
  apply (respects_weaken sameFunctions);
    [apply sameFunctions_keepsFunctions
    |apply Example_transValue_sameFunctions].
Qed.

Lemma Example_transValue_keepsTarget BV F BB c :
  respects keepsTarget (Example.transValue BV F BB c).
Proof.
  apply (respects_weaken sameFunctions);
    [apply sameFunctions_keepsTarget|apply Example_transValue_sameFunctions].
Qed.

Lemma Example_passes_keepTarget :
  Forall (respects keepsTarget) [pass; pass; pass; pass; pass; pass; pass].
Proof.
  assert (Hp : respects keepsTarget pass).
  { intros st b st' Hr. apply mret_Some in Hr as [_ <-]. reflexivity. }
  repeat (apply Forall_cons; split; [exact Hp|]). apply Forall_nil_2.
Qed.

(** The placeholder of [forwardValue] is replaced by a constant: the
    instruction that used the load twice uses the constant twice. *)
Lemma mapValue_replaces_placeholder_witness :
  let st' := after (mapValue forwardValue (ConstantInt Int32Ty 3))
               withPlaceholder in
  ValueMap withPlaceholder !! getId forwardValue
    = Some (InstructionV 4%positive) ∧
  InstructionV 4%positive ≠ ConstantInt Int32Ty 3 ∧
  node_inst <$> insts withPlaceholder !! 5%positive
    = Some (OtherInst "add" [Some (InstructionV 4%positive);
                             Some (InstructionV 4%positive)] "y") ∧
  mapValue forwardValue (ConstantInt Int32Ty 3) withPlaceholder
    = Some (ConstantInt Int32Ty 3, st') ∧
  node_inst <$> insts st' !! 5%positive
    = Some (OtherInst "add" [Some (ConstantInt Int32Ty 3);
                             Some (ConstantInt Int32Ty 3)] "y") ∧
  ∃ LD GV, placeholderLoad withPlaceholder (InstructionV 4%positive) LD GV ∧
           placeholderReplaced withPlaceholder st' forwardValue
             (ConstantInt Int32Ty 3) LD GV.
Proof.
  intros st'.
  assert (H1 : ValueMap withPlaceholder !! getId forwardValue
               = Some (InstructionV 4%positive)) by (vm_compute; reflexivity).
  assert (H2 : InstructionV 4%positive ≠ ConstantInt Int32Ty 3)
    by discriminate.
  assert (Hr : mapValue forwardValue (ConstantInt Int32Ty 3) withPlaceholder
               = Some (ConstantInt Int32Ty 3, st'))
    by (vm_compute; reflexivity).
  destruct (mapValue_replaces_placeholder withPlaceholder forwardValue
              (ConstantInt Int32Ty 3) (InstructionV 4%positive) H1 H2)
    as [_ Hrun].
  destruct (Hrun _ _ Hr) as (_ & LD & GV & HP & HR).
  split; [exact H1|]. split; [exact H2|].
  split; [vm_compute; reflexivity|]. split; [exact Hr|].
  split; [vm_compute; reflexivity|]. eauto.
Defined.

Lemma mapValue_same_value_witness :
  ValueMap withConstant !! getId (constant 5 i32)
    = Some (ConstantInt Int32Ty 5) ∧
  mapValue (constant 5 i32) (ConstantInt Int32Ty 5) withConstant
    = Some (ConstantInt Int32Ty 5, withConstant).
Proof.
  assert (H1 : ValueMap withConstant !! getId (constant 5 i32)
               = Some (ConstantInt Int32Ty 5)) by (vm_compute; reflexivity).
  split; [exact H1|]. apply mapValue_same_value. exact H1.
Defined.

(** C2 as it is stated fails on the declaration of an intrinsic: the
    function is not a kernel, and its calling convention is not
    [spir_func]. *)
Lemma intrinsic_function_keeps_default_convention :
  isEntryPoint BM (getId (fun_value fmuladd)) = false ∧
  match transFunction BM Example.transValue fmuladd (initial emptyLog) with
  | Some (F, st') =>
      ∃ Fo, functions st' !! F = Some Fo ∧
            fn_name Fo = "llvm.fmuladd.f32" ∧
            fn_callingConv Fo = CC_C ∧ fn_callingConv Fo ≠ SPIR_FUNC
  | None => False
  end.
Proof.
  split; [reflexivity|]. vm_compute. eexists. split; [reflexivity|].
  repeat split. discriminate.
Qed.

Lemma transFunction_convention_witness :
  let st' := after (transFunction BM Example.transValue foo)
               (initial emptyLog) in
  FuncMap (initial emptyLog) !! getId (fun_value foo) = None ∧
  transFunction BM Example.transValue foo (initial emptyLog)
    = Some (1%positive, st') ∧
  ∃ Fo, functions st' !! 1%positive = Some Fo ∧
    fn_name Fo = "foo" ∧ fn_linkage Fo = ExternalLinkage ∧
    fn_callingConv Fo = SPIR_KERNEL ∧
    hasAttr (fn_attributes Fo) FunctionIndex NoUnwind = true.
Proof.
  intros st'.
  assert (H1 : FuncMap (initial emptyLog) !! getId (fun_value foo) = None)
    by reflexivity.
  assert (H2 : transFunction BM Example.transValue foo (initial emptyLog)
               = Some (1%positive, st')) by (vm_compute; reflexivity).
  split; [exact H1|]. split; [exact H2|].
  destruct (transFunction_convention BM Example.transValue
              Example_transValue_keepsFunctions foo (initial emptyLog) st'
              1%positive H1 H2) as (Fo & HFo & Hn & Hl & Hc).
  assert (En : fn_name Fo = "foo") by (rewrite Hn; vm_compute; reflexivity).
  rewrite En in Hc.
  change (isEntryPoint BM (getId (fun_value foo))) with true in Hl, Hc.
  change (isIntrinsicName "foo") with false in Hc. cbv iota in Hl, Hc.
  destruct Hc as [Hc Hu]. exists Fo. auto.
Defined.

Lemma translate_addressing_model_witness :
  let run := translate BM Example.transValue pass pass pass pass pass pass
               pass in
  mod_targetTriple (M (after run (initial emptyLog)))
    = "spir64-unknown-unknown" ∧
  mod_dataLayout (M (after run (initial emptyLog))) = SPIR_DATALAYOUT64.
Proof.
  intros run.
  assert (Hr : run (initial emptyLog)
               = Some (true, after run (initial emptyLog)))
    by (vm_compute; reflexivity).
  destruct (translate_addressing_model BM Example.transValue pass pass pass
              pass pass pass pass Example_transValue_keepsTarget
              Example_passes_keepTarget (initial emptyLog))
    as (_ & Hrun & _).
  exact (Hrun true _ Hr).
Defined.

Lemma compare_builtin_is_widened_then_truncated_witness :
  let st := after inFunction (initial emptyLog) in
  let st' := after (transOCLBuiltinFromInst Example.transValue lessOrGreater
                      (Some entryBlock)) st in
  ∃ T W Call Func Fo ArgTys Args bb,
    boolTypes TypeBool T W ∧
    emittedCall st' Call Func Args "c" bb ∧
    functions st' !! Func = Some Fo ∧
    fn_type Fo = FunctionTy W ArgTys false ∧
    insts st' !! 5%positive =
      Some (mkInstNode (CastInst Trunc (Some (InstructionV Call)) T "cvt")
              (Some bb)).
Proof.
  intros st st'.
  apply (compare_builtin_is_widened_then_truncated Example.transValue
           Example_transValue_keepsFunctions lessOrGreater (Some entryBlock)
           TypeBool st st' 5%positive);
    vm_compute; reflexivity.
Defined.

Lemma conversion_with_rounding_or_saturation_is_builtin_call_witness :
  let st := after inFunction (initial emptyLog) in
  let run := transValueWithoutDecoration BM Example.transValue unsupported
               unsupported unsupported unsupported unsupported (λ _, None)
               convertFToU (Some 1%positive) (Some entryBlock) false in
  run st = Some (InstructionV 4%positive, after run st) ∧
  ∃ Func Fo1 s1 cc at_,
    functions s1 !! Func = Some Fo1 ∧
    functions st !! Func = None ∧
    fn_name Fo1 = mangle SPRVBIS_OpenCL20 "convert_uint_sat_rtz" [FloatTy] ∧
    fn_type Fo1 = FunctionTy Int32Ty [FloatTy] false ∧
    ValueMap (after run st) !! getId convertFToU
      = Some (InstructionV 4%positive) ∧
    insts (after run st) !! 4%positive =
      Some (mkInstNode
              (CallInst (Some (FunctionV Func))
                 [Some (ConstantInt Int32Ty 31)] "u" cc at_)
              (Some entryBlock)) ∧
    map_size (insts (after run st)) = 1%nat.
Proof.
  intros st run.
  assert (Hr : run st = Some (InstructionV 4%positive, after run st))
    by (vm_compute; reflexivity).
  assert (H1 : isCvtOpCode (getOpCode convertFToU) = true) by reflexivity.
  assert (H2 : hasFPRoundingMode convertFToU
               || isSaturatedConversion convertFToU = true) by reflexivity.
  assert (H3 : hasOwnCase (getOpCode convertFToU) = false) by reflexivity.
  assert (H4 : isAtomic convertFToU = false) by reflexivity.
  assert (H5 : isCmpOpCode (getOpCode convertFToU) = false) by reflexivity.
  assert (H6 : isBinaryShiftLogicalBitwiseOpCode (getOpCode convertFToU)
               = false) by reflexivity.
  assert (H7 : valueType convertFToU = Some u32) by reflexivity.
  assert (H8 : getOperandTypes convertFToU = Some [f32]) by reflexivity.
  assert (H9 : forallb (λ T, negb (isTypeFunction T)) [f32] = true)
    by reflexivity.
  split; [exact Hr|].
  destruct (conversion_with_rounding_or_saturation_is_builtin_call
              BM Example.transValue unsupported unsupported unsupported
              unsupported unsupported (λ _, None)
              Example_transValue_keepsFunctions convertFToU
              (Some 1%positive) (Some entryBlock) u32 [f32] st (after run st)
              (InstructionV 4%positive) H1 H2 H3 H4 H5 H6 H7 H8 H9 Hr)
    as (HName &
        ArgTys & RetTy & bb & Func & Fo1 & s1 & B0 & Args & s2 & B & Fo &
        Call & n & cc & at_ & s3 & HTys & HRet & Hbb & HFo1 & _ & Hty &
        Hcase & Hname & _ & _ & _ & _ & _ & _ & _ & _ & _ & HV & Hmap &
        args' & B' & Hnd & _).
  rewrite (HName eq_refl eq_refl eq_refl eq_refl) in Hname, Hcase.
  injection HTys as <-. injection HRet as <-. injection Hbb as <-.
  injection HV as <-.
  assert (Hfree : bool_decide
                    (mangle SPRVBIS_OpenCL20 "convert_uint_sat_rtz" [FloatTy]
                       ∈ moduleNames st) = false)
    by (vm_compute; reflexivity).
  apply bool_decide_eq_false_1 in Hfree.
  destruct Hname as [Hname|[Hin _]]; [|contradiction].
  assert (Hnew : functions st !! Func = None).
  { destruct Hcase as [(_ & HFo & _ & _)|(Hnew & _)]; [|exact Hnew].
    exfalso.
    assert (Hst : functions st =
              {[1%positive := mkFunction "f" (FunctionTy VoidTy [] false)
                                ExternalLinkage CC_C [] []]})
      by (vm_compute; reflexivity).
    rewrite Hst in HFo. apply lookup_singleton_Some in HFo as [_ <-].
    vm_compute in Hname. discriminate. }
  assert (Hnd4 : ∃ args n, insts (after run st) !! 4%positive =
            Some (mkInstNode
                    (CallInst (Some (FunctionV Func)) args n cc at_)
                    (Some entryBlock))) by eauto.
  exists Func, Fo1, s1, cc, at_.
  split; [exact HFo1|]. split; [exact Hnew|]. split; [exact Hname|].
  split; [exact Hty|]. split; [exact Hmap|]. split.
  - destruct Hnd4 as (args & n0 & Hnd4). rewrite Hnd4.
    assert (Hc : ∃ F0 cc0 at0, insts (after run st) !! 4%positive =
              Some (mkInstNode
                      (CallInst (Some (FunctionV F0))
                         [Some (ConstantInt Int32Ty 31)] "u" cc0 at0)
                      (Some entryBlock)))
      by (vm_compute; eauto).
    destruct Hc as (F0 & cc0 & at0 & Hc). rewrite Hnd4 in Hc.
    injection Hc as -> -> -> -> ->. reflexivity.
  - vm_compute. reflexivity.
Defined.

(** C5 as it is stated fails where the module has a function of the
    mangled name with another type: a declaration is created, the module
    gives it another name, and the call is to a function whose name is not
    the mangled name of [convert_uint_sat_rtz]. *)
Lemma conversion_callee_is_renamed_on_name_clash :
  match (transFunction BM Example.transValue userConvert;;
         transValueWithoutDecoration BM Example.transValue unsupported
           unsupported unsupported unsupported unsupported (λ _, None)
           convertFToU (Some 1%positive) (Some entryBlock) false)
          (after inFunction (initial emptyLog)) with
  | Some (V, st') =>
      V = InstructionV 5%positive ∧
      insts st' !! 5%positive =
        Some (mkInstNode
                (CallInst (Some (FunctionV 4%positive))
                   [Some (ConstantInt Int32Ty 31)] "u" SPIR_FUNC
                   [(FunctionIndex, NoUnwind)])
                (Some entryBlock)) ∧
      mod_functions (M st') = [1%positive; 3%positive; 4%positive] ∧
      functions st' !! 3%positive =
        Some (mkFunction "_Z20convert_uint_sat_rtzf"
                (FunctionTy FloatTy [FloatTy] false) ExternalLinkage
                SPIR_FUNC [(FunctionIndex, NoUnwind)] []) ∧
      functions st' !! 4%positive =
        Some (mkFunction "_Z20convert_uint_sat_rtzf1"
                (FunctionTy Int32Ty [FloatTy] false) ExternalLinkage
                SPIR_FUNC [(FunctionIndex, NoUnwind)] []) ∧
      mangle SPRVBIS_OpenCL20 "convert_uint_sat_rtz" [FloatTy]
        = "_Z20convert_uint_sat_rtzf" ∧
      "_Z20convert_uint_sat_rtzf1"
        ≠ mangle SPRVBIS_OpenCL20 "convert_uint_sat_rtz" [FloatTy]
  | None => False
  end.
Proof. vm_compute. repeat split. discriminate. Qed.

(** C6 at an [OpCopyMemorySized] whose size is a parameter of the
    function: the callee is [llvm.memcpy.p1i8.p1i8.i32], the call has five
    arguments, and the third one, the size, is null. *)
Theorem copyMemorySized_size_parameter_is_passed_as_null :
  match transCopyMemorySized Example.transValue copyMemorySized
          (Some entryBlock) withParameters with
  | Some (V, st') =>
      V = InstructionV 4%positive ∧
      node_inst <$> insts st' !! 4%positive =
        Some (CallInst (Some (FunctionV 3%positive))
                [ Some (ArgumentV 1%positive 0);
                  Some (ArgumentV 1%positive 1);
                  None;
                  Some (ConstantInt Int32Ty 4);
                  Some (ConstantInt Int1Ty 0) ] "" CC_C []) ∧
      fn_name <$> functions st' !! 3%positive
        = Some "llvm.memcpy.p1i8.p1i8.i32" ∧
      ValueMap withParameters !! 62 = Some (ArgumentV 1%positive 2)
  | None => False
  end.
Proof. vm_compute. repeat split. Qed.

(** C7 at a barrier in a module that has a function of the mangled name
    with another type than the required one, [void (i32)]: no declaration
    is created, the call is to that function; and at an extended
    instruction whose callee is in the module with a further attribute: the
    call site gets no-unwind, not the attributes of the callee. *)
Theorem builtin_call_reuses_function_and_adds_nounwind :
  match (transFunction BM Example.transValue userBarrier;;
         transOCLBarrierFence controlBarrier (Some entryBlock))
          (after inFunction (initial emptyLog)) with
  | Some (Call, st') =>
      Call = 4%positive ∧
      insts st' !! Call =
        Some (mkInstNode
                (CallInst (Some (FunctionV 3%positive))
                   [Some (ConstantInt Int32Ty 1)] "" SPIR_FUNC
                   [(FunctionIndex, NoUnwind)])
                (Some entryBlock)) ∧
      bb_insts <$> blocks st' !! entryBlock = Some [Call] ∧
      mod_functions (M st') = [1%positive; 3%positive] ∧
      functions st' !! 3%positive =
        Some (mkFunction (mangle SPRVBIS_OpenCL20 "barrier" [Int32Ty])
                (FunctionTy Int32Ty [Int32Ty] false) ExternalLinkage
                SPIR_FUNC [(FunctionIndex, NoUnwind)] []) ∧
      FunctionTy Int32Ty [Int32Ty] false ≠ FunctionTy VoidTy [Int32Ty] false
  | None => False
  end ∧
  match (transFunction BM Example.transValue userAcos;;
         transOCLBuiltinFromExtInst BM Example.transValue acos
           (Some entryBlock))
          (after inFunction (initial emptyLog)) with
  | Some (Call, st') =>
      Call = 4%positive ∧
      insts st' !! Call =
        Some (mkInstNode
                (CallInst (Some (FunctionV 3%positive))
                   [Some (ConstantInt Int32Ty 40)] "r" SPIR_FUNC
                   [(FunctionIndex, NoUnwind)])
                (Some entryBlock)) ∧
      bb_insts <$> blocks st' !! entryBlock = Some [Call] ∧
      mod_functions (M st') = [1%positive; 3%positive] ∧
      functions st' !! 3%positive =
        Some (mkFunction (mangle SPRVBIS_OpenCL20 "acos" [FloatTy])
                (FunctionTy FloatTy [FloatTy] false) ExternalLinkage
                SPIR_FUNC
                [(FunctionIndex, NoUnwind); (FunctionIndex, ReadNone)] []) ∧
      [(FunctionIndex, NoUnwind)]
        ≠ [(FunctionIndex, NoUnwind); (FunctionIndex, ReadNone)]
  | None => False
  end.
Proof.
  split.
  - vm_compute. repeat split. discriminate.
  - vm_compute. repeat split. discriminate.
Qed.

(** The translation of the instance completes on a host where the file can
    be opened, whether it succeeds or fails; where no file can be opened
    nothing is returned. *)
Lemma ReadSPRV_reports_translation_witness :
  (∃ res, ReadSPRV BM Example.transValue pass pass pass pass pass pass pass
            true emptyLog "" ∅ writableHost = Some res ∧
          Succeed res = true ∧ is_Some (out_M res) ∧ out_ErrMsg res = "") ∧
  (∃ res, ReadSPRV invalidModule Example.transValue pass pass pass pass pass
            pass pass true emptyLog "" ∅ writableHost = Some res ∧
          Succeed res = false ∧ out_M res = None ∧
          out_ErrMsg res ≠ "" ∧ liveModules res = ∅) ∧
  ReadSPRV BM Example.transValue pass pass pass pass pass pass pass
    true emptyLog "" ∅ readOnlyHost = None.
Proof.
  split; [|split].
  - set (run := translate BM Example.transValue pass pass pass pass pass pass
                  pass).
    assert (Hr : run (initial emptyLog)
                 = Some (true, after run (initial emptyLog)))
      by (vm_compute; reflexivity).
    destruct (ReadSPRV_reports_translation BM Example.transValue pass pass
                pass pass pass pass pass true emptyLog "" ∅ writableHost)
      as (Hret & Hrun & _).
    destruct (Hrun _ _ Hr (λ _, eq_refl)) as [res Hres].
    destruct (Hret _ Hres) as (ok & BTL & Ht & Hok & Hres').
    fold run in Ht. rewrite Hr in Ht. injection Ht as <- <-.
    destruct Hres' as (Mh & HM & _ & _ & Herr).
    exists res. split; [exact Hres|]. split; [exact Hok|].
    split; [rewrite HM; eauto|exact Herr].
  - set (run := translate invalidModule Example.transValue pass pass pass
                  pass pass pass pass).
    assert (Hr : run (initial emptyLog)
                 = Some (false, after run (initial emptyLog)))
      by (vm_compute; reflexivity).
    destruct (ReadSPRV_reports_translation invalidModule Example.transValue
                pass pass pass pass pass pass pass true emptyLog "" ∅
                writableHost)
      as (Hret & Hrun & _).
    destruct (Hrun _ _ Hr (λ _, eq_refl)) as [res Hres].
    destruct (Hret _ Hres) as (ok & BTL & Ht & Hok & Hres').
    fold run in Ht. rewrite Hr in Ht. injection Ht as <- <-.
    destruct Hres' as (Herr & HM & Hheap).
    exists res. split; [exact Hres|]. split; [exact Hok|].
    split; [exact HM|]. split; [|exact Hheap].
    rewrite Herr. vm_compute. discriminate.
  - destruct (ReadSPRV_reports_translation BM Example.transValue pass pass
                pass pass pass pass pass true emptyLog "" ∅ readOnlyHost)
      as (_ & _ & Hno).
    exact (Hno eq_refl eq_refl).
Defined.

(** C9 at a module that translates, on a host where the file can be
    opened: the file is left empty, although the module prints as a
    non-empty text. *)
Theorem debug_file_is_left_empty :
  match ReadSPRV BM Example.transValue pass pass pass pass pass pass pass
          true emptyLog "" ∅ writableHost with
  | Some res =>
      Succeed res = true ∧
      files (out_files res) !! DbgTmpLLVMFileName = Some "" ∧
      ∃ Mh BTL, out_M res = Some Mh ∧ liveModules res !! Mh = Some BTL ∧
                printModule BTL ≠ ""
  | None => False
  end.
Proof.
  vm_compute. split; [reflexivity|]. split; [reflexivity|].
  eexists _, _. split; [reflexivity|]. split; [reflexivity|]. discriminate.
Qed.

End OnTheInstance.

(** ** The utilities *)

Section SPIRVMapProperties.
Context {Ty1 Ty2 : Type} `{Countable Ty1, Countable Ty2}.
Implicit Types (entries : list (Ty1 * Ty2)) (m : Util.SPIRVMap Ty1 Ty2).

Lemma init_snoc entries V1 V2 m :
  Util.init (entries ++ [(V1, V2)]) m = Util.add V1 V2 (Util.init entries m).
Proof. unfold Util.init. rewrite foldl_app. reflexivity. Qed.

Lemma init_IsReverse entries m :
  Util.IsReverse (Util.init entries m) = Util.IsReverse m.
Proof.
  induction entries as [|[V1 V2] l IH] using rev_ind; [reflexivity|].
  rewrite init_snoc. unfold Util.add.
  destruct (Util.IsReverse (Util.init l m)) eqn:E; cbn; congruence.
Qed.

Lemma Map_getMap entries :
  Util.Map (Util.getMap entries) = list_to_map (reverse entries).
Proof.
  unfold Util.getMap, Util.construct.
  induction entries as [|[V1 V2] l IH] using rev_ind; [reflexivity|].
  rewrite init_snoc, reverse_snoc. unfold Util.add.
  rewrite init_IsReverse. cbn. rewrite IH. reflexivity.
Qed.

Lemma RevMap_getRMap entries :
  Util.RevMap (Util.getRMap entries)
  = list_to_map (reverse (prod_swap <$> entries)).
Proof.
  unfold Util.getRMap, Util.construct.
  induction entries as [|[V1 V2] l IH] using rev_ind; [reflexivity|].
  rewrite init_snoc, fmap_app.
  change (prod_swap <$> [(V1, V2)]) with [(V2, V1)].
  rewrite reverse_snoc. unfold Util.add.
  rewrite init_IsReverse. cbn. rewrite IH. reflexivity.
Qed.

Lemma list_to_map_find `{Countable K} {V} (l : list (K * V)) (k : K) :
  (list_to_map l : gmap K V) !! k
  = snd <$> List.find (λ e, bool_decide (e.1 = k)) l.
Proof.
  induction l as [|[k' v] l IH]; [reflexivity|]. cbn.
  destruct (decide (k' = k)) as [->|Hne].
  - rewrite lookup_insert_eq, bool_decide_eq_true_2 by reflexivity.
    reflexivity.
  - rewrite lookup_insert_ne, bool_decide_eq_false_2 by assumption.
    exact IH.
Qed.

Lemma find_swap entries (Val : Ty2) :
  snd <$> List.find (λ e, bool_decide (e.1 = Val)) (prod_swap <$> entries)
  = fst <$> List.find (λ e, bool_decide (e.2 = Val)) entries.
Proof.
  induction entries as [|[k v] l IH]; [reflexivity|]. cbn.
  destruct (bool_decide (v = Val)); [reflexivity|exact IH].
Qed.

(** X1: the map is what the calls of [add] of [init] leave: [find] gives a
    key the value of the last call with that key, [rfind] gives a value the
    key of the last call with that value, and neither finds what no call
    has added. *)
Theorem SPIRVMap_last_add_wins entries (Key : Ty1) (Val : Ty2) :
  Util.find entries Key
    = snd <$> List.find (λ e, bool_decide (e.1 = Key)) (reverse entries) ∧
  Util.rfind entries Val
    = fst <$> List.find (λ e, bool_decide (e.2 = Val)) (reverse entries).
Proof.
  split.
  - unfold Util.find. rewrite Map_getMap. apply list_to_map_find.
  - unfold Util.rfind. rewrite RevMap_getRMap, list_to_map_find.
    rewrite <- fmap_reverse. apply find_swap.
Qed.

Lemma find_elem_of entries Key Val :
  Util.find entries Key = Some Val → (Key, Val) ∈ entries.
Proof.
  unfold Util.find. rewrite Map_getMap. intros Hl.
  apply elem_of_list_to_map_2 in Hl. by apply elem_of_reverse.
Qed.

Lemma elem_of_find entries Key Val :
  NoDup entries.*1 → (Key, Val) ∈ entries → Util.find entries Key = Some Val.
Proof.
  intros Hnd Hin. unfold Util.find. rewrite Map_getMap.
  apply elem_of_list_to_map_1; [|by apply elem_of_reverse].
  rewrite fmap_reverse. by rewrite reverse_Permutation.
Qed.

Lemma rfind_elem_of entries Key Val :
  Util.rfind entries Val = Some Key → (Key, Val) ∈ entries.
Proof.
  unfold Util.rfind. rewrite RevMap_getRMap. intros Hl.
  apply elem_of_list_to_map_2, elem_of_reverse, list_elem_of_fmap in Hl
    as ([k v] & [= -> ->] & Hin). exact Hin.
Qed.

Lemma elem_of_rfind entries Key Val :
  NoDup entries.*2 → (Key, Val) ∈ entries → Util.rfind entries Val = Some Key.
Proof.
  intros Hnd Hin. unfold Util.rfind. rewrite RevMap_getRMap.
  apply elem_of_list_to_map_1.
  - rewrite fmap_reverse, reverse_Permutation.
    rewrite <- list_fmap_compose.
    replace (fst ∘ prod_swap) with (snd : Ty1 * Ty2 → Ty2); [exact Hnd|].
    reflexivity.
  - apply elem_of_reverse, list_elem_of_fmap. by exists (Key, Val).
Qed.

(** X2: when no two calls of [add] have the same key and no two the same
    value, the two directions are inverse to each other: [rmap] gives the
    key back from the value of [map], and [map] the value back from the key
    of [rmap]. *)
Theorem SPIRVMap_round_trip entries (Key : Ty1) (Val : Ty2) :
  NoDup entries.*1 → NoDup entries.*2 →
  (Util.map entries Key = Some Val ↔ Util.rmap entries Val = Some Key) ∧
  (Util.map entries Key = Some Val → Util.map entries Key ≫= Util.rmap entries = Some Key) ∧
  (Util.rmap entries Val = Some Key → Util.rmap entries Val ≫= Util.map entries = Some Val).
Proof.
  intros Hk Hv. unfold Util.map, Util.rmap.
  assert (Hiff : Util.find entries Key = Some Val
                 ↔ Util.rfind entries Val = Some Key).
  { split; intros Hf.
    - apply elem_of_rfind; [exact Hv|]. by apply find_elem_of.
    - apply elem_of_find; [exact Hk|]. by apply rfind_elem_of. }
  split; [exact Hiff|]. split; intros Hf.
  - rewrite Hf. cbn. by apply Hiff.
  - rewrite Hf. cbn. by apply Hiff.
Qed.

(** *** Bit masks *)

Section BitMask.
Variable entries : list (Ty1 * Ty2).
Variable unsigned1 : Ty1 → N.
Variable unsigned2 : Ty2 → N.

Lemma foldl_lor_testbit {A} (g : A → N) (l : list A) (acc : N) (i : N) :
  N.testbit (foldl (λ Res x, N.lor Res (g x)) acc l) i
  = N.testbit acc i || existsb (λ x, N.testbit (g x) i) l.
Proof.
  revert acc. induction l as [|x l IH]; intros acc; cbn.
  - by rewrite orb_false_r.
  - rewrite IH, N.lor_spec, orb_assoc. reflexivity.
Qed.

Lemma foreach_lor_bits (g : Ty1 → Ty2 → N) (i : N) :
  N.testbit (Util.foreach entries (λ K V Res, N.lor Res (g K V)) 0) i = true
  ↔ ∃ K V, Util.find entries K = Some V ∧ N.testbit (g K V) i = true.
Proof.
  unfold Util.foreach, Util.find.
  set (M := Util.Map (Util.getMap entries)).
  assert (Hfold : ∀ l acc,
    foldl (λ s '(K, V), N.lor s (g K V)) acc l
    = foldl (λ Res x, N.lor Res (g x.1 x.2)) acc l).
  { induction l as [|[K V] l IH]; intros acc; [reflexivity|]. cbn. apply IH. }
  rewrite Hfold, foldl_lor_testbit, N.bits_0. cbn.
  rewrite existsb_exists. split.
  - intros ([K V] & Hin & Hb). exists K, V. split; [|exact Hb].
    apply elem_of_map_to_list. by apply list_elem_of_In.
  - intros (K & V & Hf & Hb). exists (K, V). split; [|exact Hb].
    apply list_elem_of_In. by apply elem_of_map_to_list.
Qed.

Lemma nonzero_bit (a : N) : a ≠ 0 ↔ ∃ i, N.testbit a i = true.
Proof.
  split.
  - intros Ha. exists (N.log2 a). by apply N.bit_log2.
  - intros [i Hi] ->. rewrite N.bits_0 in Hi. discriminate.
Qed.

Lemma land_nonzero (a b : N) :
  N.land a b ≠ 0 ↔ ∃ i, N.testbit a i = true ∧ N.testbit b i = true.
Proof.
  rewrite nonzero_bit. split; intros [i Hi]; exists i.
  - rewrite N.land_spec in Hi. by apply andb_true_iff.
  - rewrite N.land_spec. by apply andb_true_iff.
Qed.

Lemma selected_bits (c : bool) (v : N) (i : N) :
  N.testbit (if c then v else 0) i = true ↔ c = true ∧ N.testbit v i = true.
Proof.
  destruct c; [tauto|]. rewrite N.bits_0. split; [discriminate|].
  intros [? _]. discriminate.
Qed.

Lemma eqb_nonzero (a : N) : negb (a =? 0) = true ↔ a ≠ 0.
Proof. rewrite negb_true_iff, N.eqb_neq. tauto. Qed.

Lemma mapBitMask_bit (BM i : N) :
  N.testbit (Util.mapBitMask entries unsigned1 unsigned2 BM) i = true ↔
  ∃ K V, Util.find entries K = Some V ∧ N.land BM (unsigned1 K) ≠ 0 ∧
         N.testbit (unsigned2 V) i = true.
Proof.
  unfold Util.mapBitMask. rewrite foreach_lor_bits.
  split; intros (K & V & Hf & Hb); exists K, V; (split; [exact Hf|]).
  - apply selected_bits in Hb as [Hc Hb]. by apply eqb_nonzero in Hc.
  - destruct Hb as [Hc Hb]. apply selected_bits. by rewrite eqb_nonzero.
Qed.

Lemma rmapBitMask_bit (BM i : N) :
  N.testbit (Util.rmapBitMask entries unsigned1 unsigned2 BM) i = true ↔
  ∃ K V, Util.find entries K = Some V ∧ N.land BM (unsigned2 V) ≠ 0 ∧
         N.testbit (unsigned1 K) i = true.
Proof.
  unfold Util.rmapBitMask. rewrite foreach_lor_bits.
  split; intros (K & V & Hf & Hb); exists K, V; (split; [exact Hf|]).
  - apply selected_bits in Hb as [Hc Hb]. by apply eqb_nonzero in Hc.
  - destruct Hb as [Hc Hb]. apply selected_bits. by rewrite eqb_nonzero.
Qed.

(** X3: a bit is set in [mapBitMask(BM)] exactly when it is set in the
    value of an entry whose key has a bit in common with [BM]; so that the
    mask of no bit is mapped to no bit, and a bit of [BM] that belongs to
    no key has no effect. *)
Theorem mapBitMask_bits (BM : N) :
  (∀ i, N.testbit (Util.mapBitMask entries unsigned1 unsigned2 BM) i = true ↔
        ∃ K V, Util.find entries K = Some V ∧ N.land BM (unsigned1 K) ≠ 0 ∧
               N.testbit (unsigned2 V) i = true) ∧
  Util.mapBitMask entries unsigned1 unsigned2 0 = 0.
Proof.
  split; [intros i; apply mapBitMask_bit|].
  apply N.bits_inj_0. intros i. apply not_true_iff_false. intros Hb.
  apply mapBitMask_bit in Hb as (K & V & Hf & Hnz & _).
  apply Hnz, N.land_0_l.
Qed.

(** X4: when the values of the entries are not zero and have no bit in
    common with one another, [rmapBitMask] undoes [mapBitMask] up to the
    keys: the result has exactly the bits of the keys that have a bit in
    common with [BM]. *)
Theorem rmapBitMask_mapBitMask (BM : N) :
  (∀ K V, Util.find entries K = Some V → unsigned2 V ≠ 0) →
  (∀ K1 V1 K2 V2,
     Util.find entries K1 = Some V1 → Util.find entries K2 = Some V2 →
     K1 ≠ K2 → N.land (unsigned2 V1) (unsigned2 V2) = 0) →
  ∀ i, N.testbit (Util.rmapBitMask entries unsigned1 unsigned2
                    (Util.mapBitMask entries unsigned1 unsigned2 BM)) i = true
       ↔ ∃ K V, Util.find entries K = Some V ∧
                N.land BM (unsigned1 K) ≠ 0 ∧
                N.testbit (unsigned1 K) i = true.
Proof.
  intros Hnz Hdisj i. rewrite rmapBitMask_bit.
  assert (Hsel : ∀ K V, Util.find entries K = Some V →
    (N.land (Util.mapBitMask entries unsigned1 unsigned2 BM) (unsigned2 V) ≠ 0
     ↔ N.land BM (unsigned1 K) ≠ 0)).
  { intros K V Hf. split.
    - intros (j & Hm & Hv)%land_nonzero.
      apply mapBitMask_bit in Hm as (K' & V' & Hf' & Hsel & Hv').
      destruct (decide (K' = K)) as [->|Hne]; [exact Hsel|].
      exfalso. pose proof (Hdisj K' V' K V Hf' Hf Hne) as Hz.
      assert (Hnz' : N.land (unsigned2 V') (unsigned2 V) ≠ 0).
      { apply land_nonzero. eauto. }
      contradiction.
    - intros Hsel. apply land_nonzero.
      destruct (proj1 (nonzero_bit _) (Hnz K V Hf)) as [j Hj].
      exists j. split; [|exact Hj]. apply mapBitMask_bit. eauto. }
  split; intros (K & V & Hf & Hl & Hb); exists K, V;
    (split; [exact Hf|]); (split; [|exact Hb]); by apply (Hsel K V Hf).
Qed.

End BitMask.
End SPIRVMapProperties.

(** *** Strings *)

Lemma getline_extract_length SS Delim Item Rest :
  Util.getline_extract SS Delim = (Item, Rest) →
  (String.length Rest ≤ String.length SS)%nat ∧
  (SS ≠ "" → String.length Rest < String.length SS)%nat.
Proof.
  revert Item Rest. induction SS as [|c SS IH]; intros Item Rest; cbn.
  - intros [= <- <-]. split; [reflexivity|congruence].
  - destruct (Ascii.eqb c Delim).
    + intros [= <- <-]. split; [lia|intros _; lia].
    + destruct (Util.getline_extract SS Delim) as [Item' Rest'].
      intros [= <- <-]. destruct (IH _ _ eq_refl) as [Hle _].
      split; [lia|intros _; lia].
Qed.

Lemma getVec_loop_app fuel SS Delim Strs :
  (String.length SS ≤ fuel)%nat →
  Util.getVec_loop fuel SS Delim Strs = Strs ++ Util.getVec SS Delim.
Proof.
  revert SS Strs.
  induction fuel as [fuel IH] using lt_wf_ind. intros SS Strs Hle.
  unfold Util.getVec.
  destruct SS as [|c SS].
  - destruct fuel; cbn; by rewrite app_nil_r.
  - destruct fuel as [|fuel]; [cbn in Hle; lia|].
    cbn [String.length Util.getVec_loop Util.getline app].
    destruct (Util.getline_extract (String c SS) Delim) as [Item Rest] eqn:E.
    apply getline_extract_length in E as [_ Hlt].
    specialize (Hlt ltac:(discriminate)). cbn in Hlt, Hle.
    rewrite (IH fuel) by lia.
    rewrite (IH (String.length SS) ltac:(lia) Rest [Item]) by lia.
    cbn. by rewrite <- app_assoc.
Qed.

(** The loop of [getVec], one turn at a time. *)
Lemma getVec_unfold S Delim :
  Util.getVec S Delim =
  match S with
  | "" => []
  | _ => let '(Item, Rest) := Util.getline_extract S Delim in
         Item :: Util.getVec Rest Delim
  end.
Proof.
  destruct S as [|c S]; [reflexivity|].
  unfold Util.getVec at 1.
  cbn [String.length Util.getVec_loop Util.getline app].
  destruct (Util.getline_extract (String c S) Delim) as [Item Rest] eqn:E.
  apply getline_extract_length in E as [_ Hlt].
  specialize (Hlt ltac:(discriminate)). cbn in Hlt.
  rewrite getVec_loop_app by lia. reflexivity.
Qed.

(** The items joined by the delimiter. *)
Fixpoint join (Delim : ascii) (C : list string) : string :=
  match C with
  | [] => ""
  | [Item] => Item
  | Item :: C' => Item +:+ String Delim "" +:+ join Delim C'
  end.

Lemma getStr_join C Delim : Util.getStr C Delim = join Delim C.
Proof.
  unfold Util.getStr.
  assert (Hrest : ∀ C SS,
    (foldl (λ '(First, SS) I,
              if (First : bool) then (false, SS +:+ I)
              else (First, SS +:+ String Delim "" +:+ I)) (false, SS) C).2
    = match C with
      | [] => SS
      | _ => SS +:+ String Delim "" +:+ join Delim C
      end).
  { clear C. induction C as [|Item C IH]; intros SS; [reflexivity|].
    cbn [foldl]. rewrite IH. destruct C as [|Item' C]; [reflexivity|].
    rewrite !string_app_assoc. reflexivity. }
  destruct C as [|Item C]; [reflexivity|]. cbn [foldl]. rewrite Hrest.
  destruct C; reflexivity.
Qed.

(** [S] without the delimiter that ends it, when one does. *)
Fixpoint chop (S : string) (Delim : ascii) : string :=
  match S with
  | "" => ""
  | String c S' =>
      match S' with
      | "" => if Ascii.eqb c Delim then "" else S
      | _ => String c (chop S' Delim)
      end
  end.

Lemma join_cons_char c Item C Delim :
  join Delim (String c Item :: C) = String c (join Delim (Item :: C)).
Proof. destruct C; reflexivity. Qed.

Lemma join_getVec S Delim :
  join Delim (Util.getVec S Delim) = chop S Delim.
Proof.
  induction S as [|c S IH]; [reflexivity|].
  rewrite getVec_unfold. cbn [Util.getline_extract].
  destruct (Ascii.eqb c Delim) eqn:Ec.
  - apply Ascii.eqb_eq in Ec as ->. destruct S as [|c' S].
    + cbn [chop]. by rewrite Ascii.eqb_refl.
    + change (chop (String Delim (String c' S)) Delim)
        with (String Delim (chop (String c' S) Delim)).
      rewrite <- IH. rewrite (getVec_unfold (String c' S)).
      destruct (Util.getline_extract (String c' S) Delim) as [Item Rest].
      reflexivity.
  - destruct S as [|c' S].
    + cbn [chop]. by rewrite Ec.
    + change (chop (String c (String c' S)) Delim)
        with (String c (chop (String c' S) Delim)).
      rewrite <- IH. rewrite (getVec_unfold (String c' S)).
      destruct (Util.getline_extract (String c' S) Delim) as [Item Rest].
      apply join_cons_char.
Qed.

Lemma chop_snoc S Delim : chop (S +:+ String Delim "") Delim = S.
Proof.
  induction S as [|c S IH].
  - change (chop (String Delim "") Delim = ""). cbn [chop].
    by rewrite Ascii.eqb_refl.
  - change (chop (String c (S +:+ String Delim "")) Delim = String c S).
    cbn [chop]. destruct (S +:+ String Delim "") eqn:E.
    + destruct S; discriminate.
    + f_equal. exact IH.
Qed.

Lemma chop_cases S Delim :
  chop S Delim = S ∨ S = chop S Delim +:+ String Delim "".
Proof.
  induction S as [|c S IH]; [by left|]. cbn [chop].
  destruct S as [|c' S].
  - destruct (Ascii.eqb c Delim) eqn:Ec; [|by left].
    apply Ascii.eqb_eq in Ec as ->. by right.
  - destruct IH as [IH|IH]; [left; by rewrite IH|right].
    change (String c (String c' S)
            = String c (chop (String c' S) Delim +:+ String Delim "")).
    by rewrite <- IH.
Qed.

(** X5: joining with the delimiter what [getVec] has split gives the string
    back, except for one delimiter at its very end, which is lost: from the
    string [S] followed by the delimiter the result is [S], and from [S]
    itself the result is [S], or [S] without the delimiter it ends with. *)
Theorem getStr_getVec (S : string) (Delim : ascii) :
  Util.getStr (Util.getVec (S +:+ String Delim "") Delim) Delim = S ∧
  (Util.getStr (Util.getVec S Delim) Delim = S ∨
   S = Util.getStr (Util.getVec S Delim) Delim +:+ String Delim "").
Proof.
  rewrite !getStr_join, !join_getVec. split.
  - apply chop_snoc.
  - apply chop_cases.
Qed.

(** The delimiter does not occur in the item. *)
Definition free_of (Delim : ascii) (Item : string) : bool :=
  negb (existsb (Ascii.eqb Delim) (list_ascii_of_string Item)).

Lemma getline_extract_free Delim Item :
  free_of Delim Item = true →
  Util.getline_extract Item Delim = (Item, "") ∧
  ∀ Rest, Util.getline_extract (Item +:+ String Delim Rest) Delim
          = (Item, Rest).
Proof.
  unfold free_of. induction Item as [|c Item IH].
  - intros _. split; [reflexivity|]. intros Rest.
    change (Util.getline_extract (String Delim Rest) Delim = ("", Rest)).
    cbn [Util.getline_extract]. by rewrite Ascii.eqb_refl.
  - cbn [list_ascii_of_string existsb].
    rewrite negb_orb, andb_true_iff. intros [Hc HI].
    destruct (IH HI) as [IH1 IH2].
    apply negb_true_iff in Hc. rewrite Ascii.eqb_sym in Hc. split.
    + cbn [Util.getline_extract]. by rewrite Hc, IH1.
    + intros Rest.
      change (String c Item +:+ String Delim Rest)
        with (String c (Item +:+ String Delim Rest)).
      cbn [Util.getline_extract]. by rewrite Hc, IH2.
Qed.

Lemma getVec_join C Delim :
  forallb (free_of Delim) C = true →
  last C ≠ Some "" →
  Util.getVec (join Delim C) Delim = C.
Proof.
  induction C as [|Item C IH]; [reflexivity|].
  cbn [forallb]. rewrite andb_true_iff. intros [HI HC] Hlast.
  destruct (getline_extract_free _ _ HI) as [H1 H2].
  destruct C as [|Item' C].
  - cbn [join]. rewrite getVec_unfold.
    destruct Item as [|c Item]; [by destruct Hlast|].
    rewrite H1. reflexivity.
  - change (join Delim (Item :: Item' :: C))
      with (Item +:+ String Delim (join Delim (Item' :: C))).
    rewrite getVec_unfold, H2.
    destruct (Item +:+ String Delim (join Delim (Item' :: C))) eqn:E.
    + destruct Item; discriminate.
    + f_equal. apply IH; [exact HC|]. exact Hlast.
Qed.

(** X6: splitting what [getStr] has joined gives the items back, when the
    delimiter occurs in none of them and the last one is not empty; an
    empty last item is lost. *)
Theorem getVec_getStr (C : list string) (Delim : ascii) :
  forallb (λ Item, negb (existsb (Ascii.eqb Delim)
                           (list_ascii_of_string Item))) C = true →
  last C ≠ Some "" →
  Util.getVec (Util.getStr C Delim) Delim = C.
Proof. intros HC Hlast. rewrite getStr_join. by apply getVec_join. Qed.

(** X7: [concat] gives the empty string exactly when its second string is
    empty: the empty string is neutral on the left, but on the right it
    makes the first string disappear. *)
Theorem concat_empty (S1 S2 : string) (Delim : ascii) :
  (Util.concat S1 S2 Delim = "" ↔ S2 = "") ∧
  Util.concat "" S2 Delim = S2 ∧
  Util.concat S1 "" Delim = "".
Proof.
  unfold Util.concat. split; [|split].
  - repeat case_bool_decide; subst; cbn; split; try congruence.
    destruct S1; [congruence|discriminate].
  - reflexivity.
  - by repeat case_bool_decide.
Qed.

(** X8: the words counted by [getSizeInWords] hold the string and its
    terminating null character, with at most three bytes to spare; the
    count is refused only for a string of 2^34 - 4 characters or more. *)
Theorem getSizeInWords_bounds (Str : string) :
  let len := N.of_nat (String.length Str) in
  match Util.getSizeInWords Str with
  | Some w => len + 1 ≤ 4 * w ≤ len + 4
  | None => 2 ^ 34 - 4 ≤ len
  end.
Proof.
  intros len. unfold Util.getSizeInWords. fold len. clearbody len.
  pose proof (N.div_mod len 4 ltac:(lia)) as Hd.
  pose proof (N.mod_lt len 4 ltac:(lia)) as Hm.
  set (q := len / 4) in *. set (r := len mod 4) in *. clearbody q r.
  destruct (q + 1 <=? Util.UINT_MAX) eqn:E.
  - apply N.leb_le in E. unfold Util.UINT_MAX in E.
    rewrite N.mod_small by (change (2 ^ 32) with 4294967296; lia). lia.
  - apply N.leb_gt in E. unfold Util.UINT_MAX in E.
    change (2 ^ 34) with 17179869184. lia.
Qed.

(** X9: [getOrInsert] memoizes: the key holds the returned value afterwards,
    a second call returns that value without calling its function and
    without changing the map, and no other key is touched. *)
Theorem getOrInsert_memoizes `{Countable K} {V} (Map : gmap K V) (Key : K)
    (Func : unit → V) :
  let '(v, Map') := Util.getOrInsert Map Key Func in
  Map' !! Key = Some v ∧
  (∀ Func', Util.getOrInsert Map' Key Func' = (v, Map')) ∧
  (∀ Key', Key' ≠ Key → Map' !! Key' = Map !! Key') ∧
  (is_Some (Map !! Key) → Map' = Map).
Proof.
  unfold Util.getOrInsert. destruct (Map !! Key) as [v|] eqn:E.
  - split; [exact E|]. split; [|by split].
    intros Func'. by rewrite E.
  - lazy beta iota zeta. rewrite lookup_insert_eq.
    split; [reflexivity|]. split; [|split].
    + intros Func'. reflexivity.
    + intros Key' Hne. by rewrite lookup_insert_ne.
    + intros [? ?]. discriminate.
Qed.

(** ** The internal header *)

(** X10: [OpCodeMap] is not one-to-one: [OpUConvert] is the op code of both
    [ZExt] and [Trunc], [OpFConvert] of both [FPTrunc] and [FPExt], and the
    reverse map keeps the later entry.  So an LLVM op code comes back from
    [rmap(map(.))] as itself, except [ZExt], which comes back as [Trunc], and
    [FPTrunc], which comes back as [FPExt]; and every SPIR-V op code of the
    table comes back from [map(rmap(.))] as itself. *)
Theorem OpCodeMap_round_trip (OC : Internal.Opcode) (BOC : Internal.Op) :
  Util.map Internal.OpCodeMap OC ≫= Util.rmap Internal.OpCodeMap
    = Some match OC with
           | Internal.Instruction_ZExt => Internal.Instruction_Trunc
           | Internal.Instruction_FPTrunc => Internal.Instruction_FPExt
           | _ => OC
           end ∧
  Util.rmap Internal.OpCodeMap BOC ≫= Util.map Internal.OpCodeMap = Some BOC.
Proof. split; [destruct OC|destruct BOC]; vm_compute; reflexivity. Qed.

Section Move.
Context {T : Type}.
Implicit Types V : list T.

Lemma drop_take_sub V (e t : nat) :
  drop e (take t V) = take (t - e) (drop e V).
Proof.
  revert e t. induction V as [|x V IH]; intros e t.
  - by rewrite take_nil, !drop_nil, take_nil.
  - destruct t as [|t]; [by rewrite take_0, drop_nil|].
    destruct e as [|e]; [reflexivity|]. cbn. apply IH.
Qed.

(** X11: [move] takes the segment out and puts it back immediately before
    the element that was at [target] (at the end when [target] is the size):
    the other elements keep their order, and the result is a permutation of
    the vector.  The call is refused unless [begin < end <= size],
    [target <= size], and [target] is not inside the segment. *)
Theorem move_places_segment V (begin end_ target : nat) V' :
  Internal.move V begin end_ target = Some V' →
  let Segment := take (end_ - begin) (drop begin V) in
  (begin < end_ ≤ length V)%nat ∧ (target ≤ length V)%nat ∧
  ((target ≤ begin)%nat ∧
   V' = take target V ++ Segment ++ drop target (take begin V) ++ drop end_ V
   ∨
   (end_ ≤ target)%nat ∧
   V' = take begin V ++ drop end_ (take target V) ++ Segment ++ drop target V)
  ∧ V' ≡ₚ V.
Proof.
  intros Hm Segment. unfold Internal.move in Hm.
  destruct (negb _) eqn:Ea in Hm; [discriminate|].
  apply negb_false_iff in Ea.
  rewrite !andb_true_iff, negb_true_iff, andb_false_iff in Ea.
  destruct Ea as [[[Hbe Hel] Htl] Hout].
  apply Nat.ltb_lt in Hbe. apply Nat.leb_le in Hel, Htl.
  rewrite !Nat.ltb_ge in Hout.
  assert (HV : V = take begin V ++ Segment ++ drop end_ V).
  { unfold Segment. rewrite <- (take_drop begin V) at 1. f_equal.
    rewrite <- (take_drop (end_ - begin) (drop begin V)) at 1. f_equal.
    rewrite drop_drop. f_equal. lia. }
  split; [lia|]. split; [lia|].
  destruct (_ && _) eqn:Eb in Hm.
  - injection Hm as <-. apply andb_true_iff in Eb as [Hbt Hte].
    apply Nat.leb_le in Hbt, Hte. split; [|reflexivity].
    destruct Hout as [Hout|Hout].
    + left. split; [lia|]. assert (target = begin) as -> by lia.
      rewrite drop_take_sub, Nat.sub_diag, take_0. exact HV.
    + right. split; [lia|]. assert (target = end_) as -> by lia.
      rewrite drop_take_sub, Nat.sub_diag, take_0.
      rewrite HV at 1. reflexivity.
  - injection Hm as <-. apply andb_false_iff in Eb.
    rewrite Nat.leb_gt in Eb. rewrite Nat.leb_gt in Eb.
    replace (length V <? target)%nat with false
      by (symmetry; apply Nat.ltb_ge; lia).
    fold Segment.
    destruct (end_ <? target)%nat eqn:Et.
    + apply Nat.ltb_lt in Et.
      assert (Heq : take (target - (end_ - begin)) (take begin V ++ drop end_ V)
                    ++ Segment
                    ++ drop (target - (end_ - begin))
                         (take begin V ++ drop end_ V)
                    = take begin V ++ drop end_ (take target V) ++ Segment
                      ++ drop target V).
      { rewrite take_app_ge, drop_app_ge by (rewrite length_take; lia).
        rewrite length_take, Nat.min_l by lia.
        rewrite drop_take_sub, drop_drop. rewrite <- !app_assoc.
        replace (target - (end_ - begin) - begin)%nat
          with (target - end_)%nat by lia.
        replace (end_ + (target - end_))%nat with target by lia.
        reflexivity. }
      rewrite Heq. split.
      * right. split; [lia|reflexivity].
      * transitivity (take begin V ++ Segment ++ drop end_ V);
          [|by rewrite <- HV].
        apply Permutation_app_head. rewrite drop_take_sub.
        assert (Hd : drop end_ V
                     = take (target - end_) (drop end_ V) ++ drop target V).
        { rewrite <- (take_drop (target - end_) (drop end_ V)) at 1.
          rewrite drop_drop. do 2 f_equal. lia. }
        rewrite Hd at 2. apply Permutation_app_swap_app.
    + apply Nat.ltb_ge in Et. assert (Htb : (target < begin)%nat) by lia.
      assert (Heq : take target (take begin V ++ drop end_ V) ++ Segment
                    ++ drop target (take begin V ++ drop end_ V)
                    = take target V ++ Segment ++ drop target (take begin V)
                      ++ drop end_ V).
      { rewrite take_app_le, drop_app_le by (rewrite length_take; lia).
        rewrite take_take, Nat.min_l by lia. reflexivity. }
      rewrite Heq. split.
      * left. split; [lia|reflexivity].
      * transitivity (take begin V ++ Segment ++ drop end_ V);
          [|by rewrite <- HV].
        assert (Hd : take begin V
                     = take target V ++ drop target (take begin V)).
        { rewrite <- (take_drop target (take begin V)) at 1.
          by rewrite take_take, Nat.min_l by lia. }
        rewrite Hd at 2. rewrite <- app_assoc.
        apply Permutation_app_head, Permutation_app_swap_app.
Qed.

End Move.

Section MangleProperties.
Context {TypePrimitiveEnum : Type}.
Implicit Types I : Internal.BuiltinFuncMangleInfo TypePrimitiveEnum.

(** X12: the index -1 stands for every argument in the sets of the
    unsigned and of the void-pointer arguments, and for itself only in the
    sets of the sampler and of the atomic arguments. *)
Theorem mangle_info_wildcard I (Ndx Arg : Z) :
  Internal.isArgUnsigned _ (Internal.addUnsignedArg _ Ndx I) Arg
    = Internal.isArgUnsigned _ I Arg
      || bool_decide (Ndx = Arg) || bool_decide (Ndx = (-1)%Z) ∧
  Internal.isArgVoidPtr _ (Internal.addVoidPtrArg _ Ndx I) Arg
    = Internal.isArgVoidPtr _ I Arg
      || bool_decide (Ndx = Arg) || bool_decide (Ndx = (-1)%Z) ∧
  Internal.isArgSampler _ (Internal.addSamplerArg _ Ndx I) Arg
    = Internal.isArgSampler _ I Arg || bool_decide (Ndx = Arg) ∧
  Internal.isArgAtomic _ (Internal.addAtomicArg _ Ndx I) Arg
    = Internal.isArgAtomic _ I Arg || bool_decide (Ndx = Arg).
Proof.
  unfold Internal.isArgUnsigned, Internal.isArgVoidPtr, Internal.isArgSampler,
    Internal.isArgAtomic. cbn.
  repeat split; apply eq_true_iff_eq;
    rewrite ?orb_true_iff, !bool_decide_eq_true, ?elem_of_union,
      ?elem_of_singleton; intuition (subst; auto).
Qed.

(** X13: an attribute or an enum set for an argument index is found for
    that index before the one set for the index -1, which is found for
    every index that has none of its own; an index with neither has the
    attribute 0 and no enum. *)
Theorem mangle_info_precedence I (Ndx Arg : Z) (A : N)
    (E : TypePrimitiveEnum) :
  Internal.getArgAttr _ (Internal.setArgAttr _ Ndx A I) Arg
    = (if decide (Arg = Ndx) then A
       else if decide (Ndx = (-1)%Z ∧ Internal.Attrs _ I !! Arg = None) then A
       else Internal.getArgAttr _ I Arg) ∧
  Internal.isArgEnum _ (Internal.setEnumArg _ Ndx E I) Arg
    = (if decide (Arg = Ndx) then Some E
       else if decide (Ndx = (-1)%Z ∧ Internal.EnumArgs _ I !! Arg = None)
       then Some E
       else Internal.isArgEnum _ I Arg) ∧
  Internal.getArgAttr _
    (Internal.BuiltinFuncMangleInfo_new TypePrimitiveEnum "") Arg = 0 ∧
  Internal.isArgEnum _
    (Internal.BuiltinFuncMangleInfo_new TypePrimitiveEnum "") Arg = None.
Proof.
  unfold Internal.getArgAttr, Internal.isArgEnum. cbn.
  split; [|split; [|split; reflexivity]].
  - destruct (decide (Arg = Ndx)) as [->|Hne].
    + by rewrite lookup_insert_eq.
    + rewrite lookup_insert_ne by congruence.
      destruct (Internal.Attrs _ I !! Arg) as [a|] eqn:Ea.
      * by rewrite decide_False by (intros [_ ?]; discriminate).
      * destruct (decide (Ndx = (-1)%Z)) as [->|Hn1].
        -- rewrite lookup_insert_eq. by rewrite decide_True.
        -- rewrite lookup_insert_ne by congruence.
           by rewrite decide_False by (intros [? _]; contradiction).
  - destruct (decide (Arg = Ndx)) as [->|Hne].
    + by rewrite lookup_insert_eq.
    + rewrite lookup_insert_ne by congruence.
      destruct (Internal.EnumArgs _ I !! Arg) as [a|] eqn:Ea.
      * by rewrite decide_False by (intros [_ ?]; discriminate).
      * destruct (decide (Ndx = (-1)%Z)) as [->|Hn1].
        -- rewrite lookup_insert_eq. by rewrite decide_True.
        -- rewrite lookup_insert_ne by congruence.
           by rewrite decide_False by (intros [? _]; contradiction).
Qed.

End MangleProperties.

(** ** Names and literals *)

Lemma land_low (c y k : N) : c < 2 ^ k → N.land c (y * 2 ^ k) = 0.
Proof.
  intros Hc. apply N.bits_inj. intros i.
  rewrite N.land_spec, N.bits_0.
  destruct (N.lt_ge_cases i k) as [Hlt|Hge].
  - rewrite N.mul_pow2_bits_low by exact Hlt. apply andb_false_r.
  - rewrite <- (N.mod_small c (2 ^ k)) by exact Hc.
    by rewrite N.mod_pow2_bits_high.
Qed.

Lemma lor_add_low (c y k : N) :
  c < 2 ^ k → N.lor c (y * 2 ^ k) = c + y * 2 ^ k.
Proof.
  intros Hc. pose proof (land_low c y k Hc) as Hl.
  rewrite <- N.lxor_lor by exact Hl. symmetry.
  by apply N.add_nocarry_lxor.
Qed.

Lemma sampler_literal (AddrMode Normalized FilterMode : N) :
  AddrMode < 8 → Normalized < 2 → FilterMode < 2 ^ 28 - 1 →
  oclTransConstantSampler AddrMode Normalized FilterMode
  = ConstantInt Int32Ty
      (Z.of_N (16 * (FilterMode + 1) + 2 * AddrMode + Normalized)).
Proof.
  intros HA HN HF. unfold oclTransConstantSampler. do 2 f_equal.
  change (2 ^ 28) with 268435456 in HF.
  rewrite !N.shiftl_mul_pow2.
  rewrite (N.mod_small (FilterMode + 1))
    by (change (2 ^ 32) with 4294967296; lia).
  rewrite !N.mod_small by (change (2 ^ 32) with 4294967296;
                           change (2 ^ 4) with 16; change (2 ^ 1) with 2; lia).
  rewrite (N.lor_comm (AddrMode * 2 ^ 1)).
  rewrite (lor_add_low Normalized AddrMode 1) by (change (2 ^ 1) with 2; lia).
  rewrite lor_add_low by (change (2 ^ 4) with 16; change (2 ^ 1) with 2; lia).
  change (2 ^ 4) with 16. change (2 ^ 1) with 2. lia.
Qed.

(** X14: the literal of a constant sampler holds its three fields side by
    side, the normalized flag in bit 0, the addressing mode in bits 1 to 3
    and the filter mode plus one from bit 4 on: it is their weighted sum, so
    that samplers with different fields have different literals. *)
Theorem oclTransConstantSampler_layout (AddrMode Normalized FilterMode : N) :
  AddrMode < 8 → Normalized < 2 → FilterMode < 2 ^ 28 - 1 →
  oclTransConstantSampler AddrMode Normalized FilterMode
  = ConstantInt Int32Ty
      (Z.of_N (16 * (FilterMode + 1) + 2 * AddrMode + Normalized)) ∧
  ∀ AddrMode' Normalized' FilterMode',
    AddrMode' < 8 → Normalized' < 2 → FilterMode' < 2 ^ 28 - 1 →
    oclTransConstantSampler AddrMode' Normalized' FilterMode'
    = oclTransConstantSampler AddrMode Normalized FilterMode →
    AddrMode' = AddrMode ∧ Normalized' = Normalized ∧
    FilterMode' = FilterMode.
Proof.
  intros HA HN HF. split; [by apply sampler_literal|].
  intros A' N' F' HA' HN' HF'.
  rewrite !sampler_literal by assumption. intros [= Heq]. lia.
Qed.

Section TypeNames.
Context `{Externals}.

Lemma str_find_0 (pat : string) (c : ascii) (s : string) :
  str_find pat (String c s) = Some 0%nat
  ↔ String.prefix pat (String c s) = true.
Proof.
  unfold str_find. cbn [String.index].
  destruct (String.prefix pat (String c s)); [tauto|].
  destruct (String.index 0 pat s); split; discriminate.
Qed.

Lemma substring_all (s : string) : String.substring 0 (String.length s) s = s.
Proof. induction s as [|c s IH]; [reflexivity|]. cbn. by rewrite IH. Qed.

(** X15: the signedness given to [transTypeToOCLTypeName] shows in the name
    of an integer type only: under a pointer or in a vector an unsigned
    integer is named as the signed one.  The name of a structure that
    begins with [struct.] or [union.] has the dot replaced by a space. *)
Theorem transTypeToOCLTypeName_signedness (T : SPRVType) :
  (transTypeToOCLTypeName T false = transTypeToOCLTypeName T true ∨
   ∃ bits sg, T = TypeInt bits sg) ∧
  (∀ E sc sg, transTypeToOCLTypeName (TypePointer (TypeInt 32 sg) sc) false
              = Some "int*" ∧
              transTypeToOCLTypeName (TypeVector (TypeInt 8 sg) 4) false
              = Some "char4" ∧
              transTypeToOCLTypeName (TypeInt 32 sg) false = Some "uint" ∧
              transTypeToOCLTypeName (TypePointer E sc) sg
              = (λ Name, Name +:+ "*") <$> transTypeToOCLTypeName E true) ∧
  (∀ Ms Name packed sg,
     transTypeToOCLTypeName (TypeStruct Ms ("struct." +:+ Name) packed) sg
     = Some ("struct " +:+ Name) ∧
     transTypeToOCLTypeName (TypeStruct Ms ("union." +:+ Name) packed) sg
     = Some ("union " +:+ Name)).
Proof.
  split; [|split].
  - destruct T; try (left; reflexivity). right. eauto.
  - intros E sc sg. repeat split; reflexivity.
  - intros Ms Name packed sg. split.
    + cbn [transTypeToOCLTypeName]. unfold setSpace.
      destruct Name as [|a Name]; [reflexivity|].
      change ("struct." +:+ String a Name)
        with (String "s" (String "t" (String "r" (String "u" (String "c"
                (String "t" (String "." (String a Name)))))))).
      rewrite bool_decide_eq_true_2 by (vm_compute; reflexivity).
      cbn [String.length Nat.sub String.substring Nat.add].
      rewrite substring_all. reflexivity.
    + cbn [transTypeToOCLTypeName]. unfold setSpace.
      destruct Name as [|a Name]; [reflexivity|].
      change ("union." +:+ String a Name)
        with (String "u" (String "n" (String "i" (String "o" (String "n"
                (String "." (String a Name))))))).
      rewrite bool_decide_eq_false_2
        by (rewrite str_find_0; vm_compute; discriminate).
      rewrite bool_decide_eq_true_2 by (vm_compute; reflexivity).
      cbn [String.length Nat.sub String.substring Nat.add].
      rewrite substring_all. reflexivity.
Qed.

End TypeNames.

(** *** The qualifiers of a kernel argument *)

(** The parts of a string between the delimiters, the empty ones
    included. *)
Fixpoint segments (S : string) (Delim : ascii) : list string :=
  match S with
  | "" => [""]
  | String c S' =>
      if Ascii.eqb c Delim then "" :: segments S' Delim
      else match segments S' Delim with
           | Item :: C => String c Item :: C
           | [] => [String c ""]
           end
  end.

Lemma segments_cons S Delim : ∃ Item C, segments S Delim = Item :: C.
Proof.
  induction S as [|c S (Item & C & IH)]; cbn; [eauto|].
  destruct (Ascii.eqb c Delim); [eauto|]. rewrite IH. eauto.
Qed.

Lemma getVec_cons c S Delim :
  Util.getVec (String c S) Delim =
  if Ascii.eqb c Delim then "" :: Util.getVec S Delim
  else match Util.getVec S Delim with
       | Item :: C => String c Item :: C
       | [] => [String c ""]
       end.
Proof.
  rewrite getVec_unfold. cbn [Util.getline_extract].
  destruct (Ascii.eqb c Delim); [reflexivity|].
  rewrite (getVec_unfold S). destruct S as [|c' S]; [reflexivity|].
  destruct (Util.getline_extract (String c' S) Delim) as [Item Rest].
  reflexivity.
Qed.

Lemma segments_getVec S Delim :
  ∃ tl, segments S Delim = Util.getVec S Delim ++ tl ∧ (tl = [] ∨ tl = [""]).
Proof.
  induction S as [|c S (tl & IH & Htl)].
  - exists [""]. split; [reflexivity|by right].
  - rewrite getVec_cons. cbn [segments].
    destruct (Ascii.eqb c Delim).
    + exists tl. rewrite IH. split; [reflexivity|exact Htl].
    + rewrite IH. destruct (Util.getVec S Delim) as [|Item C].
      * exists []. destruct Htl as [->| ->]; split; auto.
      * exists tl. split; [reflexivity|exact Htl].
Qed.

Definition nonempty (Item : string) : bool := negb (bool_decide (Item = "")).

Lemma words_getVec S Delim :
  List.filter nonempty (Util.getVec S Delim)
  = List.filter nonempty (segments S Delim).
Proof.
  destruct (segments_getVec S Delim) as (tl & -> & Htl).
  rewrite List.filter_app.
  destruct Htl as [-> | ->]; cbn; by rewrite app_nil_r.
Qed.

Lemma segments_app A B Delim :
  segments (A +:+ String Delim B) Delim
  = segments A Delim ++ segments B Delim.
Proof.
  induction A as [|c A IH].
  - change ("" +:+ String Delim B) with (String Delim B). cbn [segments].
    by rewrite Ascii.eqb_refl.
  - change (String c A +:+ String Delim B)
      with (String c (A +:+ String Delim B)). cbn [segments].
    rewrite IH. destruct (Ascii.eqb c Delim); [reflexivity|].
    destruct (segments_cons A Delim) as (Item & C & ->). reflexivity.
Qed.

Lemma segments_word W Delim :
  free_of Delim W = true → segments W Delim = [W].
Proof.
  unfold free_of. induction W as [|c W IH]; [reflexivity|].
  cbn [list_ascii_of_string existsb segments].
  rewrite negb_orb, andb_true_iff. intros [Hc HW].
  apply negb_true_iff in Hc. rewrite Ascii.eqb_sym in Hc.
  by rewrite Hc, IH.
Qed.

(** The word a parameter attribute adds to the qualifiers. *)
Definition qualifierOf (Kind : SPRVFuncParamAttrKind) : option string :=
  match Kind with
  | SPRVFPA_NoAlias => Some "restrict"
  | SPRVFPA_Const => Some "const"
  | _ => None
  end.

Lemma kernelArgTypeQual_step Qual Kind :
  let Qual1 := Qual +:+ (if bool_decide (Qual = "") then "" else " ") in
  List.filter nonempty
    (segments match Kind with
              | SPRVFPA_NoAlias => Qual1 +:+ "restrict"
              | SPRVFPA_Const => Qual1 +:+ "const"
              | _ => Qual1
              end " ")
  = List.filter nonempty (segments Qual " ")
    ++ match qualifierOf Kind with Some W => [W] | None => [] end.
Proof.
  intros Qual1. subst Qual1. case_bool_decide as HQ.
  - subst Qual. destruct Kind; reflexivity.
  - assert (Hsp : ∀ W, free_of " " W = true →
      List.filter nonempty (segments ((Qual +:+ " ") +:+ W) " ")
      = List.filter nonempty (segments Qual " ")
        ++ List.filter nonempty [W]).
    { intros W HW. rewrite string_app_assoc.
      change (" " +:+ W) with (String " " W).
      by rewrite segments_app, List.filter_app, (segments_word W). }
    assert (Hnone :
      List.filter nonempty (segments (Qual +:+ " ") " ")
      = List.filter nonempty (segments Qual " ") ++ []).
    { pose proof (Hsp "" eq_refl) as Hn.
      rewrite string_app_nil_r in Hn. exact Hn. }
    destruct Kind; cbn [qualifierOf]; try exact Hnone;
      by rewrite Hsp.
Qed.

(** X16: the qualifier string of a kernel argument, split at the spaces
    with the empty items dropped, is [volatile] when the argument has the
    decoration, followed by [restrict] for every no-alias and [const] for
    every const attribute, in the order of the attributes.  (The string
    itself has a space for every other attribute in between.) *)
Theorem kernelArgTypeQual_words (hasVolatile : bool)
    (Attrs : list SPRVFuncParamAttrKind) :
  List.filter (λ Item, negb (bool_decide (Item = "")))
    (Util.getVec (kernelArgTypeQual hasVolatile Attrs) " ")
  = (if hasVolatile then ["volatile"] else [])
    ++ omap (λ Kind, match Kind with
                     | SPRVFPA_NoAlias => Some "restrict"
                     | SPRVFPA_Const => Some "const"
                     | _ => None
                     end) Attrs.
Proof.
  fold nonempty. fold qualifierOf. rewrite words_getVec.
  unfold kernelArgTypeQual.
  set (Q := if hasVolatile then "volatile" else "").
  assert (HQ : List.filter nonempty (segments Q " ")
               = if hasVolatile then ["volatile"] else [])
    by (destruct hasVolatile; reflexivity).
  rewrite <- HQ. clearbody Q. clear HQ. revert Q.
  induction Attrs as [|Kind Attrs IH]; intros Q.
  - cbn. by rewrite app_nil_r.
  - cbn [foldl omap list_omap]. rewrite IH, kernelArgTypeQual_step.
    rewrite <- app_assoc. f_equal. destruct (qualifierOf Kind); reflexivity.
Qed.

(** ** Extended instructions *)

Lemma mapT_length {A B} (f : A → Trans B) (l : list A) st bs st' :
  mapT f l st = Some (bs, st') → length bs = length l.
Proof.
  revert st bs st'. induction l as [|x l IH]; intros st bs st' Hr; cbn in Hr.
  - apply mret_Some in Hr as [<- _]. reflexivity.
  - apply bind_Some in Hr as (y & s1 & _ & Hr).
    apply bind_Some in Hr as (ys & s2 & Hl & Hr).
    apply mret_Some in Hr as [<- _]. cbn. f_equal. exact (IH _ _ _ Hl).
Qed.

Section ExtInstNames.
Context `{Externals}.
Variable BM : SPRVModule.
Variable transValue :
  SPRVValue → option handle → option handle → bool → Trans Value.

(** X17: [transOCLVectorLoadStore] never writes the translator and never
    adds an argument word: the words are left as they are or lose their
    last one, and a name that begins neither with [vload] nor with [vstore]
    is left as it is, with all its words. *)
Theorem transOCLVectorLoadStore_invariant (UnmangledName : string)
    (BArgs : list N) (st : SPRVToLLVM) Name' BArgs' st' :
  transOCLVectorLoadStore BM UnmangledName BArgs st
    = Some (Name', BArgs', st') →
  st' = st ∧
  (BArgs' = BArgs ∨ BArgs' = removelast BArgs) ∧
  (str_find "vload" UnmangledName ≠ Some 0%nat →
   str_find "vstore" UnmangledName ≠ Some 0%nat →
   Name' = UnmangledName ∧ BArgs' = BArgs).
Proof.
  intros Hr.
  assert (Hst : st' = st).
  { eapply respects_eq; [exact Hr|]. apply transOCLVectorLoadStore_pure. }
  subst st'. split; [reflexivity|].
  unfold transOCLVectorLoadStore in Hr.
  destruct (bool_decide (str_find "vload" UnmangledName = Some 0%nat)) eqn:Evl.
  - apply bool_decide_eq_true in Evl.
    split; [|intros Hno; contradiction].
    destruct (bool_decide (is_Some (str_find "n" UnmangledName))) eqn:En;
      cbn [andb] in Hr.
    + apply bind_Some in Hr as (pos & s1 & _ & Hr).
      apply bind_Some in Hr as (back & s2 & _ & Hr).
      apply mret_Some in Hr as [[= _ <-] _]. by right.
    + destruct (bool_decide (str_find "vstore" UnmangledName = Some 0%nat)).
      * apply bind_Some in Hr as (Name1 & s1 & _ & Hr).
        destruct (str_find "_r" Name1).
        -- apply bind_Some in Hr as (back & s2 & _ & Hr).
           apply bind_Some in Hr as (R & s3 & _ & Hr).
           apply mret_Some in Hr as [[= _ <-] _]. by right.
        -- apply mret_Some in Hr as [[= _ <-] _]. by left.
      * apply mret_Some in Hr as [[= _ <-] _]. by left.
  - apply bool_decide_eq_false in Evl. cbn [andb] in Hr.
    destruct (bool_decide (str_find "vstore" UnmangledName = Some 0%nat))
      eqn:Evs.
    + apply bool_decide_eq_true in Evs.
      split; [|intros _ Hno; contradiction].
      apply bind_Some in Hr as (Name1 & s1 & _ & Hr).
      destruct (str_find "_r" Name1).
      * apply bind_Some in Hr as (back & s2 & _ & Hr).
        apply bind_Some in Hr as (R & s3 & _ & Hr).
        apply mret_Some in Hr as [[= _ <-] _]. by right.
      * apply mret_Some in Hr as [[= _ <-] _]. by left.
    + apply mret_Some in Hr as [[= <- <-] _]. auto.
Qed.

Lemma printf_callee BC st F BArgs s1 :
  getBuiltinSet BC ≠ SPRVBIS_Count →
  getEntryPoint BC = OCL_Printf (getBuiltinSet BC) →
  transOCLBuiltinFromExtInstCallee BM BC st = Some (F, BArgs, s1) →
  BArgs = getArgumentWords BC ∧
  ∃ RetTy ArgTy Rest ArgVals ArgBTys,
    mapM (getValue BM) BArgs = Some ArgVals ∧
    mapM valueType ArgVals = Some ArgBTys ∧
    transTypeVector ArgBTys = Some (ArgTy :: Rest) ∧
    (valueType (ext_value BC) ≫= transType) = Some RetTy ∧
    calleeByName (FunctionTy RetTy [ArgTy] true) "printf" st F s1.
Proof.
  intros Hset Hep. unfold transOCLBuiltinFromExtInstCallee. intros Hr.
  assert (Hknown : match getBuiltinSet BC with
                   | SPRVBIS_Count => false | _ => true end = true)
    by (destruct (getBuiltinSet BC); congruence).
  rewrite Hknown, Hep, N.eqb_refl in Hr. cbn [andb negb] in Hr.
  apply bind_Some in Hr as (U0 & s & H0 & Hr).
  apply mret_Some in H0 as [<- <-].
  apply bind_Some in Hr as ([U BA] & s & H1 & Hr).
  apply mret_Some in H1 as [[= <- <-] <-].
  apply bind_Some in Hr as (ArgVals & s & H2 & Hr).
  apply required_Some in H2 as [H2 ->].
  apply bind_Some in Hr as (ArgBTys & s & H3 & Hr).
  apply required_Some in H3 as [H3 ->].
  apply bind_Some in Hr as (ArgTypes0 & s & H4 & Hr).
  apply required_Some in H4 as [H4 ->].
  apply bind_Some in Hr as ([[MangledName IsVarArg] ArgTypes] & s & H5 & Hr).
  apply bind_Some in H5 as (u & s' & Hne & H5).
  apply assert_Some in Hne as [Hne ->]. apply bool_decide_eq_true in Hne.
  apply mret_Some in H5 as [[= <- <- <-] <-].
  apply bind_Some in Hr as (BT & s & H6 & Hr).
  apply required_Some in H6 as [H6 ->].
  apply bind_Some in Hr as (RetTy & s & H7 & Hr).
  apply required_Some in H7 as [H7 ->].
  split; [|destruct ArgTypes0 as [|ArgTy Rest]; [congruence|]].
  - apply bind_Some in Hr as (F0 & s & _ & Hr).
    apply bind_Some in Hr as (F' & s2 & _ & Hr).
    apply mret_Some in Hr as [[= _ <-] _]. reflexivity.
  - exists RetTy, ArgTy, Rest, ArgVals, ArgBTys.
    assert (HBA : BArgs = getArgumentWords BC).
    { apply bind_Some in Hr as (F0 & s & _ & Hr).
      apply bind_Some in Hr as (F' & s2 & _ & Hr).
      apply mret_Some in Hr as [[= _ <-] _]. reflexivity. }
    rewrite HBA. split; [exact H2|]. split; [exact H3|].
    split; [exact H4|]. split; [by rewrite H6|].
    destruct (getFunction_run "printf" st) as [r Hg].
    rewrite (bind_eq _ _ _ _ _ Hg) in Hr. exists r. split; [exact Hg|].
    apply bind_Some in Hr as (F' & s & HF & Hr).
    apply mret_Some in Hr as [[= <- _] <-].
    destruct r as [F0|].
    + apply mret_Some in HF as [<- <-]. auto.
    + rewrite declareBuiltin_run in HF. injection HF as <- <-. auto.
Qed.

Lemma mapM_cons_inv {A B} (f : A → option B) l y ys :
  mapM f l = Some (y :: ys) →
  ∃ x xs, l = x :: xs ∧ f x = Some y ∧ mapM f xs = Some ys.
Proof.
  intros Hm. apply mapM_Some in Hm.
  apply Forall2_cons_inv_r in Hm as (x & xs & Hx & Hxs & ->).
  exists x, xs. split; [reflexivity|]. split; [exact Hx|].
  by apply mapM_Some.
Qed.

(** The two cases of the callee by name, spelled out: the function found
    under the name, whatever its type, or a new declaration when no
    function of the module has the name. *)
Lemma calleeByName_cases FT MangledName st Func s1 :
  MangledName ≠ "" →
  calleeByName FT MangledName st Func s1 →
  (s1 = st ∧ Func ∈ mod_functions (M st) ∧
   ∃ Fo, functions st !! Func = Some Fo ∧ fn_name Fo = MangledName) ∨
  (functions st !! Func = None ∧
   s1 = withDeclaration Func (builtinDeclaration st FT MangledName) st ∧
   ∀ F0 Fo0, F0 ∈ mod_functions (M st) → functions st !! F0 = Some Fo0 →
     fn_name Fo0 ≠ MangledName).
Proof.
  intros Hne (r & Hg & Hr). apply getFunction_Some in Hg as [_ Hg].
  destruct r as [F0|].
  - destruct Hr as [-> ->]. destruct Hg as (Hin & Fo & HFo & Hn).
    left. eauto 10.
  - destruct Hr as [-> ->]. right.
    split; [apply newHandle_functions|]. split; [reflexivity|].
    exact (Hg Hne).
Qed.

(** X18: printf is not mangled: an extended instruction whose entry point
    is that of [printf] in its instruction set calls the function of the
    module that is named [printf], whatever its type; when no function of
    the module has that name, it declares one under the name [printf]
    (which a global variable of that name makes the module change), with
    the calling convention [spir_func] and no-unwind, variadic, and with
    the lowered type of the instruction as its return type and the lowered
    type of the first argument as its one parameter.  After the callee and
    the operands the state differs by one instruction, the call, at the end
    of the block: it passes every argument of the instruction and has the
    calling convention of the callee and the no-unwind attribute. *)
Theorem printf_is_not_mangled (BC : SPRVExtInst) (BB : option handle)
    (st st' : SPRVToLLVM) (Call : handle) :
  getBuiltinSet BC ≠ SPRVBIS_Count →
  getEntryPoint BC = OCL_Printf (getBuiltinSet BC) →
  transOCLBuiltinFromExtInst BM transValue BC BB st = Some (Call, st') →
  ∃ BT RetTy W Ws BV0 BT0 ArgTy F Fo1 s1 ArgVals Args s2 bb B Fo n,
    let FT := FunctionTy RetTy [ArgTy] true in
    (* the return type and the one parameter *)
    valueType (ext_value BC) = Some BT ∧ transType BT = Some RetTy ∧
    getArgumentWords BC = W :: Ws ∧ getValue BM W = Some BV0 ∧
    valueType BV0 = Some BT0 ∧ transType BT0 = Some ArgTy ∧
    (* the callee: found, or declared *)
    functions s1 !! F = Some Fo1 ∧
    F ∈ mod_functions (M s1) ∧
    ((s1 = st ∧ functions st !! F = Some Fo1 ∧
      F ∈ mod_functions (M st) ∧ fn_name Fo1 = "printf") ∨
     (functions st !! F = None ∧
      Fo1 = builtinDeclaration st FT "printf" ∧
      s1 = withDeclaration F Fo1 st ∧
      ∀ F0 Fo0, F0 ∈ mod_functions (M st) →
        functions st !! F0 = Some Fo0 → fn_name Fo0 ≠ "printf")) ∧
    (fn_name Fo1 = "printf" ∨
     ("printf" ∈ moduleNames st ∧
      fn_name Fo1 = "printf" +:+ uniqueSuffix (moduleNames st) "printf" ∧
      fn_name Fo1 ≠ "printf")) ∧
    (* the operands: every argument of the instruction *)
    mapM (getValue BM) (getArgumentWords BC) = Some ArgVals ∧
    transValueVec transValue ArgVals (Some F) BB s1 = Some (Args, s2) ∧
    length Args = length (getArgumentWords BC) ∧
    (* one instruction, the call, at the end of the block *)
    BB = Some bb ∧ blocks s2 !! bb = Some B ∧
    functions s2 !! F = Some Fo ∧ insts s2 !! Call = None ∧
    st' = withInstruction Call
            (CallInst (Some (FunctionV F)) (Some <$> Args) n
               (fn_callingConv Fo) [(FunctionIndex, NoUnwind)])
            bb B s2.
Proof.
  intros Hset Hep. unfold transOCLBuiltinFromExtInst. intros Hr.
  apply bind_Some in Hr as (u & s & Ha & Hr).
  apply assert_Some in Ha as [_ ->].
  apply bind_Some in Hr as ([F BArgs] & s1 & Hcallee & Hr).
  apply (printf_callee _ _ _ _ _ Hset Hep) in Hcallee
    as (-> & RetTy & ArgTy & Rest & AV & ABT & HAV & HABT & HTys & HRet &
        Hcallee).
  unfold transTypeVector in HTys.
  apply mapM_cons_inv in HTys as (BT0 & BTs & -> & HBT0 & _).
  apply mapM_cons_inv in HABT as (BV0 & BVs & -> & HBV0 & _).
  pose proof HAV as HAV'.
  apply mapM_cons_inv in HAV' as (W & Ws & HW & HW0 & _).
  destruct (valueType (ext_value BC)) as [BT|] eqn:HBT; [|discriminate].
  cbn in HRet.
  apply bind_Some in Hr as (ArgVals & s & H2 & Hr).
  apply required_Some in H2 as [H2 ->].
  rewrite HAV in H2. injection H2 as <-.
  apply bind_Some in Hr as (Args & s2 & Hargs & Hr).
  apply bind_Some in Hr as (C & s3 & Hcall & Hr).
  apply bind_Some in Hr as (u1 & s4 & Hcc & Hr).
  apply bind_Some in Hr as (u2 & s5 & Hattr & Hr).
  apply mret_Some in Hr as [<- <-].
  assert (Hlen : length Args = length (getArgumentWords BC)).
  { pose proof (mapT_length _ _ _ _ _ Hargs) as ->.
    symmetry. eapply length_mapM. exact HAV. }
  apply insertAtEnd_Some in Hcall as (bb & B & -> & HB & -> & ->).
  unfold setCallingConv in Hcc.
  apply bind_Some in Hcc as (nd & s & Hnd & Hcc).
  apply theInst_Some in Hnd as [Hnd ->]. cbn in Hnd.
  rewrite lookup_insert_eq in Hnd. injection Hnd as <-.
  apply bind_Some in Hcc as (F' & s & HF' & Hcc).
  apply required_Some in HF' as [HF' ->]. cbn in HF'. injection HF' as <-.
  apply bind_Some in Hcc as (Fo & s & HFo & Hcc).
  apply theFunction_Some in HFo as [HFo ->]. cbn in HFo.
  apply updCall_Some in Hcc as (c & a & n & cc & at_ & par & Hnd & ->).
  cbn in Hnd. rewrite lookup_insert_eq in Hnd.
  injection Hnd as <- <- <- <- <- <-.
  apply updCall_Some in Hattr as (c & a & n & cc & at_ & par & Hnd & ->).
  cbn in Hnd. rewrite lookup_insert_eq in Hnd.
  injection Hnd as <- <- <- <- <- <-.
  pose proof (calleeByName_function _ _ _ _ _ Hcallee)
    as (Fo1 & HFo1 & _ & Hin1 & _).
  apply calleeByName_cases in Hcallee; [|discriminate].
  exists BT, RetTy, W, Ws, BV0, BT0, ArgTy, F, Fo1, s1, (BV0 :: BVs), Args,
    s2, bb, B, Fo, (getName (ext_value BC)).
  cbn zeta.
  split; [reflexivity|]. split; [exact HRet|]. split; [exact HW|].
  split; [exact HW0|]. split; [exact HBV0|]. split; [exact HBT0|].
  split; [exact HFo1|]. split; [exact Hin1|].
  split.
  { destruct Hcallee as [(-> & Hin & Fo0 & HFo0 & Hn0)|(Hnew & -> & Hc)].
    - left. rewrite HFo0 in HFo1. injection HFo1 as <-. auto.
    - right. cbn in HFo1. rewrite lookup_insert_eq in HFo1.
      injection HFo1 as <-. auto. }
  split.
  { destruct Hcallee as [(-> & Hin & Fo0 & HFo0 & Hn0)|(Hnew & -> & Hc)].
    - left. rewrite HFo0 in HFo1. by injection HFo1 as <-.
    - cbn in HFo1. rewrite lookup_insert_eq in HFo1. injection HFo1 as <-.
      apply builtinDeclaration_name. }
  split; [exact HAV|]. split; [exact Hargs|]. split; [exact Hlen|].
  split; [reflexivity|]. split; [exact HB|]. split; [exact HFo|].
  split; [apply newHandle_insts|].
  destruct s2. unfold withInstruction, set_insts, set_blocks. cbn.
  by rewrite !insert_insert_eq.
Qed.

End ExtInstNames.

(** ** Functions, once more *)

(** The entries of [FuncMap] are kept. *)
Definition keepsFuncMap : relation SPRVToLLVM := λ st st',
  ∀ id F, FuncMap st !! id = Some F → FuncMap st' !! id = Some F.

#[export] Instance keepsFuncMap_preorder : PreOrder keepsFuncMap.
Proof.
  split.
  - intros st id F HF. exact HF.
  - intros s1 s2 s3 H12 H23 id F HF. apply H23, H12, HF.
Qed.

Lemma sameFunctions_keepsFuncMap st st' :
  sameFunctions st st' → keepsFuncMap st st'.
Proof. intros (_ & _ & _ & _ & HF & _) id F. by rewrite HF. Qed.

Lemma mapValue_keepsFuncMap BV V : respects keepsFuncMap (mapValue BV V).
Proof.
  apply (respects_weaken sameFunctions);
    [apply sameFunctions_keepsFuncMap|apply mapValue_sameFunctions].
Qed.

Lemma updFunction_keepsFuncMap h f : respects keepsFuncMap (updFunction h f).
Proof.
  intros st u st' Hr. apply updFunction_Some in Hr as (Fo & _ & ->).
  intros id F HF. exact HF.
Qed.

#[export] Hint Resolve mapValue_keepsFuncMap updFunction_keepsFuncMap
  : respects.

(** The function [F] has the attribute [k] at the index [i]. *)
Definition hasFnAttr (st : SPRVToLLVM) (F : handle) (i : AttrIndex)
    (k : AttrKind) : Prop :=
  ∃ Fo, functions st !! F = Some Fo ∧ hasAttr (fn_attributes Fo) i k = true.

Lemma hasFnAttr_kept st st' F i k :
  keepsFunctions st st' → hasFnAttr st F i k → hasFnAttr st' F i k.
Proof.
  intros Hk (Fo & HFo & Ha).
  destruct (Hk F Fo HFo) as (Fo' & HFo' & _ & _ & _ & _ & Hat).
  exists Fo'. auto.
Qed.

Lemma Function_addAttribute_adds F i k st u st' :
  Function_addAttribute F i k st = Some (u, st') → hasFnAttr st' F i k.
Proof.
  intros Hr. apply updFunction_Some in Hr as (Fo & HFo & ->).
  eexists. split; [cbn; apply lookup_insert_eq|]. cbn.
  apply hasAttr_addAttr_same.
Qed.

(** What a step of a loop establishes and the later steps keep holds for
    every element after the loop. *)
Lemma mapT_establishes {A B} (f : A → Trans B) (P : A → SPRVToLLVM → Prop)
    (l : list A) st bs st' :
  (∀ a, respects keepsFunctions (f a)) →
  (∀ a s s', keepsFunctions s s' → P a s → P a s') →
  (∀ a s b s', a ∈ l → f a s = Some (b, s') → P a s') →
  mapT f l st = Some (bs, st') →
  ∀ a, a ∈ l → P a st'.
Proof.
  intros Hf Hkept Hstep. revert st bs st'.
  induction l as [|x l IH]; intros st bs st' Hr a Hin.
  - by apply elem_of_nil in Hin.
  - cbn in Hr. apply bind_Some in Hr as (y & s1 & Hx & Hr).
    apply bind_Some in Hr as (ys & s2 & Hl & Hr).
    apply mret_Some in Hr as [_ <-].
    apply elem_of_cons in Hin as [->|Hin].
    + apply (Hkept x s1 s2).
      * revert Hl. apply respects_mapT; [exact _|exact Hf].
      * eapply Hstep; [|exact Hx]. apply elem_of_cons. by left.
    + eapply IH; [|exact Hl|exact Hin].
      intros a' s b s' Hin'. apply Hstep. apply elem_of_cons. by right.
Qed.

Section FunctionAttributes.
Context `{Externals}.
Variable BM : SPRVModule.
Variable transValue :
  SPRVValue → option handle → option handle → bool → Trans Value.

Lemma foreachFuncCtlMask_adds FCM F st u st' :
  foreachFuncCtlMask FCM (Function_addFnAttr F) st = Some (u, st') →
  ∀ Attr Mask, (Attr, Mask) ∈ SPIRSPRVFuncCtlMaskMap →
    N.land FCM Mask ≠ 0 → hasFnAttr st' F FunctionIndex Attr.
Proof.
  unfold foreachFuncCtlMask. intros Hr Attr Mask Hin Hnz.
  apply bind_Some in Hr as (bs & s1 & Hl & Hr).
  apply mret_Some in Hr as [_ <-].
  revert Hnz.
  eapply (mapT_establishes _
            (λ '(Attr, Mask) s,
               N.land FCM Mask ≠ 0 → hasFnAttr s F FunctionIndex Attr)
            _ _ _ _ _ _ _ Hl (Attr, Mask) Hin).
  Unshelve.
  - intros [A0 M0]. respects_steps.
  - intros [A0 M0] s s' Hk HP Hnz. eapply hasFnAttr_kept; eauto.
  - intros [A0 M0] s b s' _ Hstep Hnz.
    apply N.eqb_neq in Hnz. rewrite Hnz in Hstep. cbn in Hstep.
    eapply Function_addAttribute_adds. exact Hstep.
Qed.

Lemma addParamAttrs_adds F Index Kinds st u st' :
  addParamAttrs F Index Kinds st = Some (u, st') →
  ∀ Kind A, Kind ∈ Kinds → SPIRSPRVFuncParamAttrMap_rmap Kind = Some A →
    hasFnAttr st' F Index A.
Proof.
  unfold addParamAttrs. intros Hr Kind A Hin HA.
  apply bind_Some in Hr as (bs & s1 & Hl & Hr).
  apply mret_Some in Hr as [_ <-].
  revert A HA.
  eapply (mapT_establishes _
            (λ Kind s, ∀ A, SPIRSPRVFuncParamAttrMap_rmap Kind = Some A →
                            hasFnAttr s F Index A)
            _ _ _ _ _ _ _ Hl Kind Hin).
  Unshelve.
  - intros K. destruct K; respects_steps.
  - intros K s s' Hk HP A HA. eapply hasFnAttr_kept; eauto.
  - intros K s b s' _ Hstep A HA.
    destruct K; try discriminate;
      (apply bind_Some in Hstep as (A' & s0 & HA' & Hstep);
       apply required_Some in HA' as [HA' ->];
       rewrite HA in HA'; injection HA' as <-;
       eapply Function_addAttribute_adds; exact Hstep).
Qed.

Hypothesis transValue_keepsFunctions :
  ∀ BV F BB CreatePlaceHolder,
    respects keepsFunctions (transValue BV F BB CreatePlaceHolder).

Lemma transFunctionDecl_attributes BF st F st' :
  transFunctionDecl BM BF st = Some (F, st') →
  isIntrinsicName (nameInModule st (getName (fun_value BF))) = false →
  ∀ Attr Mask, (Attr, Mask) ∈ SPIRSPRVFuncCtlMaskMap →
    N.land (getFuncCtlMask BF) Mask ≠ 0 →
    hasFnAttr st' F FunctionIndex Attr.
Proof.
  unfold transFunctionDecl. intros Hr Eintr Attr Mask Hin Hnz.
  apply bind_Some in Hr as (L & sa & HL & Hr).
  assert (sa = st) as ->.
  { destruct (isEntryPoint BM (getId (fun_value BF))).
    - by apply mret_Some in HL as [_ <-].
    - by apply required_Some in HL as [_ ->]. }
  apply bind_Some in Hr as (FT & sb & HFT & Hr).
  apply required_Some in HFT as [_ ->].
  apply bind_Some in Hr as (u & sc & HisF & Hr).
  apply assert_Some in HisF as [_ ->].
  apply bind_Some in Hr as (Fn & s1 & Hcr & Hr).
  apply Function_Create_Some in Hcr as [-> ->].
  apply bind_Some in Hr as (V & s2 & Hmv & Hr).
  pose proof (mapValue_result _ _ _ _ _ Hmv) as ->.
  apply mapValue_sameFunctions in Hmv as (Hf2 & _). cbn in Hf2.
  apply bind_Some in Hr as (F' & sd & HF' & Hr).
  apply required_Some in HF' as [HF' ->]. cbn in HF'. injection HF' as <-.
  apply bind_Some in Hr as (F' & s3 & Hmf & Hr).
  unfold mapFunction in Hmf.
  apply bind_Some in Hmf as (u1 & se & Hm & Hmf).
  apply modify_Some in Hm as ->. apply mret_Some in Hmf as [<- <-].
  apply bind_Some in Hr as (Fo & sf & HFo & Hr).
  apply theFunction_Some in HFo as [HFo ->]. cbn in HFo.
  rewrite Hf2, lookup_insert_eq in HFo. injection HFo as <-.
  apply bind_Some in Hr as (u2 & s4 & Hattr & Hr).
  apply mret_Some in Hr as [<- <-].
  unfold Function_isIntrinsic, createdFunction in Hattr.
  cbn [fn_name] in Hattr.
  rewrite Eintr in Hattr. cbn [negb] in Hattr.
  apply bind_Some in Hattr as (u3 & s5 & _ & Hattr).
  apply bind_Some in Hattr as (u4 & s6 & _ & Hattr).
  eapply foreachFuncCtlMask_adds; eauto.
Qed.

(** X19: a function that is translated for the first time is emitted with
    the attribute of every function-control bit of its mask (unless it is an
    intrinsic), with the attributes of its return value, and with the
    attributes of every parameter that has a name; [SPRVFPA_Const] has no
    attribute. *)
Theorem transFunction_attributes (BF : SPRVFunction) (st st' : SPRVToLLVM)
    (F : handle) :
  FuncMap st !! getId (fun_value BF) = None →
  transFunction BM transValue BF st = Some (F, st') →
  ∃ Fo, functions st' !! F = Some Fo ∧
    (Function_isIntrinsic Fo = false →
     ∀ Attr Mask, (Attr, Mask) ∈ SPIRSPRVFuncCtlMaskMap →
       N.land (getFuncCtlMask BF) Mask ≠ 0 →
       hasAttr (fn_attributes Fo) FunctionIndex Attr = true) ∧
    (∀ Kind A, Kind ∈ getReturnValueAttrs BF →
       SPIRSPRVFuncParamAttrMap_rmap Kind = Some A →
       hasAttr (fn_attributes Fo) ReturnIndex A = true) ∧
    (∀ ArgNo BA Attrs Kind A,
       (ArgNo < numParams (fn_type Fo))%nat →
       getArguments BF !! ArgNo = Some (BA, Attrs) →
       getName BA ≠ "" → Kind ∈ Attrs →
       SPIRSPRVFuncParamAttrMap_rmap Kind = Some A →
       hasAttr (fn_attributes Fo) (N.of_nat ArgNo + 1) A = true).
Proof.
  intros Hnew Hr. unfold transFunction in Hr.
  rewrite (bind_eq _ _ st st st) in Hr by reflexivity. rewrite Hnew in Hr.
  apply bind_Some in Hr as (F0 & s1 & Hdecl & Hr).
  pose proof (transFunctionDecl_attributes _ _ _ _ Hdecl) as Hctl.
  destruct (transFunctionDecl_declares _ _ _ _ _ Hdecl)
    as (_ & Fo1 & HFo1 & Hdecl1).
  apply bind_Some in Hr as (Fo1' & s & HFo1' & Hr).
  apply theFunction_Some in HFo1' as [HFo1' ->].
  rewrite HFo1 in HFo1'. injection HFo1' as <-.
  apply bind_Some in Hr as (l1 & s2 & Hargs & Hr).
  apply bind_Some in Hr as (u1 & s3 & Hret & Hr).
  apply bind_Some in Hr as (l2 & s4 & Hbbs & Hr).
  apply bind_Some in Hr as (l3 & s5 & Hinsts & Hr).
  apply mret_Some in Hr as [<- <-].
  assert (H12 : keepsFunctions s1 s2).
  { revert Hargs. apply respects_mapT; [exact _|]. intros ArgNo.
    respects_steps; try apply addParamAttrs_keepsFunctions. }
  assert (H23 : keepsFunctions s2 s3).
  { revert Hret. apply addParamAttrs_keepsFunctions. }
  assert (H35 : keepsFunctions s3 s5).
  { transitivity s4.
    - revert Hbbs. apply respects_mapT; [exact _|]. intros [BBB Insts].
      apply transValue_keepsFunctions.
    - revert Hinsts. apply respects_mapT; [exact _|]. intros [BBB Insts].
      respects_steps; try apply transValue_keepsFunctions. }
  assert (H15 : keepsFunctions s1 s5)
    by (transitivity s2; [exact H12|transitivity s3; assumption]).
  destruct (H15 F0 Fo1 HFo1) as (Fo & HFo & En & Ety & _ & _ & _).
  assert (Hget : ∀ i k, hasFnAttr s5 F0 i k →
                        hasAttr (fn_attributes Fo) i k = true).
  { intros i k (Fo' & HFo' & Ha). rewrite HFo in HFo'.
    by injection HFo' as <-. }
  exists Fo. split; [exact HFo|]. split; [|split].
  - intros Hni Attr Mask Hin Hnz. apply Hget.
    apply (hasFnAttr_kept s1); [exact H15|].
    apply (λ Hi, Hctl Hi Attr Mask Hin Hnz).
    destruct Hdecl1 as (En1 & _). unfold Function_isIntrinsic in Hni.
    rewrite <- En1, <- En. exact Hni.
  - intros Kind A Hin HA. apply Hget.
    apply (hasFnAttr_kept s3); [exact H35|].
    eapply addParamAttrs_adds; eauto.
  - intros ArgNo BA Attrs Kind A Hlt Hget' Hname Hin HA. apply Hget.
    apply (hasFnAttr_kept s2);
      [transitivity s3; assumption|].
    rewrite Ety in Hlt.
    assert (HinSeq : ArgNo ∈ seq 0 (numParams (fn_type Fo1))).
    { apply list_elem_of_In, in_seq. lia. }
    revert BA Attrs Kind A Hget' Hname Hin HA.
    eapply (mapT_establishes _
              (λ ArgNo s, ∀ BA Attrs Kind A,
                 getArguments BF !! ArgNo = Some (BA, Attrs) →
                 getName BA ≠ "" → Kind ∈ Attrs →
                 SPIRSPRVFuncParamAttrMap_rmap Kind = Some A →
                 hasFnAttr s F0 (N.of_nat ArgNo + 1) A)
              _ _ _ _ _ _ _ Hargs ArgNo HinSeq).
    Unshelve.
    + intros n. respects_steps; try apply addParamAttrs_keepsFunctions.
    + intros n s s' Hk HP BA Attrs Kind A ? ? ? ?.
      eapply hasFnAttr_kept; eauto.
    + intros n s b s' _ Hstep BA Attrs Kind A Hget' Hname Hin HA.
      apply bind_Some in Hstep as ([BA' Attrs'] & s0 & Hreq & Hstep).
      apply required_Some in Hreq as [Hreq ->].
      rewrite Hget' in Hreq. injection Hreq as <- <-.
      apply bind_Some in Hstep as (V & s6 & _ & Hstep).
      rewrite bool_decide_eq_false_2 in Hstep by exact Hname.
      eapply addParamAttrs_adds; eauto.
Qed.

End FunctionAttributes.

Section FunctionMemo.
Context `{Externals}.
Variable BM : SPRVModule.
Variable transValue :
  SPRVValue → option handle → option handle → bool → Trans Value.

(** The recursive calls insert functions that are not in [FuncMap] yet. *)
Hypothesis transValue_keepsFuncMap :
  ∀ BV F BB CreatePlaceHolder,
    respects keepsFuncMap (transValue BV F BB CreatePlaceHolder).

Lemma addParamAttrs_keepsFuncMap F Index Kinds :
  respects keepsFuncMap (addParamAttrs F Index Kinds).
Proof.
  unfold addParamAttrs, Function_addAttribute.
  respects_steps; apply respects_modify; intros ? ? ? HF; exact HF.
Qed.

Lemma transFunctionDecl_maps BF st F st' :
  transFunctionDecl BM BF st = Some (F, st') →
  FuncMap st' !! getId (fun_value BF) = Some F.
Proof.
  unfold transFunctionDecl. intros Hr.
  apply bind_Some in Hr as (L & sa & _ & Hr).
  apply bind_Some in Hr as (FT & sb & _ & Hr).
  apply bind_Some in Hr as (u & sc & _ & Hr).
  apply bind_Some in Hr as (Fn & s1 & _ & Hr).
  apply bind_Some in Hr as (V & s2 & _ & Hr).
  apply bind_Some in Hr as (F' & sd & _ & Hr).
  apply bind_Some in Hr as (F'' & s3 & Hmf & Hr).
  unfold mapFunction in Hmf.
  apply bind_Some in Hmf as (u1 & se & Hm & Hmf).
  apply modify_Some in Hm as ->. apply mret_Some in Hmf as [<- <-].
  assert (Hk : respects keepsFuncMap
                 (Fo ← theFunction F';
                  (if negb (Function_isIntrinsic Fo)
                   then Function_setCallingConv F'
                          (if isEntryPoint BM (getId (fun_value BF))
                           then SPIR_KERNEL else SPIR_FUNC);;
                        (if isFuncNoUnwind then Function_addFnAttr F' NoUnwind
                         else mret tt);;
                        foreachFuncCtlMask (getFuncCtlMask BF)
                          (Function_addFnAttr F')
                   else mret tt);;
                  mret F')).
  { unfold foreachFuncCtlMask, Function_setCallingConv, Function_addFnAttr,
      Function_addAttribute, theFunction.
    respects_steps; apply respects_modify; intros ? ? ? HF; exact HF. }
  pose proof (Hr' := Hr).
  apply Hk in Hr.
  apply bind_Some in Hr' as (Fo & sf & _ & Hr').
  apply bind_Some in Hr' as (u2 & s4 & _ & Hr').
  apply mret_Some in Hr' as [<- _].
  apply Hr. cbn. apply lookup_insert_eq.
Qed.

(** X20: a function is translated once: a call of [transFunction] that
    completes leaves the function it returns in [FuncMap], and a second
    call returns the same function and writes nothing. *)
Theorem transFunction_memoizes (BF : SPRVFunction) (st st' : SPRVToLLVM)
    (F : handle) :
  transFunction BM transValue BF st = Some (F, st') →
  FuncMap st' !! getId (fun_value BF) = Some F ∧
  transFunction BM transValue BF st' = Some (F, st').
Proof.
  intros Hr.
  assert (Hmap : FuncMap st' !! getId (fun_value BF) = Some F).
  { unfold transFunction in Hr.
    rewrite (bind_eq _ _ st st st) in Hr by reflexivity.
    destruct (FuncMap st !! getId (fun_value BF)) as [F0|] eqn:E.
    - apply mret_Some in Hr as [<- <-]. exact E.
    - apply bind_Some in Hr as (F0 & s1 & Hdecl & Hr).
      apply transFunctionDecl_maps in Hdecl.
      apply bind_Some in Hr as (Fo & sf & HFo & Hr).
      apply theFunction_Some in HFo as [_ ->].
      apply bind_Some in Hr as (l1 & s2 & Hargs & Hr).
      apply bind_Some in Hr as (u1 & s3 & Hret & Hr).
      apply bind_Some in Hr as (l2 & s4 & Hbbs & Hr).
      apply bind_Some in Hr as (l3 & s5 & Hinsts & Hr).
      apply mret_Some in Hr as [<- <-].
      assert (Hk : keepsFuncMap s1 s5); [|apply Hk, Hdecl].
      transitivity s2; [|transitivity s3; [|transitivity s4]].
      + revert Hargs. apply respects_mapT; [exact _|]. intros ArgNo.
        respects_steps; apply respects_modify; intros ? ? ? HF; exact HF.
      + revert Hret. apply addParamAttrs_keepsFuncMap.
      + revert Hbbs. apply respects_mapT; [exact _|]. intros [BBB Insts].
        apply transValue_keepsFuncMap.
      + revert Hinsts. apply respects_mapT; [exact _|]. intros [BBB Insts].
        respects_steps; apply transValue_keepsFuncMap. }
  split; [exact Hmap|].
  unfold transFunction. rewrite (bind_eq _ _ st' st' st') by reflexivity.
  rewrite Hmap. reflexivity.
Qed.

End FunctionMemo.

(** ** Placeholders *)

Lemma filter_ne_snoc (h : handle) (l : list handle) :
  h ∉ l →
  List.filter (λ i, negb (bool_decide (i = h))) (l ++ [h]) = l.
Proof.
  intros Hn. rewrite List.filter_app. cbn.
  rewrite bool_decide_eq_true_2 by reflexivity. cbn. rewrite app_nil_r.
  induction l as [|x l IH]; [reflexivity|]. cbn.
  apply not_elem_of_cons in Hn as [Hx Hl].
  rewrite bool_decide_eq_false_2 by congruence. cbn. by rewrite IH.
Qed.

Lemma newHandle_globals st : globals st !! newHandle st = None.
Proof.
  apply not_elem_of_dom. intros Hin.
  apply (is_fresh (allHandles st)). unfold allHandles. set_solver.
Qed.

Lemma mapValue_keepsPlaceholderMap BV V :
  respects (λ st st', PlaceholderMap st' = PlaceholderMap st) (mapValue BV V).
Proof.
  assert (PreOrder (λ st st', PlaceholderMap st' = PlaceholderMap st)).
  { split; [intros ?; reflexivity|intros ? ? ? ? ?; congruence]. }
  unfold mapValue, replaceAllUsesWith, Instruction_dropAllReferences,
    Instruction_removeFromParent, GlobalVariable_dropAllReferences,
    GlobalVariable_removeFromParent, theInst, theGlobal.
  respects_steps; apply respects_modify; intros ?; reflexivity.
Qed.

Section Placeholders.
Context `{Externals}.

(** X21: a placeholder that [createPlaceholder] has made for a value that
    was not mapped always passes the checks of [mapValue]: mapping the value
    afterwards completes, and it takes the global variable out of the module
    and the load out of its block again, so that the global list, the blocks
    and the functions are as before the placeholder; the value is mapped to
    its translation, while [PlaceholderMap] keeps the detached load. *)
Theorem createPlaceholder_then_mapValue (BV : SPRVValue) (BB : option handle)
    (V P : Value) (st s1 : SPRVToLLVM) :
  ValueMap st !! getId BV = None →
  (∀ g, g ∈ mod_globals (M st) → is_Some (globals st !! g)) →
  (∀ bb B i, blocks st !! bb = Some B → i ∈ bb_insts B →
     is_Some (insts st !! i)) →
  createPlaceholder BV BB st = Some (P, s1) →
  V ≠ P →
  ∃ LD s2,
    P = InstructionV LD ∧
    mapValue BV V s1 = Some (V, s2) ∧
    ValueMap s2 = <[getId BV := V]> (ValueMap st) ∧
    PlaceholderMap s2 !! getId BV = Some LD ∧
    mod_globals (M s2) = mod_globals (M st) ∧
    mod_functions (M s2) = mod_functions (M st) ∧
    blocks s2 = blocks st ∧
    functions s2 = functions st ∧
    (∀ h nd, insts st !! h = Some nd →
       insts s2 !! h = Some (replaceUsesIn P V nd)) ∧
    (∃ nd, insts s2 !! LD = Some nd ∧ node_parent nd = None).
Proof.
  intros Hnew Hglob Hblk Hr Hne. unfold createPlaceholder in Hr.
  apply bind_Some in Hr as (BT & sa & HBT & Hr).
  apply required_Some in HBT as [HBT ->].
  apply bind_Some in Hr as (LT & sb & HLT & Hr).
  apply required_Some in HLT as [HLT ->].
  apply bind_Some in Hr as (GV & sg & HGV & Hr).
  unfold new_GlobalVariable in HGV. injection HGV as <- <-.
  set (GV := newHandle st) in *.
  set (sg := set_M _ _) in Hr.
  apply bind_Some in Hr as (LD & sl & HLD & Hr).
  unfold insertAtEnd in HLD. destruct BB as [bb|]; [|discriminate].
  destruct (blocks sg !! bb) as [B|] eqn:HB; [|discriminate].
  injection HLD as <- <-.
  set (LD := newHandle sg) in *.
  apply bind_Some in Hr as (u & sp & Hm & Hr).
  apply modify_Some in Hm as ->.
  apply mapValue_inv in Hr as (-> & [[Hin _]|[[_ ->]|Hr]]);
    [cbn in Hin; congruence| |
     destruct Hr as (? & ? & ? & Hin & _); cbn in Hin; congruence].
  assert (HB' : blocks st !! bb = Some B) by exact HB.
  assert (HGVg : GV ∉ mod_globals (M st)).
  { intros Hin. apply Hglob in Hin as [G HG].
    unfold GV in HG. rewrite newHandle_globals in HG. discriminate. }
  assert (HLDb : LD ∉ bb_insts B).
  { intros Hin. destruct (Hblk bb B LD HB' Hin) as [nd Hnd].
    pose proof (newHandle_insts sg) as Hf. fold LD in Hf.
    cbn in Hf. rewrite Hnd in Hf. discriminate. }
  set (s1 := set_ValueMap _ _) in *.
  assert (Hin1 : ValueMap s1 !! getId BV = Some (InstructionV LD)).
  { cbn. apply lookup_insert_eq. }
  assert (HP : placeholderLoad s1 (InstructionV LD) LD GV).
  { split; [reflexivity|].
    exists (getName BV), false, 0, bb,
      (mkBasicBlock (bb_name B) (bb_parent B) (bb_insts B ++ [LD])),
      (mkGlobalVariable
         (nameInModule st (kPlaceholderPrefix +:+ getName BV)) LT false
         PrivateLinkage None 0).
    cbn. rewrite !lookup_insert_eq. repeat split.
    - apply nameInModule_keeps_prefix.
    - apply elem_of_app. right. apply elem_of_cons. by left. }
  assert (Hne' : InstructionV LD ≠ V) by congruence.
  destruct (mapValue_second_run _ _ _ _ _ _ Hin1 Hne' HP) as [[R s2] Hrun].
  destruct (mapValue_second_inv _ _ _ _ _ _ Hin1 Hne' Hrun)
    as (-> & LD' & GV' & HP' & HR).
  destruct HP' as ([= <-] & n' & v' & a' & bb' & B' & G' & Hld' & _).
  cbn in Hld'. rewrite lookup_insert_eq in Hld'. injection Hld' as <- _ _ _ _.
  pose proof (placeholderReplaced_uses _ _ _ _ _ _ HR) as Huses.
  destruct HR as (HVM & _ & _ & Hdet & _ & Hgl & Hfn & Hfs).
  exists LD, s2. split; [reflexivity|]. split; [exact Hrun|].
  split; [|split; [|split; [|split; [|split; [|split; [|split]]]]]].
  - rewrite HVM. cbn. apply insert_insert_eq.
  - rewrite (mapValue_keepsPlaceholderMap _ _ _ _ _ Hrun). cbn.
    apply lookup_insert_eq.
  - rewrite Hgl. cbn. apply filter_ne_snoc, HGVg.
  - rewrite Hfn. reflexivity.
  - destruct Hdet as (nd & bb1 & B1 & Hnd & Hpar & HB1 & _ & -> & _).
    cbn in Hnd. rewrite lookup_insert_eq in Hnd. injection Hnd as <-.
    cbn in Hpar. injection Hpar as <-.
    cbn in HB1. rewrite lookup_insert_eq in HB1. injection HB1 as <-.
    cbn. rewrite insert_insert_eq, filter_ne_snoc by exact HLDb.
    apply insert_id. rewrite HB'. by destruct B.
  - rewrite Hfs. reflexivity.
  - intros h nd Hnd. apply Huses.
    + intros ->. pose proof (newHandle_insts sg) as Hf. fold LD in Hf.
      cbn in Hf. congruence.
    + cbn. rewrite lookup_insert_ne; [exact Hnd|].
      intros <-. pose proof (newHandle_insts sg) as Hf. fold LD in Hf.
      cbn in Hf. congruence.
  - destruct Hdet as (nd & bb1 & B1 & Hnd & Hpar & HB1 & Hld & _).
    eexists. split; [exact Hld|reflexivity].
Qed.

End Placeholders.

(** ** The lowering of types *)

(** The type with every integer type in it signed or unsigned. *)
Fixpoint withSignedness (isSigned : bool) (T : SPRVType) : SPRVType :=
  match T with
  | TypeInt bits _ => TypeInt bits isSigned
  | TypeArray E n => TypeArray (withSignedness isSigned E) n
  | TypePointer E sc => TypePointer (withSignedness isSigned E) sc
  | TypeVector C n => TypeVector (withSignedness isSigned C) n
  | TypeFunction R Ps =>
      TypeFunction (withSignedness isSigned R)
        (List.map (withSignedness isSigned) Ps)
  | TypeStruct Ms Name packed =>
      TypeStruct (List.map (withSignedness isSigned) Ms) Name packed
  | TypePipe E => TypePipe (withSignedness isSigned E)
  | _ => T
  end.

(** Induction on a type, with the property for the types of the
    parameters and of the members. *)
Section NestedInduction.
Variable P : SPRVType → Prop.
Hypothesis HVoid : P TypeVoid.
Hypothesis HBool : P TypeBool.
Hypothesis HInt : ∀ bits sg, P (TypeInt bits sg).
Hypothesis HFloat : ∀ bits, P (TypeFloat bits).
Hypothesis HArray : ∀ E n, P E → P (TypeArray E n).
Hypothesis HPointer : ∀ E sc, P E → P (TypePointer E sc).
Hypothesis HVector : ∀ C n, P C → P (TypeVector C n).
Hypothesis HOpaque : ∀ Name, P (TypeOpaque Name).
Hypothesis HFunction : ∀ R Ps, P R → Forall P Ps → P (TypeFunction R Ps).
Hypothesis HStruct : ∀ Ms Name packed,
  Forall P Ms → P (TypeStruct Ms Name packed).
Hypothesis HSampler : ∀ d a i s, P (TypeSampler d a i s).
Hypothesis HPipe : ∀ E, P E → P (TypePipe E).
Hypothesis HGeneric : ∀ oc, P (TypeOpaqueGeneric oc).

Fixpoint SPRVType_nested_ind (T : SPRVType) : P T :=
  let all := fix all (l : list SPRVType) : Forall P l :=
    match l with
    | [] => Forall_nil_2 P
    | T' :: l' => Forall_cons_2 P T' l' (SPRVType_nested_ind T') (all l')
    end in
  match T with
  | TypeVoid => HVoid
  | TypeBool => HBool
  | TypeInt bits sg => HInt bits sg
  | TypeFloat bits => HFloat bits
  | TypeArray E n => HArray E n (SPRVType_nested_ind E)
  | TypePointer E sc => HPointer E sc (SPRVType_nested_ind E)
  | TypeVector C n => HVector C n (SPRVType_nested_ind C)
  | TypeOpaque Name => HOpaque Name
  | TypeFunction R Ps => HFunction R Ps (SPRVType_nested_ind R) (all Ps)
  | TypeStruct Ms Name packed => HStruct Ms Name packed (all Ms)
  | TypeSampler d a i s => HSampler d a i s
  | TypePipe E => HPipe E (SPRVType_nested_ind E)
  | TypeOpaqueGeneric oc => HGeneric oc
  end.

End NestedInduction.

Lemma mapM_map_ext {A B} (f : A → option B) (g : A → A) (l : list A) :
  Forall (λ x, f (g x) = f x) l → mapM f (List.map g l) = mapM f l.
Proof.
  induction 1 as [|x l Hx _ IH]; [reflexivity|]. cbn. by rewrite Hx, IH.
Qed.

Section TypeLowering.
Context `{Externals}.

(** X22: the LLVM type does not tell signed from unsigned: [transType]
    gives a type the result it gives the same type with the signedness of
    every integer type in it changed, and fails on the one when it fails on
    the other; while the OpenCL name of an integer type, when it has one,
    is prefixed with [u] when it is asked for as unsigned. *)
Theorem transType_forgets_signedness (T : SPRVType) (isSigned : bool) :
  transType (withSignedness isSigned T) = transType T ∧
  ∀ bits sg Name,
    transTypeToOCLTypeName (TypeInt bits sg) true = Some Name →
    transTypeToOCLTypeName (TypeInt bits sg) false = Some ("u" +:+ Name).
Proof.
  split.
  - induction T using SPRVType_nested_ind; cbn [withSignedness transType];
      try reflexivity; try (by rewrite IHT).
    + rewrite IHT. by rewrite (mapM_map_ext transType _ Ps).
    + by rewrite (mapM_map_ext transType _ Ms).
  - intros bits sg Name HN.
    cbn [transTypeToOCLTypeName] in HN |- *.
    repeat match type of HN with
           | context [match ?p with _ => _ end] => is_var p; destruct p
           end;
      try discriminate; by injection HN as <-.
Qed.

End TypeLowering.

(** ** The further properties on the instance *)

Section FurtherOnTheInstance.
Import Example Inputs.

Lemma fenceFlags_find K V :
  Util.find fenceFlags K = Some V → (K = 1 ∧ V = 256) ∨ (K = 2 ∧ V = 512).
Proof.
  intros HF. apply find_elem_of in HF. unfold fenceFlags in HF.
  apply elem_of_cons in HF as [[= -> ->]|HF]; [by left|].
  apply elem_of_cons in HF as [[= -> ->]|HF]; [by right|].
  by apply elem_of_nil in HF.
Qed.

Lemma fenceFlags_NoDup : NoDup fenceFlags.*1 ∧ NoDup fenceFlags.*2.
Proof.
  split; cbn; (apply NoDup_cons; split;
    [rewrite elem_of_cons, elem_of_nil; intros [[=]|[]]
    |apply NoDup_singleton]).
Qed.

Lemma SPIRVMap_round_trip_witness :
  NoDup fenceFlags.*1 ∧ NoDup fenceFlags.*2 ∧
  (Util.map fenceFlags 1 = Some 256 ↔ Util.rmap fenceFlags 256 = Some 1).
Proof.
  destruct fenceFlags_NoDup as [H1 H2].
  split; [exact H1|]. split; [exact H2|].
  exact (proj1 (SPIRVMap_round_trip fenceFlags 1 256 H1 H2)).
Defined.

Lemma rmapBitMask_mapBitMask_witness :
  (∀ K V, Util.find fenceFlags K = Some V → V ≠ 0) ∧
  (∀ K1 V1 K2 V2,
     Util.find fenceFlags K1 = Some V1 → Util.find fenceFlags K2 = Some V2 →
     K1 ≠ K2 → N.land V1 V2 = 0) ∧
  ∀ i, N.testbit (Util.rmapBitMask fenceFlags (λ K, K) (λ V, V)
                    (Util.mapBitMask fenceFlags (λ K, K) (λ V, V) 3)) i = true
       ↔ ∃ K V, Util.find fenceFlags K = Some V ∧ N.land 3 K ≠ 0 ∧
                N.testbit K i = true.
Proof.
  assert (H1 : ∀ K V, Util.find fenceFlags K = Some V → V ≠ 0).
  { intros K V HF.
    destruct (fenceFlags_find K V HF) as [[_ ->]|[_ ->]]; discriminate. }
  assert (H2 : ∀ K1 V1 K2 V2,
     Util.find fenceFlags K1 = Some V1 → Util.find fenceFlags K2 = Some V2 →
     K1 ≠ K2 → N.land V1 V2 = 0).
  { intros K1 V1 K2 V2 HF1 HF2 Hne.
    destruct (fenceFlags_find K1 V1 HF1) as [[-> ->]|[-> ->]],
      (fenceFlags_find K2 V2 HF2) as [[-> ->]|[-> ->]];
      try reflexivity; congruence. }
  split; [exact H1|]. split; [exact H2|].
  exact (rmapBitMask_mapBitMask fenceFlags (λ K, K) (λ V, V) 3 H1 H2).
Defined.

Lemma getVec_getStr_witness :
  forallb (λ Item, negb (existsb (Ascii.eqb ",")
                           (list_ascii_of_string Item)))
    ["a"; ""; "b c"] = true ∧
  last ["a"; ""; "b c"] ≠ Some "" ∧
  Util.getVec (Util.getStr ["a"; ""; "b c"] ",") "," = ["a"; ""; "b c"].
Proof.
  assert (H1 : forallb (λ Item, negb (existsb (Ascii.eqb ",")
                                        (list_ascii_of_string Item)))
                 ["a"; ""; "b c"] = true) by reflexivity.
  assert (H2 : last ["a"; ""; "b c"] ≠ Some "") by discriminate.
  split; [exact H1|]. split; [exact H2|].
  exact (getVec_getStr ["a"; ""; "b c"] "," H1 H2).
Defined.

Lemma move_places_segment_witness :
  Internal.move [1; 2; 3; 4; 5] 1 3 5 = Some [1; 4; 5; 2; 3] ∧
  [1; 4; 5; 2; 3] ≡ₚ [1; 2; 3; 4; 5].
Proof.
  assert (Hm : Internal.move [1; 2; 3; 4; 5] 1 3 5 = Some [1; 4; 5; 2; 3])
    by reflexivity.
  split; [exact Hm|].
  exact (proj2 (proj2 (proj2 (move_places_segment _ _ _ _ _ Hm)))).
Defined.

Lemma oclTransConstantSampler_layout_witness :
  2 < 8 ∧ 1 < 2 ∧ 0 < 2 ^ 28 - 1 ∧
  oclTransConstantSampler 2 1 0 = ConstantInt Int32Ty 21.
Proof.
  assert (H1 : 2 < 8) by reflexivity.
  assert (H2 : 1 < 2) by reflexivity.
  assert (H3 : 0 < 2 ^ 28 - 1) by reflexivity.
  split; [exact H1|]. split; [exact H2|]. split; [exact H3|].
  exact (proj1 (oclTransConstantSampler_layout 2 1 0 H1 H2 H3)).
Defined.

Lemma transOCLVectorLoadStore_invariant_witness :
  transOCLVectorLoadStore BM "vloadn" [40; 4] (initial emptyLog)
    = Some ("vload4", [40], initial emptyLog) ∧
  ([40] = [40; 4] ∨ [40] = removelast [40; 4]).
Proof.
  assert (Hr : transOCLVectorLoadStore BM "vloadn" [40; 4] (initial emptyLog)
               = Some ("vload4", [40], initial emptyLog))
    by (vm_compute; reflexivity).
  split; [exact Hr|].
  exact (proj1 (proj2 (transOCLVectorLoadStore_invariant BM _ _ _ _ _ _ Hr))).
Defined.

Lemma printf_is_not_mangled_witness :
  let st := after inFunction (initial emptyLog) in
  let st' := after (transOCLBuiltinFromExtInst BM Example.transValue printf
                      (Some entryBlock)) st in
  getBuiltinSet printf ≠ SPRVBIS_Count ∧
  getEntryPoint printf = OCL_Printf (getBuiltinSet printf) ∧
  transOCLBuiltinFromExtInst BM Example.transValue printf (Some entryBlock) st
    = Some (4%positive, st') ∧
  ∃ F Fo1 s1,
    functions st !! F = None ∧
    functions s1 !! F = Some Fo1 ∧
    Fo1 = mkFunction "printf" (FunctionTy Int32Ty [FloatTy] true)
            ExternalLinkage SPIR_FUNC [(FunctionIndex, NoUnwind)] [] ∧
    insts st' !! 4%positive =
      Some (mkInstNode
              (CallInst (Some (FunctionV F)) [Some (ConstantInt Int32Ty 40)]
                 "n" SPIR_FUNC [(FunctionIndex, NoUnwind)])
              (Some entryBlock)).
Proof.
  intros st st'.
  assert (H1 : getBuiltinSet printf ≠ SPRVBIS_Count) by discriminate.
  assert (H2 : getEntryPoint printf = OCL_Printf (getBuiltinSet printf))
    by reflexivity.
  assert (Hr : transOCLBuiltinFromExtInst BM Example.transValue printf
                 (Some entryBlock) st = Some (4%positive, st'))
    by (vm_compute; reflexivity).
  split; [exact H1|]. split; [exact H2|]. split; [exact Hr|].
  destruct (printf_is_not_mangled BM Example.transValue printf
              (Some entryBlock) st st' 4%positive H1 H2 Hr)
    as (BT & RetTy & W & Ws & BV0 & BT0 & ArgTy & F & Fo1 & s1 & ArgVals &
        Args & s2 & bb & B & Fo & n & HBT & HRet & HW & HBV0 & HBT0 & HArg &
        HFo1 & _ & Hcase & _ & _ & _ & _ & _ & _ & _ & _ & Hst').
  injection HBT as <-. injection HRet as <-. injection HW as <- <-.
  injection HBV0 as <-. injection HBT0 as <-. injection HArg as <-.
  assert (Hst : functions st =
            {[1%positive := mkFunction "f" (FunctionTy VoidTy [] false)
                              ExternalLinkage CC_C [] []]})
    by (vm_compute; reflexivity).
  destruct Hcase as [(_ & HFo & _ & Hname)|(Hnew & HFo1' & _)].
  { exfalso. rewrite Hst in HFo. apply lookup_singleton_Some in HFo as [_ <-].
    discriminate Hname. }
  assert (Hc : insts st' !! 4%positive =
            Some (mkInstNode
                    (CallInst (Some (FunctionV 3%positive))
                       [Some (ConstantInt Int32Ty 40)] "n" SPIR_FUNC
                       [(FunctionIndex, NoUnwind)])
                    (Some entryBlock))) by (vm_compute; reflexivity).
  assert (Hnd : insts st' !! 4%positive =
            Some (mkInstNode
                    (CallInst (Some (FunctionV F)) (Some <$> Args) n
                       (fn_callingConv Fo) [(FunctionIndex, NoUnwind)])
                    (Some bb))).
  { rewrite Hst'. cbn. apply lookup_insert_eq. }
  rewrite Hc in Hnd. injection Hnd as <- _ _ _ _.
  exists 3%positive, Fo1, s1. split; [exact Hnew|]. split; [exact HFo1|].
  split; [rewrite HFo1'; vm_compute; reflexivity|exact Hc].
Defined.

Lemma Example_transValue_keepsFuncMap BV F BB c :
  respects keepsFuncMap (Example.transValue BV F BB c).
Proof.
  apply (respects_weaken sameFunctions);
    [apply sameFunctions_keepsFuncMap
    |unfold Example.transValue; respects_steps].
Qed.

Lemma transFunction_attributes_witness :
  let st' := after (transFunction BM Example.transValue restricted)
               (initial emptyLog) in
  FuncMap (initial emptyLog) !! getId (fun_value restricted) = None ∧
  transFunction BM Example.transValue restricted (initial emptyLog)
    = Some (1%positive, st') ∧
  ∃ Fo, functions st' !! 1%positive = Some Fo ∧
    hasAttr (fn_attributes Fo) ReturnIndex ZExt = true.
Proof.
  intros st'.
  assert (H1 : FuncMap (initial emptyLog) !! getId (fun_value restricted)
               = None) by reflexivity.
  assert (H2 : transFunction BM Example.transValue restricted
                 (initial emptyLog) = Some (1%positive, st'))
    by (vm_compute; reflexivity).
  split; [exact H1|]. split; [exact H2|].
  destruct (transFunction_attributes BM Example.transValue
              Example_transValue_keepsFunctions restricted (initial emptyLog) st'
              1%positive H1 H2)
    as (Fo & HFo & _ & Hret & _).
  exists Fo. split; [exact HFo|].
  apply (Hret SPRVFPA_Zext ZExt); [|reflexivity].
  apply elem_of_cons. by left.
Defined.

Lemma transFunction_memoizes_witness :
  let st' := after (transFunction BM Example.transValue restricted)
               (initial emptyLog) in
  transFunction BM Example.transValue restricted (initial emptyLog)
    = Some (1%positive, st') ∧
  transFunction BM Example.transValue restricted st' = Some (1%positive, st').
Proof.
  intros st'.
  assert (H2 : transFunction BM Example.transValue restricted
                 (initial emptyLog) = Some (1%positive, st'))
    by (vm_compute; reflexivity).
  split; [exact H2|].
  exact (proj2 (transFunction_memoizes BM Example.transValue
                  Example_transValue_keepsFuncMap restricted
                  (initial emptyLog) st' 1%positive H2)).
Defined.

Lemma inFunction_globals g :
  g ∈ mod_globals (M (after inFunction (initial emptyLog))) →
  is_Some (globals (after inFunction (initial emptyLog)) !! g).
Proof. intros Hin. vm_compute in Hin. by apply elem_of_nil in Hin. Qed.

Lemma inFunction_blocks bb B i :
  blocks (after inFunction (initial emptyLog)) !! bb = Some B →
  i ∈ bb_insts B →
  is_Some (insts (after inFunction (initial emptyLog)) !! i).
Proof.
  intros HB Hin.
  assert (Hbl : blocks (after inFunction (initial emptyLog))
                = {[entryBlock := mkBasicBlock "entry" (Some 1%positive) []]}).
  { apply map_eq. intros k. vm_compute. reflexivity. }
  rewrite Hbl in HB. apply lookup_singleton_Some in HB as [_ <-].
  by apply elem_of_nil in Hin.
Qed.

Lemma createPlaceholder_then_mapValue_witness :
  let st := after inFunction (initial emptyLog) in
  let s1 := after (createPlaceholder forwardValue (Some entryBlock)) st in
  createPlaceholder forwardValue (Some entryBlock) st
    = Some (InstructionV 4%positive, s1) ∧
  ∃ s2, mapValue forwardValue (ConstantInt Int32Ty 3) s1
          = Some (ConstantInt Int32Ty 3, s2) ∧
        mod_globals (M s2) = mod_globals (M st) ∧ blocks s2 = blocks st.
Proof.
  intros st s1.
  assert (H0 : ValueMap st !! getId forwardValue = None) by reflexivity.
  assert (Hr : createPlaceholder forwardValue (Some entryBlock) st
               = Some (InstructionV 4%positive, s1))
    by (vm_compute; reflexivity).
  assert (Hne : ConstantInt Int32Ty 3 ≠ InstructionV 4%positive)
    by discriminate.
  split; [exact Hr|].
  destruct (createPlaceholder_then_mapValue forwardValue (Some entryBlock)
              (ConstantInt Int32Ty 3) (InstructionV 4%positive) st s1
              H0 inFunction_globals inFunction_blocks Hr Hne)
    as (LD & s2 & _ & Hm & _ & _ & Hg & _ & Hb & _).
  exists s2. split; [exact Hm|]. split; [exact Hg|exact Hb].
Defined.

End FurtherOnTheInstance.
